(** * Monster Mayhem: the per-session game engine (class [Game])

    A shallow embedding of the server-side [Game] class and the proofs of
    its turn, placement, movement, combat and end-of-game rules.

    Modelling conventions.
    - Player ids, monster ids and monster types are JavaScript strings.
    - Monster objects are shared between a player's roster and the board,
      and are mutated in place ([monster.x = newX]).  The embedding keeps
      them in an object store [objs]; rosters and board cells hold
      references ([loc]) into that store.
    - [players] and [turnActions] are JavaScript objects used as maps from
      player id to a record; they are finite maps here (own properties
      only).
    - Coordinates are integers ([Z]); the board is the 10x10 array of rows
      [board[y][x]].
    - The methods mutate [this]; here every method takes the game and
      returns the new game together with what the call produced. *)

From stdpp Require Import gmap strings list fin_maps sorting.
From Stdlib Require Import ZArith.

Local Open Scope Z_scope.

(** ** Data model *)

Inductive Edge := EdgeTop | EdgeBottom | EdgeLeft | EdgeRight.

Inductive Status := Waiting | Active | Finished.

#[global] Instance Edge_eq_dec : EqDecision Edge.
Proof. solve_decision. Defined.

#[global] Instance Status_eq_dec : EqDecision Status.
Proof. solve_decision. Defined.

(** A reference to a monster object. *)
Definition loc := nat.

(** [{ id, type, x, y, owner }] *)
Record Monster := mkMonster {
  m_id : string;
  m_type : string;
  m_x : Z;
  m_y : Z;
  m_owner : string
}.

(** [{ id, edge, monsters: [], monstersLost: 0 }] *)
Record Player := mkPlayer {
  p_id : string;
  p_edge : Edge;
  p_monsters : list loc;
  p_monstersLost : nat
}.

(** [{ placedMonster, movedMonsters }].  The field [placedMonsterId] is
    read by [moveMonster]; an object that lacks it reads as [undefined],
    which is [None] here. *)
Record TurnAction := mkTurnAction {
  placedMonster : bool;
  movedMonsters : gset string;
  placedMonsterId : option string
}.

Record Game := mkGame {
  g_id : string;
  players : gmap string Player;
  board : list (list (option loc));
  playerOrder : list string;
  currentPlayerIndex : nat;
  round : nat;
  availableEdges : list Edge;
  status : Status;
  winner : option string;
  turnActions : gmap string TurnAction;
  objs : list Monster
}.

(** Field updates ([this.f = v]). *)
Definition set_players (v : gmap string Player) (g : Game) : Game :=
  mkGame (g_id g) v (board g) (playerOrder g) (currentPlayerIndex g) (round g)
         (availableEdges g) (status g) (winner g) (turnActions g) (objs g).

Definition set_board (v : list (list (option loc))) (g : Game) : Game :=
  mkGame (g_id g) (players g) v (playerOrder g) (currentPlayerIndex g) (round g)
         (availableEdges g) (status g) (winner g) (turnActions g) (objs g).

Definition set_playerOrder (v : list string) (g : Game) : Game :=
  mkGame (g_id g) (players g) (board g) v (currentPlayerIndex g) (round g)
         (availableEdges g) (status g) (winner g) (turnActions g) (objs g).

Definition set_currentPlayerIndex (v : nat) (g : Game) : Game :=
  mkGame (g_id g) (players g) (board g) (playerOrder g) v (round g)
         (availableEdges g) (status g) (winner g) (turnActions g) (objs g).

Definition set_round (v : nat) (g : Game) : Game :=
  mkGame (g_id g) (players g) (board g) (playerOrder g) (currentPlayerIndex g) v
         (availableEdges g) (status g) (winner g) (turnActions g) (objs g).

Definition set_availableEdges (v : list Edge) (g : Game) : Game :=
  mkGame (g_id g) (players g) (board g) (playerOrder g) (currentPlayerIndex g) (round g)
         v (status g) (winner g) (turnActions g) (objs g).

Definition set_status (v : Status) (g : Game) : Game :=
  mkGame (g_id g) (players g) (board g) (playerOrder g) (currentPlayerIndex g) (round g)
         (availableEdges g) v (winner g) (turnActions g) (objs g).

Definition set_winner (v : option string) (g : Game) : Game :=
  mkGame (g_id g) (players g) (board g) (playerOrder g) (currentPlayerIndex g) (round g)
         (availableEdges g) (status g) v (turnActions g) (objs g).

Definition set_turnActions (v : gmap string TurnAction) (g : Game) : Game :=
  mkGame (g_id g) (players g) (board g) (playerOrder g) (currentPlayerIndex g) (round g)
         (availableEdges g) (status g) (winner g) v (objs g).

Definition set_objs (v : list Monster) (g : Game) : Game :=
  mkGame (g_id g) (players g) (board g) (playerOrder g) (currentPlayerIndex g) (round g)
         (availableEdges g) (status g) (winner g) (turnActions g) v.

(** ** What a method call produces *)

(** Messages: the string literals of the source, and its two template
    strings, kept structured. *)
Inductive Message :=
| Msg (s : string)
| MsgPlaced (type : string) (x y : Z)   (* `Monster ${type} placed at (${x}, ${y}).` *)
| MsgMoved (x y : Z).                   (* `Monster moved to (${newX}, ${newY}).` *)

(** Per-player entry of [getState().players]. *)
Record PlayerView := mkPlayerView {
  v_id : string;
  v_edge : Edge;
  v_monsterCount : nat;
  v_monstersLost : nat;
  v_isEliminated : bool
}.

(** The object returned by [getState()]; the board is shown with each
    reference resolved to the monster it points to. *)
Record State := mkState {
  s_id : string;
  s_players : gmap string PlayerView;
  s_board : list (list (option Monster));
  s_currentPlayerId : option string;
  s_round : nat;
  s_status : Status;
  s_winner : option string;
  s_playerOrder : list string
}.

(** [{ success, message }] or [{ success, gameState }]. *)
Record Result := mkResult {
  success : bool;
  message : option Message;
  gameState : option State
}.

Definition failure (s : string) : Result := mkResult false (Some (Msg s)) None.

(** A call either returns or throws a [TypeError] (a property read on
    [undefined]). *)
Inductive Outcome :=
| Returned (r : Result)
| Threw.

(** ** Board and object-store access *)

Definition inBounds (x y : Z) : bool :=
  negb ((x <? 0) || (x >? 9) || (y <? 0) || (y >? 9)).

(** [this.board[y]?.[x]]: [None] is [undefined] (no such row or column),
    [Some None] is [null], [Some (Some l)] a monster reference.  The board
    is built 10x10 and only written at validated coordinates, so a read
    within bounds always finds a cell. *)
Definition boardAt (g : Game) (x y : Z) : option (option loc) :=
  if (x <? 0) || (y <? 0) then None
  else row ← board g !! Z.to_nat y; row !! Z.to_nat x.

(** The monster object a truthy board cell refers to. *)
Definition contentAt (g : Game) (x y : Z) : option Monster :=
  match boardAt g x y with
  | Some (Some l) => objs g !! l
  | _ => None
  end.

(** [this.board[y][x] = v], for a cell of the 10x10 array. *)
Definition setCell (x y : Z) (v : option loc) (b : list (list (option loc)))
  : list (list (option loc)) :=
  if (x <? 0) || (y <? 0) then b
  else match b !! Z.to_nat y with
       | Some row => <[Z.to_nat y := <[Z.to_nat x := v]> row]> b
       | None => b
       end.

(** [Array(10).fill(null).map(() => Array(10).fill(null))] *)
Definition emptyBoard : list (list (option loc)) :=
  replicate 10 (replicate 10 None).

(** JavaScript truthiness of a string. *)
Definition truthy (s : string) : bool := negb (String.eqb s "").

(** ** Turn bookkeeping *)

Definition freshTurnAction : TurnAction := mkTurnAction false ∅ None.

(** [resetTurnActions(playerId = null)] *)
Definition resetTurnActions (playerId : option string) (g : Game) : Game :=
  match playerId with
  | Some pid =>
      if truthy pid
      then set_turnActions (<[pid := freshTurnAction]> (turnActions g)) g
      else set_turnActions
             (foldl (fun ta p => <[p := freshTurnAction]> ta) (turnActions g) (playerOrder g)) g
  | None =>
      set_turnActions
        (foldl (fun ta p => <[p := freshTurnAction]> ta) (turnActions g) (playerOrder g)) g
  end.

(** [getCurrentPlayer()]: [None] is [null] or [undefined]. *)
Definition getCurrentPlayer (g : Game) : option string :=
  match status g with
  | Active =>
      match playerOrder g with
      | [] => None
      | _ => playerOrder g !! currentPlayerIndex g
      end
  | _ => None
  end.

(** ** Placement *)

(** The [switch (player.edge)] of [isValidPlacement]: whether the edge
    claims the cell. *)
Definition edgeClaims (edge : Edge) (x y : Z) : bool :=
  match edge with
  | EdgeTop => y =? 0
  | EdgeBottom => y =? 9
  | EdgeLeft => x =? 0
  | EdgeRight => x =? 9
  end.

(** [isValidPlacement(playerId, x, y)] *)
Definition isValidPlacement (g : Game) (playerId : string) (x y : Z) : bool :=
  match players g !! playerId with
  | None => false
  | Some player =>
      if negb (inBounds x y) then false
      else match boardAt g x y with
           | Some None => edgeClaims (p_edge player) x y
           | _ => false
           end
  end.

(** ** Movement *)

Section IsValidMove.
Variables (g : Game) (playerId : string) (monster : Monster) (newX newY : Z).

Let dx := Z.abs (newX - m_x monster).
Let dy := Z.abs (newY - m_y monster).
Let isDiagonal := (dx >? 0) && (dy >? 0).
Let isStraight := ((dx >? 0) && (dy =? 0)) || ((dx =? 0) && (dy >? 0)).
Let currentX := m_x monster.
Let currentY := m_y monster.
Let stepX := Z.sgn (newX - currentX).
Let stepY := Z.sgn (newY - currentY).
Let steps := Z.max dx dy.

(** One iteration of the path loop: [true] when it executes
    [return false], [false] when it falls through or [continue]s. *)
Definition pathBlockedAt (i : Z) : bool :=
  let checkX0 := currentX + stepX * (if (isStraight && (dx >? 0)) || isDiagonal then i else 0) in
  let checkY0 := currentY + stepY * (if (isStraight && (dy >? 0)) || isDiagonal then i else 0) in
  let checkX := if isDiagonal then currentX + stepX * Z.min i dx else checkX0 in
  let checkY := if isDiagonal then currentY + stepY * Z.min i dy else checkY0 in
  if negb (inBounds checkX checkY) then false
  else
    match contentAt g checkX checkY with
    | Some squareContent =>
        if (i <? steps) && String.eqb (m_owner squareContent) playerId then false
        else if negb (String.eqb (m_owner squareContent) playerId) then true
        else if (i =? steps) && negb (String.eqb (m_owner squareContent) playerId) then true
        else false
    | None => false
    end.

(** [for (let i = ...; i <= steps; i++)], [n] iterations left. *)
Fixpoint pathLoop (n : nat) (i : Z) : bool :=
  match n with
  | O => true
  | S n' => if pathBlockedAt i then false else pathLoop n' (i + 1)
  end.

(** [isValidMove(playerId, monster, newX, newY)] *)
Definition isValidMove : bool :=
  if negb (inBounds newX newY) then false
  else if negb isStraight && negb isDiagonal then false
  else if isDiagonal && ((dx >? 2) || (dy >? 2)) then false
  else pathLoop (Z.to_nat steps) 1.
End IsValidMove.

(** ** Rosters, elimination and the end of the game *)

(** [monsters.findIndex(m => m.id === monsterId)]: the index and the
    reference found, [None] for [-1]. *)
Definition findMonster (g : Game) (ms : list loc) (monsterId : string) : option (nat * loc) :=
  list_find (fun l => m_id <$> objs g !! l = Some monsterId) ms.

(** [isPlayerEliminated(playerId)]; the argument may be [null]. *)
Definition isPlayerEliminated (g : Game) (playerId : option string) : bool :=
  match playerId with
  | None => true
  | Some pid =>
      match players g !! pid with
      | None => true
      | Some p => bool_decide (10 ≤ p_monstersLost p)%nat
      end
  end.

(** [this.playerOrder.filter(pid => !this.isPlayerEliminated(pid))] *)
Definition activePlayers (g : Game) : list string :=
  filter (fun pid => isPlayerEliminated g (Some pid) = false) (playerOrder g).

(** [checkForWinner()] *)
Definition checkForWinner (g : Game) : option string :=
  match activePlayers g with
  | [w] => if bool_decide (1 < length (playerOrder g))%nat then Some w else None
  | _ => None
  end.

(** [endGame(winnerId = null)] *)
Definition endGame (winnerId : option string) (g : Game) : Game :=
  match status g with
  | Finished => g
  | _ => set_winner winnerId (set_status Finished g)
  end.

(** [getState()] *)
Definition playerView (g : Game) (p : Player) : PlayerView :=
  mkPlayerView (p_id p) (p_edge p) (length (p_monsters p)) (p_monstersLost p)
               (isPlayerEliminated g (Some (p_id p))).

Definition getState (g : Game) : State :=
  mkState (g_id g)
          (foldr (fun kp acc => <[p_id kp.2 := playerView g kp.2]> acc) ∅
                 (map_to_list (players g)))
          ((fun row : list (option loc) =>
              (fun c : option loc => c ≫= (objs g !!.)) <$> row) <$> board g)
          (getCurrentPlayer g)
          (round g) (status g) (winner g) (playerOrder g).

(** ** Combat *)

(** [removeMonster(monsterId, ownerId)] *)
Definition removeMonster (monsterId ownerId : string) (g : Game) : Game :=
  match players g !! ownerId with
  | None => g
  | Some player =>
      match findMonster g (p_monsters player) monsterId with
      | None => g
      | Some (monsterIndex, l) =>
          match objs g !! l with
          | None => g
          | Some monster =>
              let g1 :=
                if bool_decide (m_id <$> contentAt g (m_x monster) (m_y monster) = Some monsterId)
                then set_board (setCell (m_x monster) (m_y monster) None (board g)) g
                else g in
              set_players
                (<[ownerId := mkPlayer (p_id player) (p_edge player)
                                       (delete monsterIndex (p_monsters player))
                                       (S (p_monstersLost player))]> (players g1)) g1
          end
      end
  end.

(** [handleConflict(x, y, movingPlayerId, existingMonster)] *)
Definition handleConflict (x y : Z) (movingPlayerId : string)
           (existingMonster : option loc) (g : Game) : Game :=
  match contentAt g x y, existingMonster ≫= (objs g !!.) with
  | Some movingMonster, Some existing =>
      if String.eqb (m_owner movingMonster) (m_owner existing) then
        if String.eqb (m_type movingMonster) (m_type existing) then
          removeMonster (m_id existing) (m_owner existing)
            (removeMonster (m_id movingMonster) (m_owner movingMonster) g)
        else g
      else
        let type1 := m_type movingMonster in
        let type2 := m_type existing in
        let removedMonster :=
          if (String.eqb type1 "vampire" && String.eqb type2 "werewolf")
             || (String.eqb type1 "werewolf" && String.eqb type2 "vampire")
          then Some (if String.eqb type1 "werewolf" then movingMonster else existing)
          else if (String.eqb type1 "werewolf" && String.eqb type2 "ghost")
                  || (String.eqb type1 "ghost" && String.eqb type2 "werewolf")
          then Some (if String.eqb type1 "ghost" then movingMonster else existing)
          else if (String.eqb type1 "ghost" && String.eqb type2 "vampire")
                  || (String.eqb type1 "vampire" && String.eqb type2 "ghost")
          then Some (if String.eqb type1 "vampire" then movingMonster else existing)
          else None in
        match removedMonster with
        | Some m => removeMonster (m_id m) (m_owner m) g
        | None => g
        end
  | _, _ => g
  end.

(** ** Placing and moving *)

(** [["vampire", "werewolf", "ghost"]] *)
Definition validTypes : list string := ["vampire"; "werewolf"; "ghost"].

(** [placeMonster(playerId, type, x, y)]; [monsterId] is the value that
    [uuidv4()] returns in this call. *)
Definition placeMonster (playerId type : string) (x y : Z) (monsterId : string)
           (g : Game) : Game * Outcome :=
  if bool_decide (getCurrentPlayer g ≠ Some playerId)
  then (g, Returned (failure "Not your turn."))
  else if default false (placedMonster <$> turnActions g !! playerId)
  then (g, Returned (failure "You have already placed a monster this turn."))
  else if negb (bool_decide (type ∈ validTypes))
  then (g, Returned (failure "Invalid monster type."))
  else if negb (isValidPlacement g playerId x y)
  then (g, Returned
             (failure "Invalid position to place monster (must be on your edge and empty)."))
  else
    let newMonster := mkMonster monsterId type x y playerId in
    let l := length (objs g) in
    let g1 := set_objs (objs g ++ [newMonster]) g in
    match players g1 !! playerId with
    | None => (g1, Threw)
    | Some player =>
        let g2 := set_players
                    (<[playerId := mkPlayer (p_id player) (p_edge player)
                                            (p_monsters player ++ [l])
                                            (p_monstersLost player)]> (players g1)) g1 in
        let g3 := set_board (setCell x y (Some l) (board g2)) g2 in
        match turnActions g3 !! playerId with
        | None => (g3, Threw)
        | Some ta =>
            (set_turnActions
               (<[playerId := mkTurnAction true (movedMonsters ta) (placedMonsterId ta)]>
                  (turnActions g3)) g3,
             Returned (mkResult true (Some (MsgPlaced type x y)) None))
        end
    end.

(** The relocation inside [moveMonster]: [this.board[oldY][oldX] = null;
    this.board[newY][newX] = monster; monster.x = newX; monster.y = newY],
    where [l] refers to the object [monster]. *)
Definition relocate (l : loc) (monster : Monster) (newX newY : Z) (g : Game) : Game :=
  let oldX := m_x monster in
  let oldY := m_y monster in
  let g1 := set_board (setCell oldX oldY None (board g)) g in
  let g2 := set_board (setCell newX newY (Some l) (board g1)) g1 in
  set_objs (<[l := mkMonster (m_id monster) (m_type monster) newX newY
                             (m_owner monster)]> (objs g2)) g2.

(** The check that follows a move: [const winner = this.checkForWinner();
    if (winner) this.endGame(winner)]. *)
Definition settleWinner (g : Game) : Game :=
  match checkForWinner g with
  | Some w => if truthy w then endGame (Some w) g else g
  | None => g
  end.

(** [moveMonster(playerId, monsterId, newX, newY)] *)
Definition moveMonster (playerId monsterId : string) (newX newY : Z)
           (g : Game) : Game * Outcome :=
  if bool_decide (getCurrentPlayer g ≠ Some playerId)
  then (g, Returned (failure "Not your turn."))
  else
    match players g !! playerId with
    | None => (g, Threw)
    | Some player =>
        match findMonster g (p_monsters player) monsterId with
        | None => (g, Returned (failure "Monster not found."))
        | Some (monsterIndex, l) =>
            match objs g !! l with
            | None => (g, Threw)
            | Some monster =>
                let ta := turnActions g !! playerId in
                if default false (placedMonster <$> ta)
                   && bool_decide (m_id <$> contentAt g (m_x monster) (m_y monster)
                                   = Some monsterId)
                   && bool_decide (ta ≫= placedMonsterId = Some monsterId)
                then (g, Returned
                           (failure "You cannot move the monster you just placed this turn."))
                else if default false
                          ((fun t => bool_decide (monsterId ∈ movedMonsters t)) <$> ta)
                then (g, Returned (failure "This monster has already moved this turn."))
                else if negb (isValidMove g playerId monster newX newY)
                then (g, Returned
                           (failure "Invalid move (distance, obstacle, or out of bounds)."))
                else
                  let destinationContent := mjoin (boardAt g newX newY) in
                  let g3 := relocate l monster newX newY g in
                  match turnActions g3 !! playerId with
                  | None => (g3, Threw)
                  | Some t =>
                      let g4 := set_turnActions
                                  (<[playerId := mkTurnAction (placedMonster t)
                                                   ({[monsterId]} ∪ movedMonsters t)
                                                   (placedMonsterId t)]> (turnActions g3)) g3 in
                      let g5 := match destinationContent with
                                | Some _ => handleConflict newX newY playerId destinationContent g4
                                | None => g4
                                end in
                      (settleWinner g5,
                       Returned (mkResult true (Some (MsgMoved newX newY)) None))
                  end
            end
        end
    end.

(** ** Sorting with a comparator that may call [Math.random()] *)

(** The values [Math.random() - 0.5] takes during a call, in the order
    they are drawn; only their sign matters to [sort].  A comparator
    consumes one value each time it evaluates that expression. *)
Definition draw (rnd : list Z) : Z * list Z :=
  match rnd with
  | [] => (0, [])
  | r :: rnd' => (r, rnd')
  end.

(** [Array.prototype.sort(cmp)]: the engine's algorithm is modelled as a
    stable insertion sort; [cmp a b <= 0] keeps [a] before [b]. *)
Section ArraySort.
Context {A : Type} (cmp : A → A → list Z → Z * list Z).

Fixpoint sortInsert (a : A) (l : list A) (rnd : list Z) : list A * list Z :=
  match l with
  | [] => ([a], rnd)
  | b :: l' =>
      let '(c, rnd1) := cmp a b rnd in
      if c <=? 0 then (a :: b :: l', rnd1)
      else let '(r, rnd2) := sortInsert a l' rnd1 in (b :: r, rnd2)
  end.

Fixpoint arraySort (l : list A) (rnd : list Z) : list A * list Z :=
  match l with
  | [] => ([], rnd)
  | a :: l' => let '(s, rnd1) := arraySort l' rnd in sortInsert a s rnd1
  end.
End ArraySort.

(** [this.players[a] ? this.players[a].monsters.length : Infinity];
    [None] is [Infinity]. *)
Definition monsterCount (g : Game) (a : string) : option nat :=
  (fun p => length (p_monsters p)) <$> players g !! a.

(** The comparator of the round-boundary sort in [endTurn]. *)
Definition compareByCount (g : Game) (a b : string) (rnd : list Z) : Z * list Z :=
  let countA := monsterCount g a in
  let countB := monsterCount g b in
  if bool_decide (countA = countB) then draw rnd
  else match countA, countB with
       | Some n, Some m => (Z.of_nat n - Z.of_nat m, rnd)
       | None, _ => (1, rnd)
       | Some _, None => (-1, rnd)
       end.

(** ** Ending a turn *)

(** The loop [while (this.isPlayerEliminated(this.getCurrentPlayer()) &&
    this.status === "active")] of [endTurn], with [fuel] iterations
    allowed.  [Some (g', true)] when the body executed one of its two
    [return]s, [Some (g', false)] when the loop condition became false,
    [None] when the iterations ran out. *)
Fixpoint skipEliminated (fuel : nat) (g : Game) : option (Game * bool) :=
  match fuel with
  | O => None
  | S fuel' =>
      if isPlayerEliminated g (getCurrentPlayer g) && bool_decide (status g = Active)
      then
        let g1 := set_currentPlayerIndex
                    ((currentPlayerIndex g + 1) `mod` length (playerOrder g))%nat g in
        if (currentPlayerIndex g1 =? 0)%nat then
          match checkForWinner g1 with
          | Some w =>
              if truthy w then Some (endGame (Some w) g1, true)
              else if (length (activePlayers g1) =? 0)%nat
                   then Some (endGame None g1, true)
                   else skipEliminated fuel' g1
          | None =>
              if (length (activePlayers g1) =? 0)%nat
              then Some (endGame None g1, true)
              else skipEliminated fuel' g1
          end
        else skipEliminated fuel' g1
      else Some (g, false)
  end.

(** [endTurn(playerId)]; [rnd] feeds the tie-breaks of the sort.  Past the
    turn check [playerOrder] is not empty, so the two [%] have a non-zero
    divisor.  The result is [None] only if the skip loop were to need more
    than [2 * playerOrder.length + 1] tests of its condition, which
    [endTurn_returns] shows never happens. *)
Definition endTurn (playerId : string) (rnd : list Z) (g : Game) : option (Game * Outcome) :=
  if bool_decide (getCurrentPlayer g ≠ Some playerId)
  then Some (g, Returned (failure "Not your turn."))
  else
    let g1 := set_currentPlayerIndex
                ((currentPlayerIndex g + 1) `mod` length (playerOrder g))%nat g in
    let g2 :=
      if (currentPlayerIndex g1 =? 0)%nat then
        let g1a := set_round (S (round g1)) g1 in
        let g1b := set_playerOrder
                     (arraySort (compareByCount g1a) (playerOrder g1a) rnd).1 g1a in
        set_currentPlayerIndex 0%nat g1b
      else g1 in
    match skipEliminated (2 * length (playerOrder g2) + 1) g2 with
    | None => None
    | Some (g3, true) =>
        Some (g3, Returned (mkResult true None (Some (getState g3))))
    | Some (g3, false) =>
        let g4 := resetTurnActions (getCurrentPlayer g3) g3 in
        Some (g4, Returned (mkResult true None (Some (getState g4))))
    end.

(** ** Joining and starting *)

(** [addPlayer(playerId)] *)
Definition addPlayer (playerId : string) (g : Game) : Game * Result :=
  if bool_decide (4 ≤ length (playerOrder g))%nat || negb (bool_decide (status g = Waiting))
  then (g, failure "Game full or already started.")
  else match players g !! playerId with
       | Some _ => (g, failure "Player already in game.")
       | None =>
           match availableEdges g with
           | [] => (g, failure "Internal error: No available edges.")
           | edge :: rest =>
               let g1 := set_availableEdges rest g in
               let g2 := set_players
                           (<[playerId := mkPlayer playerId edge [] 0%nat]> (players g1)) g1 in
               (set_playerOrder (playerOrder g2 ++ [playerId]) g2, mkResult true None None)
           end
       end.

(** [new Game(gameId, creatorId)] *)
Definition newGame (gameId creatorId : string) : Game :=
  (addPlayer creatorId
     (mkGame gameId ∅ emptyBoard [] 0%nat 1%nat
             [EdgeTop; EdgeBottom; EdgeLeft; EdgeRight] Waiting None ∅ [])).1.

(** [startGame()] *)
Definition startGame (rnd : list Z) (g : Game) : Game * bool :=
  if negb (bool_decide (status g = Waiting)) || bool_decide (length (playerOrder g) < 2)%nat
  then (g, false)
  else
    let g1 := set_status Active g in
    let g2 := set_playerOrder
                (arraySort (fun _ _ r => draw r) (playerOrder g1) rnd).1 g1 in
    let g3 := set_round 1%nat (set_currentPlayerIndex 0%nat g2) in
    (resetTurnActions None g3, true).

(** ** Leaving *)

(** Position of an edge in [["top", "bottom", "left", "right"]]. *)
Definition edgeIndex (e : Edge) : Z :=
  match e with
  | EdgeTop => 0
  | EdgeBottom => 1
  | EdgeLeft => 2
  | EdgeRight => 3
  end.

(** The blocks of [removePlayer], in the order of the source. *)

(** [this.availableEdges.push(edge); this.availableEdges.sort(...)] *)
Definition returnEdge (edge : Edge) (g : Game) : Game :=
  set_availableEdges
    (arraySort (fun a b r => (edgeIndex a - edgeIndex b, r))
               (availableEdges g ++ [edge]) []).1 g.

(** [monsters.forEach(monster => { if (this.board[monster.y]?.[monster.x]
    ?.owner === playerId) this.board[monster.y][monster.x] = null })] *)
Definition forfeitTokens (playerId : string) (ms : list loc) (g : Game) : Game :=
  foldl (fun ga l =>
           match objs ga !! l with
           | Some monster =>
               if bool_decide (m_owner <$> contentAt ga (m_x monster) (m_y monster)
                               = Some playerId)
               then set_board (setCell (m_x monster) (m_y monster) None (board ga)) ga
               else ga
           | None => ga
           end) g ms.

(** "Remove player from turn order" *)
Definition dropFromOrder (playerId : string) (g : Game) : Game :=
  match list_find (fun q => q = playerId) (playerOrder g) with
  | Some (playerIndex, _) =>
      let len := length (playerOrder g) in
      let ga :=
        if bool_decide (status g = Active) && (playerIndex =? currentPlayerIndex g)%nat
        then set_currentPlayerIndex
               (currentPlayerIndex g `mod` (if (1 <? len)%nat then len - 1 else 1))%nat g
        else g in
      let gb := set_playerOrder (delete playerIndex (playerOrder ga)) ga in
      if bool_decide (status gb = Active) && (playerIndex <? currentPlayerIndex gb)%nat
      then set_currentPlayerIndex (currentPlayerIndex gb - 1)%nat gb
      else gb
  | None => g
  end.

(** [delete this.players[playerId]; delete this.turnActions[playerId]] *)
Definition forgetPlayer (playerId : string) (g : Game) : Game :=
  set_turnActions (delete playerId (turnActions g))
                  (set_players (delete playerId (players g)) g).

(** "Adjust current player index if it becomes invalid" *)
Definition repairIndex (g : Game) : Game :=
  if bool_decide (status g = Active) && (0 <? length (playerOrder g))%nat
  then set_currentPlayerIndex (currentPlayerIndex g `mod` length (playerOrder g))%nat g
  else if (length (playerOrder g) =? 0)%nat
       then set_winner None (set_status Finished g)
       else g.

(** "If game was active, check for winner or end condition" *)
Definition settleAfterLeave (g : Game) : Game :=
  if bool_decide (status g = Active) then
    match checkForWinner g with
    | Some w =>
        if truthy w then endGame (Some w) g
        else if (length (playerOrder g) <? 2)%nat then endGame None g else g
    | None =>
        if (length (playerOrder g) <? 2)%nat then endGame None g else g
    end
  else g.

(** [removePlayer(playerId)] *)
Definition removePlayer (playerId : string) (g : Game) : Game :=
  match players g !! playerId with
  | None => g
  | Some player =>
      settleAfterLeave
        (repairIndex
           (forgetPlayer playerId
              (dropFromOrder playerId
                 (forfeitTokens playerId (p_monsters player)
                    (returnEdge (p_edge player) g)))))
  end.

(** ** Sessions that the operations can produce *)

(** One call of a public method. *)
Inductive Step : Game → Game → Prop :=
| step_addPlayer p g : Step g (addPlayer p g).1
| step_startGame rnd g : Step g (startGame rnd g).1
| step_placeMonster p type x y monsterId g : Step g (placeMonster p type x y monsterId g).1
| step_moveMonster p monsterId x y g : Step g (moveMonster p monsterId x y g).1
| step_endTurn p rnd g g' o : endTurn p rnd g = Some (g', o) → Step g g'
| step_removePlayer p g : Step g (removePlayer p g).

Inductive Reachable : Game → Prop :=
| reach_new gameId creatorId : Reachable (newGame gameId creatorId)
| reach_step g g' : Reachable g → Step g g' → Reachable g'.

(** Every monster object has one of the three types. *)
Definition typesValid (g : Game) : Prop :=
  Forall (fun m => m_type m ∈ validTypes) (objs g).

(** Every token seen through the board or through a roster has one of the
    three types. *)
Definition tokensTyped (g : Game) : Prop :=
  (∀ x y m, contentAt g x y = Some m → m_type m ∈ validTypes) ∧
  (∀ pid player l m,
     players g !! pid = Some player → l ∈ p_monsters player →
     objs g !! l = Some m → m_type m ∈ validTypes).

(** Order on live token counts, a player missing from [players] counting
    as [Infinity]. *)
Definition countLe (g : Game) (a b : string) : Prop :=
  match monsterCount g a, monsterCount g b with
  | Some n, Some m => (n ≤ m)%nat
  | _, None => True
  | None, Some _ => False
  end.

(** ** Properties kept by every session the operations can produce *)

(** The part of a player's record that never changes: id and edge. *)
Definition seat (pl : Player) : string * Edge := (p_id pl, p_edge pl).

(** The fixed order of the edges: top, bottom, left, right. *)
Definition edgeLe (a b : Edge) : Prop := edgeIndex a ≤ edgeIndex b.

(** Order, records and edges agree: [playerOrder] lists the keys of
    [players] once each, at most four; each record carries its key as id;
    no two players hold the same edge; [availableEdges] lists, once each
    and in the order top, bottom, left, right, the edges nobody holds. *)
Definition playersOk (g : Game) : Prop :=
  NoDup (playerOrder g) ∧
  (∀ p, p ∈ playerOrder g ↔ is_Some (players g !! p)) ∧
  (length (playerOrder g) ≤ 4)%nat ∧
  (∀ p pl, players g !! p = Some pl → p_id pl = p) ∧
  (∀ p q pl ql, players g !! p = Some pl → players g !! q = Some ql →
                p_edge pl = p_edge ql → p = q) ∧
  NoDup (availableEdges g) ∧
  (∀ e, e ∈ availableEdges g ↔ ∀ p pl, players g !! p = Some pl → p_edge pl ≠ e) ∧
  StronglySorted edgeLe (availableEdges g).

(** In an active session at least two players are in the order and the
    index points at one of them. *)
Definition turnOk (g : Game) : Prop :=
  status g = Active →
  (2 ≤ length (playerOrder g))%nat ∧
  (currentPlayerIndex g < length (playerOrder g))%nat.

(** The board is 10 rows of 10 cells. *)
Definition boardShape (g : Game) : Prop :=
  length (board g) = 10%nat ∧ Forall (fun row => length row = 10%nat) (board g).

(** Rosters and board agree in one direction: a roster holds objects of
    its player, placed within bounds; a token standing on a cell records
    the coordinates of that cell and is in the roster of its owner. *)
Definition tokensOk (g : Game) : Prop :=
  (∀ p pl l, players g !! p = Some pl → l ∈ p_monsters pl →
             ∃ m, objs g !! l = Some m ∧ m_owner m = p ∧
                  inBounds (m_x m) (m_y m) = true) ∧
  (∀ x y l, boardAt g x y = Some (Some l) →
            ∃ m pl, objs g !! l = Some m ∧ m_x m = x ∧ m_y m = y ∧
                    players g !! m_owner m = Some pl ∧ l ∈ p_monsters pl).

(** All of the above. *)
Definition sessionOk (g : Game) : Prop :=
  playersOk g ∧ turnOk g ∧ boardShape g ∧ tokensOk g.


(** ** The calls within one turn *)

(** A call that leaves the turn of [p] open: any call of the interface
    but an [endTurn] that succeeds and a [removePlayer] of [p]. *)
Inductive TurnStep (p : string) : Game → Game → Prop :=
| turn_addPlayer q g : TurnStep p g (addPlayer q g).1
| turn_startGame rnd g : TurnStep p g (startGame rnd g).1
| turn_placeMonster q type x y monsterId g :
    TurnStep p g (placeMonster q type x y monsterId g).1
| turn_moveMonster q monsterId x y g : TurnStep p g (moveMonster q monsterId x y g).1
| turn_endTurn_refused q rnd g g' r :
    endTurn q rnd g = Some (g', Returned r) → success r = false → TurnStep p g g'
| turn_removePlayer q g : q ≠ p → TurnStep p g (removePlayer q g).

(** Any number of such calls, one after the other. *)
Inductive SameTurn (p : string) : Game → Game → Prop :=
| same_turn_refl g : SameTurn p g g
| same_turn_step g g' g'' : SameTurn p g g' → TurnStep p g' g'' → SameTurn p g g''.

(** One turn record holds at least what another holds: the placed flag
    if it was set, and every id of the moved set. *)
Definition recordLe (a b : TurnAction) : Prop :=
  (placedMonster a = true → placedMonster b = true) ∧ movedMonsters a ⊆ movedMonsters b.

(** ** Sessions used as concrete inputs *)

Module Scenario.
(** Two players in the lobby: ["p1"] on the top edge, ["p2"] on the
    bottom edge; a third, ["p3"], on the left edge. *)
Definition lobby : Game := (addPlayer "p2" (newGame "g" "p1")).1.
Definition lobby3 : Game := (addPlayer "p3" lobby).1.

(** The started game; with no random draw below zero the order stays
    [["p1"; "p2"]]. *)
Definition started : Game := (startGame [] lobby).1.

(** ["p1"] has placed the vampire ["m1"] on (3,0) this turn. *)
Definition placed1 : Game := (placeMonster "p1" "vampire" 3 0 "m1" started).1.

(** ["p1"] ended the first turn without acting; ["p2"] placed a ghost. *)
Definition p2placed : Game :=
  match endTurn "p1" [] started with
  | Some (g, _) => (placeMonster "p2" "ghost" 4 9 "m1" g).1
  | None => started
  end.

(** ["p2"] then ends the turn, which closes round 1. *)
Definition round2 : Game :=
  match endTurn "p2" [] p2placed with
  | Some (g, _) => g
  | None => p2placed
  end.

(** Round 1 with one placement each: [t1] for ["p1"] on (5,0), [t2] for
    ["p2"] on (5,9); then round 2 begins with ["p1"] to act. *)
Definition faceOff (t1 t2 : string) : Game :=
  let a := (placeMonster "p1" t1 5 0 "m1" started).1 in
  match endTurn "p1" [] a with
  | Some (b, _) =>
      let c := (placeMonster "p2" t2 5 9 "m2" b).1 in
      match endTurn "p2" [] c with
      | Some (d, _) => d
      | None => c
      end
  | None => a
  end.

(** In round 2 ["p1"] also places a ghost next to its vampire. *)
Definition twoOwn : Game :=
  (placeMonster "p1" "ghost" 6 0 "m3" (faceOff "vampire" "werewolf")).1.

(** The token of ["p1"] (object 0) has just been written onto (5,9),
    the square of the token of ["p2"] (object 1). *)
Definition arrived (t1 t2 : string) : Game :=
  relocate 0%nat (mkMonster "m1" t1 5 0 "p1") 5 9 (faceOff t1 t2).


(** As [faceOff], with ["p2"] having lost nine tokens already. *)
Definition lastStand : Game :=
  let g := faceOff "vampire" "werewolf" in
  set_players (<["p2" := mkPlayer "p2" EdgeBottom [1%nat] 9]> (players g)) g.
End Scenario.

(** * Proofs *)

(** ** Field updates and small facts *)

Lemma getCurrentPlayer_Some (g : Game) (p : string) :
  getCurrentPlayer g = Some p →
  status g = Active ∧ playerOrder g !! currentPlayerIndex g = Some p.
Proof.
  unfold getCurrentPlayer.
  destruct (status g); try discriminate.
  destruct (playerOrder g) eqn:E; [discriminate | auto].
Qed.

Lemma getCurrentPlayer_other (g : Game) (p : string) :
  playerOrder g !! currentPlayerIndex g ≠ Some p → getCurrentPlayer g ≠ Some p.
Proof. intros Hne Hcur. apply getCurrentPlayer_Some in Hcur as [_ Hcur]. done. Qed.

Lemma status_endGame (w : option string) (g : Game) : status (endGame w g) = Finished.
Proof. unfold endGame. by destruct (status g) eqn:E. Qed.

Lemma endGame_keeps (w : option string) (g : Game) :
  round (endGame w g) = round g ∧ playerOrder (endGame w g) = playerOrder g ∧
  players (endGame w g) = players g ∧ turnActions (endGame w g) = turnActions g.
Proof. unfold endGame. by destruct (status g). Qed.

(** ** Turn safety *)

(** C5: a place, move or end-turn call by a player who is not
    [playerOrder[currentPlayerIndex]] returns the failure "Not your turn."
    and returns the session exactly as it was. *)
Theorem not_your_turn_no_effect (g : Game) (p : string) :
  playerOrder g !! currentPlayerIndex g ≠ Some p →
  (∀ type x y monsterId,
     placeMonster p type x y monsterId g = (g, Returned (failure "Not your turn."))) ∧
  (∀ monsterId x y,
     moveMonster p monsterId x y g = (g, Returned (failure "Not your turn."))) ∧
  (∀ rnd, endTurn p rnd g = Some (g, Returned (failure "Not your turn."))).
Proof.
  intros Hne. apply getCurrentPlayer_other in Hne.
  repeat split; intros.
  - unfold placeMonster. by rewrite bool_decide_eq_true_2.
  - unfold moveMonster. by rewrite bool_decide_eq_true_2.
  - unfold endTurn. by rewrite bool_decide_eq_true_2.
Qed.

Lemma not_your_turn_no_effect_witness :
  placeMonster "p2" "ghost" 0 9 "m1" Scenario.started
    = (Scenario.started, Returned (failure "Not your turn.")) ∧
  moveMonster "p2" "m1" 0 8 Scenario.started
    = (Scenario.started, Returned (failure "Not your turn.")) ∧
  endTurn "p2" [] Scenario.started
    = Some (Scenario.started, Returned (failure "Not your turn.")).
Proof.
  assert (H : playerOrder Scenario.started !! currentPlayerIndex Scenario.started
              ≠ Some "p2") by (vm_compute; discriminate).
  destruct (not_your_turn_no_effect Scenario.started "p2" H) as (Hp & Hm & He).
  split; [apply Hp | split; [apply Hm | apply He]].
Defined.

(** ** Ending the game *)

(** C8: [endGame] on a session that is not finished sets the status to
    finished and stores the given winner ([None] for a draw or abort),
    changing nothing else, and the snapshot shows both; on a finished
    session it changes nothing, so a second call, whatever winner it is
    given, leaves the status, the winner and the [getState] snapshot as
    the first call left them. *)
Theorem endGame_idempotent (g : Game) (w w' : option string) :
  (status g ≠ Finished →
   status (endGame w g) = Finished ∧ winner (endGame w g) = w ∧
   s_status (getState (endGame w g)) = Finished ∧
   s_winner (getState (endGame w g)) = w ∧
   g_id (endGame w g) = g_id g ∧ players (endGame w g) = players g ∧
   board (endGame w g) = board g ∧ playerOrder (endGame w g) = playerOrder g ∧
   currentPlayerIndex (endGame w g) = currentPlayerIndex g ∧
   round (endGame w g) = round g ∧ availableEdges (endGame w g) = availableEdges g ∧
   turnActions (endGame w g) = turnActions g ∧ objs (endGame w g) = objs g ∧
   endGame w g = set_winner w (set_status Finished g)) ∧
  (status g = Finished → endGame w g = g) ∧
  status (endGame w g) = Finished ∧
  endGame w' (endGame w g) = endGame w g ∧
  status (endGame w' (endGame w g)) = status (endGame w g) ∧
  winner (endGame w' (endGame w g)) = winner (endGame w g) ∧
  getState (endGame w' (endGame w g)) = getState (endGame w g).
Proof.
  assert (Hfin : status (endGame w g) = Finished)
    by (unfold endGame; destruct (status g) eqn:E; done).
  assert (Hid : endGame w' (endGame w g) = endGame w g)
    by (unfold endGame at 1; by rewrite Hfin).
  split_and!; try done.
  - intros Hs. unfold endGame. by destruct (status g).
  - intros Hs. unfold endGame. by rewrite Hs.
  - by rewrite Hid.
  - by rewrite Hid.
  - by rewrite Hid.
Qed.

Lemma endGame_idempotent_witness :
  status (endGame (Some "p1") Scenario.started) = Finished ∧
  winner (endGame (Some "p1") Scenario.started) = Some "p1" ∧
  endGame (Some "p2") (endGame (Some "p1") Scenario.started)
    = endGame (Some "p1") Scenario.started ∧
  winner (endGame (Some "p2") (endGame (Some "p1") Scenario.started)) = Some "p1".
Proof.
  destruct (endGame_idempotent Scenario.started (Some "p1") (Some "p2"))
    as (Hfirst & _ & _ & Hagain & _ & Hwinner & _).
  destruct Hfirst as (Hst & Hw & _); [vm_compute; discriminate|].
  split_and!; [done | done | done |]. by rewrite Hwinner.
Defined.

(** ** Placement on the corner *)

Lemma isValidPlacement_spec (g : Game) (p : string) (x y : Z) :
  isValidPlacement g p x y = true ↔
  ∃ player, players g !! p = Some player ∧ inBounds x y = true ∧
            boardAt g x y = Some None ∧ edgeClaims (p_edge player) x y = true.
Proof.
  unfold isValidPlacement. split.
  - destruct (players g !! p) as [player|]; [|discriminate].
    destruct (inBounds x y); [|discriminate]. simpl.
    destruct (boardAt g x y) as [[l|]|]; try discriminate.
    intros Hedge. by exists player.
  - intros (player & -> & -> & -> & Hedge). done.
Qed.

(** C7, as the code has it: two edge predicates, top and left, claim the
    corner (0,0); placement there is valid exactly for a player of the
    session whose edge is top or left, when the cell holds [null]. *)
Theorem corner_placement (g : Game) (p : string) :
  (∀ e, edgeClaims e 0 0 = true ↔ e = EdgeTop ∨ e = EdgeLeft) ∧
  (isValidPlacement g p 0 0 = true ↔
   ∃ player, players g !! p = Some player ∧
             (p_edge player = EdgeTop ∨ p_edge player = EdgeLeft) ∧
             boardAt g 0 0 = Some None).
Proof.
  assert (Hedges : ∀ e, edgeClaims e 0 0 = true ↔ e = EdgeTop ∨ e = EdgeLeft).
  { intros []; simpl; split; intros H; auto; try discriminate;
      destruct H; discriminate. }
  split; [exact Hedges|].
  rewrite isValidPlacement_spec. split.
  - intros (player & Hp & _ & Hcell & Hedge). exists player. by rewrite <- Hedges.
  - intros (player & Hp & Hedge & Hcell). exists player. by rewrite Hedges.
Qed.

(** C7, as stated, fails: in a lobby with a top player ["p1"] and a left
    player ["p3"], both may place on the empty corner, and no edge is the
    only one to claim it. *)
Lemma corner_claimed_twice :
  (p_edge <$> players Scenario.lobby3 !! "p1") = Some EdgeTop ∧
  (p_edge <$> players Scenario.lobby3 !! "p3") = Some EdgeLeft ∧
  isValidPlacement Scenario.lobby3 "p1" 0 0 = true ∧
  isValidPlacement Scenario.lobby3 "p3" 0 0 = true ∧
  ¬ (∃ e, edgeClaims e 0 0 = true ∧ ∀ e', edgeClaims e' 0 0 = true → e' = e).
Proof.
  split_and!; try (vm_compute; reflexivity).
  intros (e & _ & Honly).
  pose proof (Honly EdgeTop eq_refl) as Ht.
  pose proof (Honly EdgeLeft eq_refl) as Hl.
  congruence.
Qed.

(** ** Monster types *)

Lemma objs_endGame (w : option string) (g : Game) : objs (endGame w g) = objs g.
Proof. unfold endGame. by destruct (status g). Qed.

Lemma objs_removeMonster (monsterId ownerId : string) (g : Game) :
  objs (removeMonster monsterId ownerId g) = objs g.
Proof. unfold removeMonster. repeat case_match; done. Qed.

Lemma objs_handleConflict (x y : Z) (p : string) (e : option loc) (g : Game) :
  objs (handleConflict x y p e g) = objs g.
Proof.
  unfold handleConflict.
  repeat case_match; rewrite ?objs_removeMonster; done.
Qed.

Lemma objs_settleWinner (g : Game) : objs (settleWinner g) = objs g.
Proof. unfold settleWinner. repeat case_match; rewrite ?objs_endGame; done. Qed.

Lemma objs_resetTurnActions (p : option string) (g : Game) :
  objs (resetTurnActions p g) = objs g.
Proof. unfold resetTurnActions. repeat case_match; done. Qed.

Lemma objs_skipEliminated (fuel : nat) (g g' : Game) (b : bool) :
  skipEliminated fuel g = Some (g', b) → objs g' = objs g.
Proof.
  revert g. induction fuel as [|fuel IH]; intros g; simpl; [discriminate|].
  repeat case_match; intros Hskip; simplify_eq; rewrite ?objs_endGame; try done;
    by apply IH in Hskip.
Qed.

Lemma objs_endTurn (p : string) (rnd : list Z) (g g' : Game) (o : Outcome) :
  endTurn p rnd g = Some (g', o) → objs g' = objs g.
Proof.
  unfold endTurn.
  repeat case_match; intros Hret; simplify_eq; try done;
    match goal with
    | Hs : skipEliminated _ _ = Some _ |- _ =>
        apply objs_skipEliminated in Hs; rewrite ?objs_resetTurnActions, Hs
    end; repeat case_match; done.
Qed.

Lemma objs_forfeitTokens (p : string) (ms : list loc) (g : Game) :
  objs (forfeitTokens p ms g) = objs g.
Proof.
  unfold forfeitTokens. revert g.
  induction ms as [|l ms IH]; intros g; simpl; [done|].
  rewrite IH. repeat case_match; done.
Qed.

Lemma objs_dropFromOrder (p : string) (g : Game) : objs (dropFromOrder p g) = objs g.
Proof. unfold dropFromOrder. repeat case_match; done. Qed.

Lemma objs_repairIndex (g : Game) : objs (repairIndex g) = objs g.
Proof. unfold repairIndex. repeat case_match; done. Qed.

Lemma objs_settleAfterLeave (g : Game) : objs (settleAfterLeave g) = objs g.
Proof. unfold settleAfterLeave. repeat case_match; rewrite ?objs_endGame; done. Qed.

Lemma objs_removePlayer (p : string) (g : Game) : objs (removePlayer p g) = objs g.
Proof.
  unfold removePlayer. destruct (players g !! p) as [player|]; [|done].
  rewrite objs_settleAfterLeave, objs_repairIndex. unfold forgetPlayer. simpl.
  by rewrite objs_dropFromOrder, objs_forfeitTokens.
Qed.

Lemma typesValid_placeMonster (p type : string) (x y : Z) (monsterId : string) (g : Game) :
  typesValid g → typesValid (placeMonster p type x y monsterId g).1.
Proof.
  unfold typesValid, placeMonster. intros Hg.
  assert (Hnew : negb (bool_decide (type ∈ validTypes)) = false →
                 Forall (fun m => m_type m ∈ validTypes)
                        (objs g ++ [mkMonster monsterId type x y p])).
  { intros Hty. apply negb_false_iff, bool_decide_eq_true in Hty.
    apply Forall_app. split; [done|]. by apply Forall_singleton. }
  repeat case_match; simpl; try done; by apply Hnew.
Qed.

Lemma typesValid_moveMonster (p monsterId : string) (x y : Z) (g : Game) :
  typesValid g → typesValid (moveMonster p monsterId x y g).1.
Proof.
  unfold typesValid, moveMonster. intros Hg.
  assert (Hrel : ∀ l monster, objs g !! l = Some monster →
                 Forall (fun m => m_type m ∈ validTypes) (objs (relocate l monster x y g))).
  { intros l monster Hl. unfold relocate. simpl.
    apply Forall_insert; [done|]. simpl.
    by apply (Forall_lookup_1 _ _ _ _ Hg Hl). }
  repeat case_match; simpl; try done;
    rewrite ?objs_settleWinner, ?objs_handleConflict; simpl; try done;
    by apply Hrel.
Qed.

Lemma typesValid_step (g g' : Game) : Step g g' → typesValid g → typesValid g'.
Proof.
  intros Hstep Hg. destruct Hstep.
  - unfold typesValid, addPlayer in *. repeat case_match; done.
  - unfold typesValid, startGame in *. repeat case_match; done.
  - by apply typesValid_placeMonster.
  - by apply typesValid_moveMonster.
  - unfold typesValid in *. by erewrite objs_endTurn.
  - unfold typesValid in *. by rewrite objs_removePlayer.
Qed.

Lemma typesValid_reachable (g : Game) : Reachable g → typesValid g.
Proof.
  induction 1 as [gameId creatorId | g g' _ IH Hstep].
  - unfold typesValid, newGame, addPlayer. simpl. constructor.
  - by apply (typesValid_step g g').
Qed.

Lemma typesValid_tokensTyped (g : Game) : typesValid g → tokensTyped g.
Proof.
  unfold typesValid, tokensTyped. intros Hg. split.
  - intros x y m. unfold contentAt. repeat case_match; try discriminate.
    intros Hl. by apply (Forall_lookup_1 _ _ _ _ Hg Hl).
  - intros pid player l m _ _ Hl. by apply (Forall_lookup_1 _ _ _ _ Hg Hl).
Qed.

(** C10, as the code has it: a call of [placeMonster] by the current
    player with a type outside the three names always fails and returns
    the session as it was; the reason is "Invalid monster type." unless
    the player has already placed a monster this turn, when it is "You
    have already placed a monster this turn.".  Every token of a session
    the operations can produce, on the board or in a roster, has one of
    the three types. *)
Theorem placeMonster_rejects_unknown_type :
  (∀ g p type x y monsterId,
     getCurrentPlayer g = Some p → type ∉ validTypes →
     placeMonster p type x y monsterId g =
       (g, Returned (failure
                       (if default false (placedMonster <$> turnActions g !! p)
                        then "You have already placed a monster this turn."
                        else "Invalid monster type.")))) ∧
  (∀ g, Reachable g → typesValid g ∧ tokensTyped g).
Proof.
  split.
  - intros g p type x y monsterId Hcur Htype. unfold placeMonster.
    rewrite bool_decide_eq_false_2 by (rewrite Hcur; intros H; by apply H).
    destruct (default false (placedMonster <$> turnActions g !! p)); [done|].
    by rewrite bool_decide_eq_false_2.
  - intros g Hg. apply typesValid_reachable in Hg.
    split; [done | by apply typesValid_tokensTyped].
Qed.

Lemma placeMonster_rejects_unknown_type_witness :
  placeMonster "p1" "zombie" 4 0 "m2" Scenario.started
    = (Scenario.started, Returned (failure "Invalid monster type.")) ∧
  typesValid Scenario.placed1.
Proof.
  destruct placeMonster_rejects_unknown_type as (Hreject & Htyped).
  split.
  - apply (Hreject Scenario.started "p1" "zombie" 4 0 "m2").
    + reflexivity.
    + vm_compute. intros H. repeat (apply elem_of_cons in H as [H|H]; [discriminate|]).
      by apply elem_of_nil in H.
  - apply Htyped.
    apply (reach_step Scenario.started); [|apply step_placeMonster].
    apply (reach_step Scenario.lobby); [|apply step_startGame].
    apply (reach_step (newGame "g" "p1")); [|apply step_addPlayer].
    apply reach_new.
Defined.

(** C10, as stated, fails: once ["p1"] has placed a monster this turn, a
    further call with the unknown type ["zombie"] is turned down for the
    earlier placement, not for its type. *)
Lemma unknown_type_other_reason :
  getCurrentPlayer Scenario.placed1 = Some "p1" ∧
  ("zombie" ∉ validTypes) ∧
  placeMonster "p1" "zombie" 4 0 "m2" Scenario.placed1
    = (Scenario.placed1,
       Returned (failure "You have already placed a monster this turn.")) ∧
  (placeMonster "p1" "zombie" 4 0 "m2" Scenario.placed1).2
    ≠ Returned (failure "Invalid monster type.").
Proof.
  split_and!; try (vm_compute; reflexivity).
  - intros H. repeat (apply elem_of_cons in H as [H|H]; [discriminate|]).
    by apply elem_of_nil in H.
  - vm_compute. discriminate.
Qed.

(** ** Elimination and the winner *)

Lemma isPlayerEliminated_iff (g : Game) (q : string) (pl : Player) :
  players g !! q = Some pl →
  isPlayerEliminated g (Some q) = true ↔ (10 ≤ p_monstersLost pl)%nat.
Proof.
  intros Hq. unfold isPlayerEliminated. rewrite Hq.
  apply bool_decide_eq_true.
Qed.

Lemma findMonster_object (g : Game) (ms : list loc) (monsterId : string) (i : nat) (l : loc) :
  findMonster g ms monsterId = Some (i, l) →
  ∃ m, objs g !! l = Some m ∧ m_id m = monsterId ∧ ms !! i = Some l.
Proof.
  unfold findMonster. intros Hfind.
  apply list_find_Some in Hfind as (Hi & Hid & _).
  destruct (objs g !! l) as [m|]; [|discriminate].
  exists m. repeat split; [|done]. by inversion Hid.
Qed.

(** What a removal that finds its monster changes. *)
Lemma removeMonster_found (g : Game) (monsterId ownerId : string)
      (player : Player) (i : nat) (l : loc) :
  players g !! ownerId = Some player →
  findMonster g (p_monsters player) monsterId = Some (i, l) →
  players (removeMonster monsterId ownerId g)
    = <[ownerId := mkPlayer (p_id player) (p_edge player)
                            (delete i (p_monsters player))
                            (S (p_monstersLost player))]> (players g) ∧
  playerOrder (removeMonster monsterId ownerId g) = playerOrder g ∧
  status (removeMonster monsterId ownerId g) = status g.
Proof.
  intros Hp Hfind.
  destruct (findMonster_object _ _ _ _ _ Hfind) as (m & Hm & _).
  unfold removeMonster. rewrite Hp, Hfind, Hm.
  case_bool_decide; done.
Qed.

Lemma status_removeMonster (monsterId ownerId : string) (g : Game) :
  status (removeMonster monsterId ownerId g) = status g.
Proof. unfold removeMonster. repeat case_match; done. Qed.

Lemma status_handleConflict (x y : Z) (p : string) (e : option loc) (g : Game) :
  status (handleConflict x y p e g) = status g.
Proof.
  unfold handleConflict.
  repeat case_match; rewrite ?status_removeMonster; done.
Qed.

Lemma checkForWinner_sole (g : Game) (w : string) :
  activePlayers g = [w] → (1 < length (playerOrder g))%nat → checkForWinner g = Some w.
Proof.
  intros Hact Hlen. unfold checkForWinner. rewrite Hact.
  by rewrite bool_decide_eq_true_2.
Qed.

Lemma settleWinner_finishes (g : Game) (w : string) :
  status g = Active → checkForWinner g = Some w → w ≠ "" →
  settleWinner g = set_winner (Some w) (set_status Finished g).
Proof.
  intros Hst Hw Hne. unfold settleWinner, truthy, endGame. rewrite Hw, Hst.
  destruct (String.eqb_spec w ""); done.
Qed.

(** A successful move ends with the winner check, on an active session. *)
Lemma moveMonster_checks_winner (p monsterId : string) (x y : Z) (g g' : Game) (r : Result) :
  moveMonster p monsterId x y g = (g', Returned r) → success r = true →
  ∃ g5, status g5 = Active ∧ g' = settleWinner g5.
Proof.
  unfold moveMonster.
  case_bool_decide as Hcur; [intros; by simplify_eq|].
  assert (Hst : status g = Active).
  { destruct (decide (getCurrentPlayer g = Some p)) as [Hc|Hc]; [|by destruct Hcur].
    by apply getCurrentPlayer_Some in Hc as [? _]. }
  repeat case_match; intros Hret Hok; simplify_eq; try done;
    eexists; (split; [|reflexivity]);
    rewrite ?status_handleConflict; exact Hst.
Qed.

Lemma activePlayers_same (g g' : Game) :
  players g' = players g → playerOrder g' = playerOrder g →
  activePlayers g' = activePlayers g.
Proof.
  intros Hp Ho. unfold activePlayers, isPlayerEliminated. by rewrite Hp, Ho.
Qed.

Lemma checkForWinner_same (g g' : Game) :
  players g' = players g → playerOrder g' = playerOrder g →
  checkForWinner g' = checkForWinner g.
Proof.
  intros Hp Ho. unfold checkForWinner. by rewrite (activePlayers_same g g'), Ho.
Qed.

Lemma settleWinner_keeps (g : Game) :
  players (settleWinner g) = players g ∧ playerOrder (settleWinner g) = playerOrder g.
Proof.
  unfold settleWinner.
  repeat case_match; try done; by destruct (endGame_keeps (Some s) g) as (_ & -> & -> & _).
Qed.

(** A successful move after which one player of several is left not
    eliminated finishes the session with that player as winner. *)
Lemma moveMonster_declares_winner
      (p monsterId : string) (x y : Z) (g g' : Game) (r : Result) (w : string) :
  moveMonster p monsterId x y g = (g', Returned r) → success r = true →
  activePlayers g' = [w] → (1 < length (playerOrder g'))%nat → w ≠ "" →
  status g' = Finished ∧ winner g' = Some w.
Proof.
  intros Hmove Hok Hact Hlen Hne.
  destruct (moveMonster_checks_winner _ _ _ _ _ _ _ Hmove Hok) as (g5 & Hst & ->).
  destruct (settleWinner_keeps g5) as [Hp Ho].
  rewrite (activePlayers_same g5) in Hact by done. rewrite Ho in Hlen.
  by rewrite (settleWinner_finishes g5 w Hst (checkForWinner_sole g5 w Hact Hlen) Hne).
Qed.

Lemma status_forfeitTokens (p : string) (ms : list loc) (g : Game) :
  status (forfeitTokens p ms g) = status g.
Proof.
  unfold forfeitTokens. revert g.
  induction ms as [|l ms IH]; intros g; simpl; [done|].
  rewrite IH. repeat case_match; done.
Qed.

Lemma status_dropFromOrder (p : string) (g : Game) :
  status (dropFromOrder p g) = status g.
Proof. unfold dropFromOrder. repeat case_match; done. Qed.

Lemma settleAfterLeave_keeps (g : Game) :
  players (settleAfterLeave g) = players g ∧
  playerOrder (settleAfterLeave g) = playerOrder g.
Proof.
  unfold settleAfterLeave.
  repeat case_match; try done;
    match goal with
    | |- context [endGame ?w ?ga] => by destruct (endGame_keeps w ga) as (_ & -> & -> & _)
    end.
Qed.

Lemma repairIndex_keeps (g : Game) :
  players (repairIndex g) = players g ∧ playerOrder (repairIndex g) = playerOrder g ∧
  (status g = Active → (0 < length (playerOrder g))%nat → status (repairIndex g) = Active).
Proof.
  unfold repairIndex.
  destruct (bool_decide (status g = Active)) eqn:Hst;
    destruct (Nat.ltb_spec 0 (length (playerOrder g))); simpl; try done.
  - repeat case_match; split_and!; try done; lia.
  - apply bool_decide_eq_false in Hst. repeat case_match; split_and!; try done.
  - repeat case_match; split_and!; try done; lia.
Qed.

(** Removing a player from an active session after which one player of
    several is left not eliminated finishes the session with that player
    as winner. *)
Lemma removePlayer_declares_winner (p : string) (g : Game) (w : string) :
  status g = Active → is_Some (players g !! p) →
  activePlayers (removePlayer p g) = [w] →
  (1 < length (playerOrder (removePlayer p g)))%nat → w ≠ "" →
  status (removePlayer p g) = Finished ∧ winner (removePlayer p g) = Some w.
Proof.
  intros Hst [player Hp]. unfold removePlayer. rewrite Hp.
  set (g4 := forgetPlayer p _).
  assert (Hst4 : status g4 = Active).
  { subst g4. unfold forgetPlayer. simpl.
    by rewrite status_dropFromOrder, status_forfeitTokens. }
  destruct (repairIndex_keeps g4) as (Hp5 & Ho5 & Hst5).
  destruct (settleAfterLeave_keeps (repairIndex g4)) as [Hp6 Ho6].
  intros Hact Hlen Hne.
  rewrite (activePlayers_same (repairIndex g4)) in Hact by done.
  rewrite Ho6 in Hlen.
  assert (Hactive : status (repairIndex g4) = Active)
    by (apply Hst5; [done | rewrite <- Ho5; lia]).
  unfold settleAfterLeave. rewrite bool_decide_eq_true_2 by done.
  rewrite (checkForWinner_sole _ w Hact Hlen).
  unfold truthy, endGame. rewrite Hactive.
  destruct (String.eqb_spec w ""); done.
Qed.

(** C9: a player of the session is eliminated exactly when the loss count
    is at least 10.  When removing a token takes its owner from 9 losses
    to 10 and one player of [playerOrder] (of length above 1) is left not
    eliminated, [checkForWinner] returns that player, and the check that
    follows a move ([settleWinner]) finishes the session with that player
    as winner.  Every successful move, and every player removal from an
    active session, that leaves one player of several not eliminated ends
    with the session finished and that player recorded as winner. *)
Theorem elimination_declares_winner
        (g : Game) (monsterId ownerId w : string) (player : Player) :
  players g !! ownerId = Some player →
  p_monstersLost player = 9%nat →
  is_Some (findMonster g (p_monsters player) monsterId) →
  status g = Active →
  activePlayers (removeMonster monsterId ownerId g) = [w] →
  (1 < length (playerOrder g))%nat →
  w ≠ "" →
  let g' := removeMonster monsterId ownerId g in
  (∀ q pl, players g' !! q = Some pl →
           isPlayerEliminated g' (Some q) = true ↔ (10 ≤ p_monstersLost pl)%nat) ∧
  isPlayerEliminated g (Some ownerId) = false ∧
  (p_monstersLost <$> players g' !! ownerId) = Some 10%nat ∧
  isPlayerEliminated g' (Some ownerId) = true ∧
  checkForWinner g' = Some w ∧
  status (settleWinner g') = Finished ∧
  winner (settleWinner g') = Some w ∧
  (∀ p mid x y g0 g1 r w0,
     moveMonster p mid x y g0 = (g1, Returned r) → success r = true →
     activePlayers g1 = [w0] → (1 < length (playerOrder g1))%nat → w0 ≠ "" →
     status g1 = Finished ∧ winner g1 = Some w0) ∧
  (∀ p g0 w0,
     status g0 = Active → is_Some (players g0 !! p) →
     activePlayers (removePlayer p g0) = [w0] →
     (1 < length (playerOrder (removePlayer p g0)))%nat → w0 ≠ "" →
     status (removePlayer p g0) = Finished ∧ winner (removePlayer p g0) = Some w0).
Proof.
  intros Hp Hlost [[i l] Hfind] Hst Hact Hlen Hne g'.
  destruct (removeMonster_found g monsterId ownerId player i l Hp Hfind)
    as (Hplayers & Horder & Hstatus).
  assert (Hown : players g' !! ownerId
                 = Some (mkPlayer (p_id player) (p_edge player)
                                  (delete i (p_monsters player)) 10)).
  { subst g'. rewrite Hplayers, lookup_insert_eq. by rewrite Hlost. }
  assert (Hw : checkForWinner g' = Some w).
  { apply checkForWinner_sole; [done|]. subst g'. by rewrite Horder. }
  assert (Hsettle : settleWinner g' = set_winner (Some w) (set_status Finished g')).
  { apply settleWinner_finishes; try done. subst g'. by rewrite Hstatus. }
  split_and!.
  - intros q pl Hq. by apply isPlayerEliminated_iff.
  - unfold isPlayerEliminated. rewrite Hp, Hlost. by apply bool_decide_eq_false_2; lia.
  - by rewrite Hown.
  - unfold isPlayerEliminated. by rewrite Hown.
  - done.
  - by rewrite Hsettle.
  - by rewrite Hsettle.
  - intros p mid x y g0 g1 r w0. apply moveMonster_declares_winner.
  - intros p g0 w0. apply removePlayer_declares_winner.
Qed.

Lemma elimination_declares_winner_witness :
  checkForWinner (removeMonster "m2" "p2" Scenario.lastStand) = Some "p1" ∧
  status (settleWinner (removeMonster "m2" "p2" Scenario.lastStand)) = Finished ∧
  winner (settleWinner (removeMonster "m2" "p2" Scenario.lastStand)) = Some "p1".
Proof.
  assert (Hfind : is_Some (findMonster Scenario.lastStand [1%nat] "m2"))
    by (exists (0%nat, 1%nat); vm_compute; reflexivity).
  destruct (elimination_declares_winner Scenario.lastStand "m2" "p2" "p1"
              (mkPlayer "p2" EdgeBottom [1%nat] 9))
    as (_ & _ & _ & _ & Hw & Hst & Hwin & _).
  - vm_compute; reflexivity.
  - reflexivity.
  - exact Hfind.
  - vm_compute; reflexivity.
  - vm_compute; reflexivity.
  - vm_compute; lia.
  - discriminate.
  - auto.
Defined.

(** ** The sort *)

Section ArraySortFacts.
Context {A : Type} (cmp : A → A → list Z → Z * list Z).

Lemma sortInsert_perm (a : A) (l : list A) (rnd : list Z) :
  (sortInsert cmp a l rnd).1 ≡ₚ a :: l.
Proof.
  revert rnd. induction l as [|b l IH]; intros rnd; simpl; [done|].
  destruct (cmp a b rnd) as [c rnd1].
  destruct (c <=? 0); [done|].
  specialize (IH rnd1). destruct (sortInsert cmp a l rnd1) as [r rnd2].
  simpl in *. rewrite IH. apply Permutation_swap.
Qed.

Lemma arraySort_perm (l : list A) (rnd : list Z) :
  (arraySort cmp l rnd).1 ≡ₚ l.
Proof.
  induction l as [|a l IH]; simpl; [done|].
  destruct (arraySort cmp l rnd) as [s rnd1]. simpl in IH.
  by rewrite sortInsert_perm, IH.
Qed.

(** The comparator answers according to a transitive order [R], whatever
    it draws: a result at most 0 only when [R a b], above 0 only when
    [R b a]. *)
Context (R : A → A → Prop) `{!Transitive R}.
Hypothesis cmp_le : ∀ a b rnd, (cmp a b rnd).1 ≤ 0 → R a b.
Hypothesis cmp_gt : ∀ a b rnd, 0 < (cmp a b rnd).1 → R b a.

Lemma sortInsert_sorted (a : A) (l : list A) (rnd : list Z) :
  StronglySorted R l → StronglySorted R (sortInsert cmp a l rnd).1.
Proof.
  revert rnd. induction l as [|b l IH]; intros rnd Hl; simpl.
  - repeat constructor.
  - apply StronglySorted_inv in Hl as [Hl Hb].
    pose proof (cmp_le a b rnd) as Hle. pose proof (cmp_gt a b rnd) as Hgt.
    destruct (cmp a b rnd) as [c rnd1]. simpl in Hle, Hgt.
    destruct (Z.leb_spec c 0) as [Hc|Hc].
    + simpl. constructor; [by constructor|].
      constructor; [by apply Hle|].
      eapply Forall_impl; [exact Hb|]. intros x Hx. simpl in Hx.
      transitivity b; [by apply Hle | done].
    + pose proof (sortInsert_perm a l rnd1) as Hperm.
      specialize (IH rnd1 Hl).
      destruct (sortInsert cmp a l rnd1) as [r rnd2]. simpl in *.
      constructor; [done|].
      rewrite Hperm. constructor; [by apply Hgt | done].
Qed.

Lemma arraySort_sorted (l : list A) (rnd : list Z) :
  StronglySorted R (arraySort cmp l rnd).1.
Proof.
  induction l as [|a l IH]; simpl; [constructor|].
  destruct (arraySort cmp l rnd) as [s rnd1]. simpl in IH.
  by apply sortInsert_sorted.
Qed.
End ArraySortFacts.

#[local] Instance countLe_trans (g : Game) : Transitive (countLe g).
Proof.
  intros a b c. unfold countLe.
  destruct (monsterCount g a), (monsterCount g b), (monsterCount g c); try done.
  lia.
Qed.

Lemma compareByCount_le (g : Game) (a b : string) (rnd : list Z) :
  (compareByCount g a b rnd).1 ≤ 0 → countLe g a b.
Proof.
  unfold compareByCount, countLe.
  case_bool_decide as Heq.
  - rewrite Heq. by destruct (monsterCount g b).
  - destruct (monsterCount g a), (monsterCount g b); simpl; try done; lia.
Qed.

Lemma compareByCount_gt (g : Game) (a b : string) (rnd : list Z) :
  0 < (compareByCount g a b rnd).1 → countLe g b a.
Proof.
  unfold compareByCount, countLe.
  case_bool_decide as Heq.
  - rewrite Heq. by destruct (monsterCount g b).
  - destruct (monsterCount g a), (monsterCount g b); simpl; try done; lia.
Qed.

(** ** The skip loop and the end of a turn *)

(** The loop touches [currentPlayerIndex], and [status] and [winner] when
    it returns; it leaves with [true] only on a finished session and with
    [false] only when its condition is false. *)
Lemma skipEliminated_keeps (fuel : nat) (g g' : Game) (b : bool) :
  skipEliminated fuel g = Some (g', b) →
  round g' = round g ∧ playerOrder g' = playerOrder g ∧
  players g' = players g ∧ turnActions g' = turnActions g ∧
  (if b then status g' = Finished
   else isPlayerEliminated g' (getCurrentPlayer g') && bool_decide (status g' = Active)
        = false).
Proof.
  revert g. induction fuel as [|fuel IH]; intros g; simpl; [discriminate|].
  destruct (isPlayerEliminated g (getCurrentPlayer g) && bool_decide (status g = Active))
    eqn:Hcond; [|intros Hret; by simplify_eq].
  set (g1 := set_currentPlayerIndex _ g).
  assert (Hrec : skipEliminated fuel g1 = Some (g', b) →
                 round g' = round g ∧ playerOrder g' = playerOrder g ∧
                 players g' = players g ∧ turnActions g' = turnActions g ∧
                 (if b then status g' = Finished
                  else isPlayerEliminated g' (getCurrentPlayer g')
                       && bool_decide (status g' = Active) = false))
    by (intros Hskip; by apply IH in Hskip).
  repeat case_match; intros Hret; simplify_eq; try (by apply Hrec);
    match goal with
    | |- context [endGame ?w ?ga] =>
        destruct (endGame_keeps w ga) as (Hr & Ho & Hp & Ht);
        rewrite Hr, Ho, Hp, Ht, status_endGame
    end; done.
Qed.

Lemma isPlayerEliminated_players (g g' : Game) (q : option string) :
  players g' = players g → isPlayerEliminated g' q = isPlayerEliminated g q.
Proof. intros Hp. unfold isPlayerEliminated. by rewrite Hp. Qed.

(** From the current index on, a player who is not eliminated stands at
    position [j]: the loop stops there at the latest. *)
Lemma skipEliminated_stops (fuel : nat) (g : Game) (j : nat) (q : string) :
  status g = Active →
  playerOrder g !! j = Some q → isPlayerEliminated g (Some q) = false →
  (currentPlayerIndex g ≤ j)%nat → (j - currentPlayerIndex g < fuel)%nat →
  is_Some (skipEliminated fuel g).
Proof.
  revert g. induction fuel as [|fuel IH]; intros g Hst Hj Hq Hle Hfuel; [lia|].
  simpl.
  destruct (isPlayerEliminated g (getCurrentPlayer g) && bool_decide (status g = Active))
    eqn:Hcond; [|by eexists].
  apply andb_true_iff in Hcond as [Helim _].
  pose proof (lookup_lt_Some _ _ _ Hj) as Hlen.
  assert (Hne : currentPlayerIndex g ≠ j).
  { intros Heq. subst j. unfold getCurrentPlayer in Helim. rewrite Hst, Hj in Helim.
    destruct (playerOrder g); [done|]. congruence. }
  assert (Hmod : ((currentPlayerIndex g + 1) `mod` length (playerOrder g)
                  = currentPlayerIndex g + 1)%nat)
    by (apply Nat.mod_small; lia).
  rewrite Hmod.
  destruct (Nat.eqb_spec (currentPlayerIndex g + 1) 0) as [|_]; [lia|].
  apply IH; simpl; try done; lia.
Qed.

Lemma activePlayers_nonempty (g : Game) :
  (length (activePlayers g) =? 0)%nat = false →
  ∃ j q, playerOrder g !! j = Some q ∧ isPlayerEliminated g (Some q) = false.
Proof.
  intros Hlen. apply Nat.eqb_neq in Hlen.
  destruct (activePlayers g) as [|q rest] eqn:Hact; [done|].
  assert (Hin : q ∈ activePlayers g) by (rewrite Hact; left).
  unfold activePlayers in Hin. apply list_elem_of_filter in Hin as [Hq Hin].
  apply list_elem_of_lookup in Hin as [j Hj]. by exists j, q.
Qed.

(** The loop ends within [2 * playerOrder.length + 1] tests. *)
Lemma skipEliminated_returns (fuel : nat) (g : Game) :
  (currentPlayerIndex g < length (playerOrder g))%nat →
  (length (playerOrder g) - currentPlayerIndex g + length (playerOrder g) < fuel)%nat →
  is_Some (skipEliminated fuel g).
Proof.
  revert g. induction fuel as [|fuel IH]; intros g Hidx Hfuel; [lia|].
  simpl.
  destruct (isPlayerEliminated g (getCurrentPlayer g) && bool_decide (status g = Active))
    eqn:Hcond; [|by eexists].
  apply andb_true_iff in Hcond as [_ Hst]. apply bool_decide_eq_true in Hst.
  set (g1 := set_currentPlayerIndex _ g).
  destruct (decide (currentPlayerIndex g + 1 = length (playerOrder g))%nat) as [Hwrap|Hin].
  - assert (Hzero : ((currentPlayerIndex g + 1) `mod` length (playerOrder g) = 0)%nat)
      by (rewrite Hwrap; apply Nat.Div0.mod_same).
    assert (Hgo : (length (activePlayers g1) =? 0)%nat = false →
                  is_Some (skipEliminated fuel g1)).
    { intros Hact. apply activePlayers_nonempty in Hact as (j & q & Hj & Hq).
      pose proof (lookup_lt_Some _ _ _ Hj) as Hlen.
      apply (skipEliminated_stops fuel g1 j q); try done;
        subst g1; simpl in *; rewrite Hzero; lia. }
    rewrite Hzero. simpl.
    repeat case_match; try (by eexists); by apply Hgo.
  - assert (Hmod : ((currentPlayerIndex g + 1) `mod` length (playerOrder g)
                    = currentPlayerIndex g + 1)%nat)
      by (apply Nat.mod_small; lia).
    subst g1. rewrite Hmod.
    destruct (Nat.eqb_spec (currentPlayerIndex g + 1) 0) as [|_]; [lia|].
    apply IH; simpl; lia.
Qed.

(** X1: [endTurn] always returns: its skip loop ends, and the bound of
    [2 * playerOrder.length + 1] tests of the loop condition is never hit. *)
Lemma endTurn_returns (p : string) (rnd : list Z) (g : Game) :
  is_Some (endTurn p rnd g).
Proof.
  unfold endTurn. case_bool_decide as Hcur; [by eexists|].
  assert (Hp : getCurrentPlayer g = Some p).
  { destruct (decide (getCurrentPlayer g = Some p)); [done | by destruct Hcur]. }
  apply getCurrentPlayer_Some in Hp as [_ Hp].
  pose proof (lookup_lt_Some _ _ _ Hp) as Hlen.
  set (g1 := set_currentPlayerIndex _ g).
  set (g2 := if (currentPlayerIndex g1 =? 0)%nat then _ else g1).
  assert (Hg2 : length (playerOrder g2) = length (playerOrder g) ∧
                (currentPlayerIndex g2 < length (playerOrder g))%nat).
  { subst g2. destruct (currentPlayerIndex g1 =? 0)%nat; simpl.
    - split; [|lia]. by rewrite arraySort_perm.
    - split; [done|]. apply Nat.mod_upper_bound. lia. }
  destruct Hg2 as [Hlen2 Hidx2].
  destruct (skipEliminated_returns (2 * length (playerOrder g2) + 1) g2) as [[g3 b] Hskip];
    [lia | lia |].
  rewrite Hskip. destruct b; by eexists.
Qed.

(** ** The round boundary *)

Lemma resetAll_lookup (l : list string) (ta : gmap string TurnAction) (q : string) :
  foldl (fun ta p => <[p := freshTurnAction]> ta) ta l !! q
  = if decide (q ∈ l) then Some freshTurnAction else ta !! q.
Proof.
  revert ta. induction l as [|a l IH]; intros ta.
  - cbn [foldl]. case_decide as Hin; [by apply elem_of_nil in Hin | done].
  - cbn [foldl]. rewrite IH.
    destruct (decide (q ∈ l)) as [Hin|Hout].
    + rewrite decide_True; [done | by right].
    + destruct (decide (q = a)) as [->|Hne].
      * rewrite lookup_insert_eq. rewrite decide_True; [done | left].
      * rewrite lookup_insert_ne by done.
        rewrite decide_False; [done|]. intros Hin. apply elem_of_cons in Hin as [?|?]; done.
Qed.

(** What resetting for the player whose turn begins does to the records. *)
Lemma resetTurnActions_current (g : Game) (q : string) :
  getCurrentPlayer g = Some q →
  getCurrentPlayer (resetTurnActions (Some q) g) = Some q ∧
  status (resetTurnActions (Some q) g) = status g ∧
  round (resetTurnActions (Some q) g) = round g ∧
  playerOrder (resetTurnActions (Some q) g) = playerOrder g ∧
  players (resetTurnActions (Some q) g) = players g ∧
  turnActions (resetTurnActions (Some q) g) !! q = Some freshTurnAction ∧
  (q ≠ "" → ∀ q', q' ≠ q →
     turnActions (resetTurnActions (Some q) g) !! q' = turnActions g !! q').
Proof.
  intros Hcur.
  pose proof (getCurrentPlayer_Some _ _ Hcur) as [_ Hq].
  apply list_elem_of_lookup_2 in Hq.
  unfold resetTurnActions, truthy.
  destruct (String.eqb_spec q "") as [->|Hne]; simpl; repeat split; try done.
  - rewrite resetAll_lookup. by rewrite decide_True.
  - apply lookup_insert_eq.
  - intros _ q' Hq'. by rewrite lookup_insert_ne.
Qed.

(** The loop walks upwards from the index it starts at: when it leaves
    with its condition false, everybody before the index it stops at is
    eliminated, provided everybody before the index it started at was. *)
Lemma skipEliminated_first (fuel : nat) (g g' : Game) :
  skipEliminated fuel g = Some (g', false) →
  (currentPlayerIndex g < length (playerOrder g))%nat →
  (∀ j q, (j < currentPlayerIndex g)%nat → playerOrder g !! j = Some q →
          isPlayerEliminated g (Some q) = true) →
  ∀ j q, (j < currentPlayerIndex g')%nat → playerOrder g' !! j = Some q →
         isPlayerEliminated g' (Some q) = true.
Proof.
  revert g. induction fuel as [|fuel IH]; intros g; simpl; [discriminate|].
  destruct (isPlayerEliminated g (getCurrentPlayer g) && bool_decide (status g = Active))
    eqn:Hcond; [|intros Hret; by simplify_eq].
  apply andb_true_iff in Hcond as [Helim Hst]. apply bool_decide_eq_true in Hst.
  intros Hret Hidx Hbefore.
  set (g1 := set_currentPlayerIndex
               ((currentPlayerIndex g + 1) `mod` length (playerOrder g))%nat g) in *.
  assert (Hrec : skipEliminated fuel g1 = Some (g', false) →
                 ∀ j q, (j < currentPlayerIndex g')%nat → playerOrder g' !! j = Some q →
                        isPlayerEliminated g' (Some q) = true).
  { intros Hskip. apply (IH g1 Hskip).
    - simpl. apply Nat.mod_upper_bound. lia.
    - intros j q Hj Hq. simpl in Hj, Hq.
      rewrite (isPlayerEliminated_players g g1) by done.
      destruct (decide (currentPlayerIndex g + 1 = length (playerOrder g))%nat) as [Hw|Hw].
      + rewrite Hw, Nat.Div0.mod_same in Hj. lia.
      + rewrite Nat.mod_small in Hj by lia.
        destruct (decide (j = currentPlayerIndex g)) as [->|Hne].
        * unfold getCurrentPlayer in Helim. rewrite Hst in Helim.
          destruct (playerOrder g) eqn:Ho; [simpl in Hidx; lia|].
          by rewrite Hq in Helim.
        * apply (Hbefore j q); [lia | done]. }
  revert Hret. repeat case_match; intros Hret; simplify_eq; by apply Hrec.
Qed.

Lemma StronglySorted_lookup {A} (R : relation A) (l : list A) (i j : nat) (a b : A) :
  StronglySorted R l → (i < j)%nat → l !! i = Some a → l !! j = Some b → R a b.
Proof.
  intros Hs. revert i j a b.
  induction Hs as [|c l Hs IH Hall]; intros i j a b Hij Hi Hj; [done|].
  destruct j as [|j]; [lia|]. simpl in Hj.
  destruct i as [|i]; simpl in Hi.
  - injection Hi as <-. rewrite Forall_forall in Hall. apply Hall.
    by apply list_elem_of_lookup_2 with j.
  - apply (IH i j); [lia | done | done].
Qed.

Lemma countLe_refl (g : Game) (q : string) : countLe g q q.
Proof. unfold countLe. by destruct (monsterCount g q). Qed.

(** C6, as the code has it: when a successful [endTurn] wraps the index
    to 0, the round counter grows by exactly 1 and [playerOrder] is
    re-sorted ascending by live token count (a permutation of the old
    order, whatever the random tie-breaks).  If the session stays active,
    the turn goes to the first player of the new order who is not
    eliminated: everybody before that player in the order is eliminated,
    the head of the order leads when it is not eliminated, and no player
    still in play has fewer live tokens.  The record of that player is
    reset, and, that id being a non-empty string, the call leaves the
    other players' records as they were. *)
Theorem endTurn_round_boundary (g g' : Game) (p : string) (rnd : list Z) (r : Result) :
  endTurn p rnd g = Some (g', Returned r) → success r = true →
  ((currentPlayerIndex g + 1) `mod` length (playerOrder g) = 0)%nat →
  round g' = S (round g) ∧
  playerOrder g' ≡ₚ playerOrder g ∧
  StronglySorted (countLe g') (playerOrder g') ∧
  (status g' = Active →
   ∃ q, getCurrentPlayer g' = Some q ∧
        playerOrder g' !! currentPlayerIndex g' = Some q ∧
        isPlayerEliminated g' (Some q) = false ∧
        (∀ j q', (j < currentPlayerIndex g')%nat → playerOrder g' !! j = Some q' →
                 isPlayerEliminated g' (Some q') = true) ∧
        (∀ q0, playerOrder g' !! 0%nat = Some q0 →
               isPlayerEliminated g' (Some q0) = false → q = q0) ∧
        (∀ q', q' ∈ playerOrder g' → isPlayerEliminated g' (Some q') = false →
               countLe g' q q') ∧
        turnActions g' !! q = Some freshTurnAction ∧
        (q ≠ "" → ∀ q', q' ≠ q → turnActions g' !! q' = turnActions g !! q')).
Proof.
  unfold endTurn. intros Hret Hok Hwrap.
  case_bool_decide as Hcur; [by simplify_eq|].
  assert (Hp : getCurrentPlayer g = Some p)
    by (destruct (decide (getCurrentPlayer g = Some p)); [done | by destruct Hcur]).
  apply getCurrentPlayer_Some in Hp as [_ Hp].
  pose proof (lookup_lt_Some _ _ _ Hp) as Hlen.
  rewrite Hwrap in Hret. simpl in Hret.
  set (sorted := (arraySort _ (playerOrder g) rnd).1) in Hret.
  set (g2 := set_currentPlayerIndex 0%nat _) in Hret.
  assert (Hperm : sorted ≡ₚ playerOrder g) by apply arraySort_perm.
  assert (Hsorted : StronglySorted (countLe g) sorted).
  { subst sorted.
    match goal with
    | |- StronglySorted _ (arraySort (compareByCount ?ga) _ _).1 =>
        change (countLe g) with (countLe ga);
        apply (arraySort_sorted (compareByCount ga) (countLe ga))
    end; [apply compareByCount_le | apply compareByCount_gt]. }
  destruct (skipEliminated _ g2) as [[g3 b]|] eqn:Hskip; [|discriminate].
  pose proof Hskip as Hfirst.
  apply skipEliminated_keeps in Hskip as (Hround & Horder & Hplayers & Hta & Hexit).
  simpl in Hround, Horder, Hplayers, Hta.
  assert (Hsorted3 : StronglySorted (countLe g3) sorted).
  { unfold countLe, monsterCount in *. by rewrite Hplayers. }
  destruct b; simplify_eq.
  - rewrite Hround, Horder. repeat split; try done.
    intros Hact. by rewrite Hexit in Hact.
  - assert (Hidx2 : (currentPlayerIndex g2 < length (playerOrder g2))%nat)
      by (simpl; rewrite Hperm; lia).
    assert (Hnone : ∀ j q, (j < currentPlayerIndex g2)%nat → playerOrder g2 !! j = Some q →
                           isPlayerEliminated g2 (Some q) = true)
      by (simpl; intros; lia).
    pose proof (skipEliminated_first _ g2 g3 Hfirst Hidx2 Hnone) as Hbefore.
    clear Hfirst Hidx2 Hnone. rename Hbefore into Hfirst.
    destruct (getCurrentPlayer g3) as [q|] eqn:Hq.
    + destruct (resetTurnActions_current g3 q Hq)
        as (Hcur' & Hst' & Hround' & Horder' & Hplayers' & Hfresh & Hothers).
      assert (Hidx' : currentPlayerIndex (resetTurnActions (Some q) g3)
                      = currentPlayerIndex g3)
        by (unfold resetTurnActions; repeat case_match; done).
      assert (Helim' : ∀ q', isPlayerEliminated (resetTurnActions (Some q) g3) q'
                             = isPlayerEliminated g3 q')
        by (intros q'; by apply isPlayerEliminated_players).
      rewrite Hround', Horder', Hround, Horder. repeat split; try done.
      * unfold countLe, monsterCount in *. by rewrite Hplayers'.
      * intros Hact. rewrite Hst' in Hact.
        pose proof (getCurrentPlayer_Some _ _ Hq) as [_ Hqi]. rewrite Horder in Hqi.
        assert (Hqlive : isPlayerEliminated g3 (Some q) = false).
        { rewrite Hact, bool_decide_eq_true_2, andb_true_r in Hexit by done. done. }
        exists q. rewrite Hidx'. split_and!; try done.
        -- by rewrite Helim'.
        -- intros j q' Hj Hq'. rewrite Helim'. apply (Hfirst j q'); [done|].
           by rewrite Horder.
        -- intros q0 Hq0. rewrite Helim'. intros Hlive.
           destruct (currentPlayerIndex g3) as [|k] eqn:Hk.
           ++ rewrite Hq0 in Hqi. by injection Hqi.
           ++ rewrite (Hfirst 0%nat q0) in Hlive; [done | lia | by rewrite Horder].
        -- intros q' Hin. rewrite Helim'. intros Hlive.
           assert (Hle : countLe g3 q q').
           { apply list_elem_of_lookup in Hin as [j Hj].
             destruct (decide (j < currentPlayerIndex g3)%nat) as [Hlt|Hge].
             - rewrite (Hfirst j q') in Hlive; [done | done | by rewrite Horder].
             - destruct (decide (j = currentPlayerIndex g3)) as [->|Hne].
               + rewrite Hqi in Hj. injection Hj as <-. apply countLe_refl.
               + apply (StronglySorted_lookup _ _ (currentPlayerIndex g3) j q q' Hsorted3);
                   [lia | done | done]. }
           unfold countLe, monsterCount in *. by rewrite Hplayers'.
        -- intros Hne q' Hq'. rewrite <- Hta. by apply Hothers.
    + simpl in Hexit. unfold resetTurnActions. simpl.
      rewrite Hround, Horder. repeat split; try done.
      intros Hact. rewrite Hact in Hexit. by rewrite bool_decide_eq_true_2 in Hexit.
Qed.

Lemma endTurn_round_boundary_witness :
  round Scenario.round2 = S (round Scenario.p2placed) ∧
  playerOrder Scenario.round2 ≡ₚ playerOrder Scenario.p2placed ∧
  StronglySorted (countLe Scenario.round2) (playerOrder Scenario.round2) ∧
  ∃ q, getCurrentPlayer Scenario.round2 = Some q ∧
       playerOrder Scenario.round2 !! currentPlayerIndex Scenario.round2 = Some q ∧
       (∀ q', q' ∈ playerOrder Scenario.round2 →
              isPlayerEliminated Scenario.round2 (Some q') = false →
              countLe Scenario.round2 q q') ∧
       turnActions Scenario.round2 !! q = Some freshTurnAction.
Proof.
  destruct (endTurn_round_boundary Scenario.p2placed Scenario.round2 "p2" []
              (mkResult true None (Some (getState Scenario.round2))))
    as (Hround & Hperm & Hsorted & Hturn).
  - vm_compute; reflexivity.
  - reflexivity.
  - vm_compute; reflexivity.
  - destruct Hturn as (q & Hq & Hqi & _ & _ & _ & Hle & Hfresh & _);
      [vm_compute; reflexivity|].
    split_and!; [exact Hround | exact Hperm | exact Hsorted |].
    exists q. split_and!; [exact Hq | exact Hqi | exact Hle | exact Hfresh].
Defined.

(** C6, as stated, fails: ["p2"] placed a monster and ended the turn that
    closes round 1; round 2 begins with ["p1"], whose record is reset,
    while the record of ["p2"] still says that a monster was placed. *)
Lemma round_boundary_keeps_other_record :
  endTurn "p2" [] Scenario.p2placed
    = Some (Scenario.round2,
            Returned (mkResult true None (Some (getState Scenario.round2)))) ∧
  ((currentPlayerIndex Scenario.p2placed + 1)
     `mod` length (playerOrder Scenario.p2placed) = 0)%nat ∧
  round Scenario.round2 = S (round Scenario.p2placed) ∧
  playerOrder Scenario.round2 = ["p1"; "p2"] ∧
  getCurrentPlayer Scenario.round2 = Some "p1" ∧
  (placedMonster <$> turnActions Scenario.round2 !! "p2") = Some true ∧
  ¬ (∀ q, q ∈ playerOrder Scenario.round2 →
          turnActions Scenario.round2 !! q = Some freshTurnAction).
Proof.
  split_and!; try (vm_compute; reflexivity).
  intros Hall.
  assert (Hp2 : "p2" ∈ playerOrder Scenario.round2) by (vm_compute; right; left).
  apply Hall in Hp2.
  assert (Hplaced : (placedMonster <$> turnActions Scenario.round2 !! "p2") = Some true)
    by (vm_compute; reflexivity).
  rewrite Hp2 in Hplaced. discriminate.
Qed.

(** ** Movement legality *)

(** X3: an iteration of the path loop makes [isValidMove] return [false]
    exactly when the square it looks at is within bounds and holds a token
    of another player; the destination ([i = steps]) is treated as every
    other square. *)
Lemma pathBlockedAt_spec (g : Game) (p : string) (monster : Monster) (newX newY i : Z) :
  let dx := Z.abs (newX - m_x monster) in
  let dy := Z.abs (newY - m_y monster) in
  let diagonal := (dx >? 0) && (dy >? 0) in
  let straight := ((dx >? 0) && (dy =? 0)) || ((dx =? 0) && (dy >? 0)) in
  let checkX := if diagonal then m_x monster + Z.sgn (newX - m_x monster) * Z.min i dx
                else m_x monster + Z.sgn (newX - m_x monster)
                                   * (if (straight && (dx >? 0)) || diagonal then i else 0) in
  let checkY := if diagonal then m_y monster + Z.sgn (newY - m_y monster) * Z.min i dy
                else m_y monster + Z.sgn (newY - m_y monster)
                                   * (if (straight && (dy >? 0)) || diagonal then i else 0) in
  pathBlockedAt g p monster newX newY i = true ↔
  inBounds checkX checkY = true ∧
  ∃ sq, contentAt g checkX checkY = Some sq ∧ m_owner sq ≠ p.
Proof.
  intros dx dy diagonal straight checkX checkY.
  unfold pathBlockedAt. fold dx dy. fold diagonal straight. fold checkX checkY.
  destruct (inBounds checkX checkY); simpl; [|split; [done | by intros [? _]]].
  destruct (contentAt g checkX checkY) as [sq|]; [|split; [done | by intros (_ & ? & ? & _)]].
  destruct (String.eqb_spec (m_owner sq) p) as [Heq|Hne]; simpl.
  - rewrite andb_false_r. destruct (i <? Z.max dx dy); simpl;
      (split; [done | intros (_ & sq' & Hsq & Hne); by simplify_eq]).
  - rewrite andb_false_r. split; [|done]. intros _. split; [done|]. by exists sq.
Qed.

Lemma pathLoop_true (g : Game) (p : string) (monster : Monster) (newX newY : Z)
      (n : nat) (i : Z) :
  pathLoop g p monster newX newY n i = true ↔
  ∀ k, i ≤ k < i + Z.of_nat n → pathBlockedAt g p monster newX newY k = false.
Proof.
  revert i. induction n as [|n IH]; intros i.
  - simpl. split; [intros _ k Hk; lia | done].
  - cbn [pathLoop].
    destruct (pathBlockedAt g p monster newX newY i) eqn:Hi.
    + split; [done|]. intros Hall. rewrite Hall in Hi by lia. done.
    + rewrite IH. split.
      * intros Hall k Hk. destruct (decide (k = i)) as [->|Hne]; [done|].
        apply Hall. lia.
      * intros Hall k Hk. apply Hall. lia.
Qed.

(** X5: what [isValidMove] computes: the destination is within bounds;
    the displacement is along one axis only and not zero, of any length,
    or it is not zero on either axis and at most 2 on each, which is what
    the code calls diagonal and includes the displacements (2,1) and
    (1,2); and no iteration of the path loop, from the first step to the
    destination, finds a token of another player. *)
Theorem isValidMove_spec (g : Game) (p : string) (monster : Monster) (newX newY : Z) :
  let dx := Z.abs (newX - m_x monster) in
  let dy := Z.abs (newY - m_y monster) in
  isValidMove g p monster newX newY = true ↔
  inBounds newX newY = true ∧
  ((0 < dx ∧ dy = 0) ∨ (dx = 0 ∧ 0 < dy) ∨ (0 < dx ≤ 2 ∧ 0 < dy ≤ 2)) ∧
  ∀ i, 1 ≤ i ≤ Z.max dx dy → pathBlockedAt g p monster newX newY i = false.
Proof.
  intros dx dy. unfold isValidMove. fold dx dy.
  destruct (inBounds newX newY); simpl; [|split; [done | by intros [? _]]].
  assert (Hloop : pathLoop g p monster newX newY (Z.to_nat (Z.max dx dy)) 1 = true ↔
                  ∀ i, 1 ≤ i ≤ Z.max dx dy → pathBlockedAt g p monster newX newY i = false).
  { rewrite pathLoop_true. split; intros Hall k Hk; apply Hall; lia. }
  destruct (Z.gtb_spec dx 0), (Z.gtb_spec dy 0), (Z.eqb_spec dx 0), (Z.eqb_spec dy 0),
    (Z.gtb_spec dx 2), (Z.gtb_spec dy 2); simpl; try lia;
    try (rewrite Hloop; split; [intros Hall; split_and!; [done | lia | done]
                               | by intros (_ & _ & Hall)]);
    (split; [done | intros (_ & Hgeo & _); lia]).
Qed.

(** C1, where the code departs from it.  ["p1"] has a vampire on (5,0)
    and a ghost on (6,0); ["p2"] has a werewolf on (5,9); the squares
    between (5,0) and (5,9) are empty.  The straight move of the vampire
    onto the werewolf of ["p2"] is refused, though the path is clear up to
    (5,8); the move onto the own ghost is accepted. *)
Theorem isValidMove_landing_squares :
  let g := Scenario.twoOwn in
  let vampire := mkMonster "m1" "vampire" 5 0 "p1" in
  contentAt g 5 0 = Some vampire ∧
  contentAt g 6 0 = Some (mkMonster "m3" "ghost" 6 0 "p1") ∧
  contentAt g 5 9 = Some (mkMonster "m2" "werewolf" 5 9 "p2") ∧
  isValidMove g "p1" vampire 5 8 = true ∧
  isValidMove g "p1" vampire 5 9 = false ∧
  isValidMove g "p1" vampire 6 0 = true ∧
  (moveMonster "p1" "m1" 5 9 g).2
    = Returned (failure "Invalid move (distance, obstacle, or out of bounds).") ∧
  (moveMonster "p1" "m1" 6 0 g).2
    = Returned (mkResult true (Some (MsgMoved 6 0)) None).
Proof. intros. split_and!; vm_compute; reflexivity. Qed.

(** ** Combat *)

(** X4: between tokens of different owners and different types the table
    picks the token to remove: the werewolf against a vampire, the ghost
    against a werewolf, the vampire against a ghost. *)
Lemma handleConflict_table (g : Game) (x y : Z) (p : string) (e : loc)
      (moving existing : Monster) :
  contentAt g x y = Some moving → objs g !! e = Some existing →
  m_owner moving ≠ m_owner existing →
  ∀ t1 t2 loser,
    (t1, t2, loser) ∈ [("vampire", "werewolf", existing); ("werewolf", "vampire", moving);
                       ("werewolf", "ghost", existing); ("ghost", "werewolf", moving);
                       ("ghost", "vampire", existing); ("vampire", "ghost", moving)] →
    m_type moving = t1 → m_type existing = t2 →
    handleConflict x y p (Some e) g = removeMonster (m_id loser) (m_owner loser) g.
Proof.
  intros Hmoving Hexisting Howner t1 t2 loser Hin Ht1 Ht2.
  unfold handleConflict. simpl. rewrite Hmoving, Hexisting.
  destruct (String.eqb_spec (m_owner moving) (m_owner existing)); [done|].
  rewrite Ht1, Ht2.
  repeat (apply elem_of_cons in Hin as [Hin|Hin]; [by inversion Hin|]).
  by apply elem_of_nil in Hin.
Qed.

(** ** One move per token and turn *)

Lemma turnActions_removeMonster (monsterId ownerId : string) (g : Game) :
  turnActions (removeMonster monsterId ownerId g) = turnActions g.
Proof. unfold removeMonster. repeat case_match; done. Qed.

Lemma turnActions_handleConflict (x y : Z) (p : string) (e : option loc) (g : Game) :
  turnActions (handleConflict x y p e g) = turnActions g.
Proof.
  unfold handleConflict.
  repeat case_match; rewrite ?turnActions_removeMonster; done.
Qed.

Lemma turnActions_settleWinner (g : Game) : turnActions (settleWinner g) = turnActions g.
Proof.
  unfold settleWinner.
  repeat case_match; try done; by destruct (endGame_keeps (Some s) g) as (_ & _ & _ & ->).
Qed.

(** A successful move records the token in the mover's moved set. *)
Lemma moveMonster_marks_moved (p monsterId : string) (x y : Z) (g g' : Game) (r : Result) :
  moveMonster p monsterId x y g = (g', Returned r) → success r = true →
  ∃ ta, turnActions g' !! p = Some ta ∧ monsterId ∈ movedMonsters ta.
Proof.
  unfold moveMonster.
  repeat case_match; intros Hret Hok; simplify_eq; try done;
    rewrite turnActions_settleWinner, ?turnActions_handleConflict; simpl;
    rewrite lookup_insert_eq; eexists; (split; [reflexivity|]); simpl; set_solver.
Qed.

(** A token whose id is in the caller's moved set is not moved: the call
    leaves the session as it was and does not succeed. *)
Lemma moveMonster_already_moved (p monsterId : string) (x y : Z) (g : Game) (ta : TurnAction) :
  turnActions g !! p = Some ta → monsterId ∈ movedMonsters ta →
  (moveMonster p monsterId x y g).1 = g ∧
  ∀ r, (moveMonster p monsterId x y g).2 = Returned r → success r = false.
Proof.
  intros Hta Hin. unfold moveMonster. rewrite Hta. simpl.
  rewrite (bool_decide_eq_true_2 _ Hin).
  repeat case_match; simpl; split; try done; intros r' Hr; by simplify_eq.
Qed.

(** C4, where the code departs from it.  ["p1"] has just placed the
    vampire ["m1"] on (3,0): the record of the turn says that a monster
    was placed but holds no [placedMonsterId], and the move of ["m1"] to
    (3,5) in the same turn succeeds.  A second move of ["m1"] is then
    refused, as its id is in the moved set. *)
Theorem just_placed_token_moves :
  let g := Scenario.placed1 in
  let moved := moveMonster "p1" "m1" 3 5 g in
  getCurrentPlayer g = Some "p1" ∧
  (placedMonster <$> turnActions g !! "p1") = Some true ∧
  (turnActions g !! "p1" ≫= placedMonsterId) = None ∧
  contentAt g 3 0 = Some (mkMonster "m1" "vampire" 3 0 "p1") ∧
  moved.2 = Returned (mkResult true (Some (MsgMoved 3 5)) None) ∧
  contentAt moved.1 3 5 = Some (mkMonster "m1" "vampire" 3 5 "p1") ∧
  contentAt moved.1 3 0 = None ∧
  moveMonster "p1" "m1" 3 6 moved.1
    = (moved.1, Returned (failure "This monster has already moved this turn.")).
Proof. intros. split_and!; vm_compute; reflexivity. Qed.

Lemma pathBlockedAt_spec_witness :
  pathBlockedAt Scenario.twoOwn "p1" (mkMonster "m1" "vampire" 5 0 "p1") 5 9 9 = true.
Proof.
  apply (pathBlockedAt_spec Scenario.twoOwn "p1" (mkMonster "m1" "vampire" 5 0 "p1") 5 9 9).
  split; [reflexivity|].
  exists (mkMonster "m2" "werewolf" 5 9 "p2").
  split; [vm_compute; reflexivity | discriminate].
Defined.

Lemma handleConflict_table_witness :
  handleConflict 5 9 "p1" (Some 1%nat) (Scenario.arrived "vampire" "werewolf")
  = removeMonster "m2" "p2" (Scenario.arrived "vampire" "werewolf").
Proof.
  apply (handleConflict_table (Scenario.arrived "vampire" "werewolf") 5 9 "p1" 1%nat
           (mkMonster "m1" "vampire" 5 9 "p1") (mkMonster "m2" "werewolf" 5 9 "p2")
           ltac:(vm_compute; reflexivity) ltac:(vm_compute; reflexivity)
           ltac:(discriminate)
           "vampire" "werewolf" (mkMonster "m2" "werewolf" 5 9 "p2"));
    [left | reflexivity | reflexivity].
Defined.

(** ** Board cells *)

Lemma boardAt_board (g g' : Game) (x y : Z) :
  board g' = board g → boardAt g' x y = boardAt g x y.
Proof. intros Hb. unfold boardAt. by rewrite Hb. Qed.

Lemma contentAt_same (g g' : Game) (x y : Z) :
  board g' = board g → objs g' = objs g → contentAt g' x y = contentAt g x y.
Proof. intros Hb Ho. unfold contentAt. by rewrite (boardAt_board g g'), Ho. Qed.

(** Writing a cell that is not there changes nothing. *)
Lemma setCell_absent (g : Game) (x y : Z) (v : option loc) :
  boardAt g x y = None → setCell x y v (board g) = board g.
Proof.
  unfold boardAt, setCell.
  destruct ((x <? 0) || (y <? 0)); [done|].
  destruct (board g !! Z.to_nat y) as [row|] eqn:Hrow; [|done]. simpl.
  intros Hcell. apply lookup_ge_None in Hcell.
  rewrite (list_insert_ge row) by done. by apply list_insert_id.
Qed.

Lemma boardAt_setCell_eq (g : Game) (x y : Z) (v : option loc) :
  is_Some (boardAt g x y) →
  boardAt (set_board (setCell x y v (board g)) g) x y = Some v.
Proof.
  unfold boardAt, setCell. simpl.
  destruct ((x <? 0) || (y <? 0)); [by intros [? ?]|].
  destruct (board g !! Z.to_nat y) as [row|] eqn:Hrow; [|by intros [? ?]]. simpl.
  intros [c Hc].
  rewrite list_lookup_insert_eq by (by eapply lookup_lt_Some). simpl.
  apply list_lookup_insert_eq. by eapply lookup_lt_Some.
Qed.

Lemma boardAt_setCell_ne (g : Game) (x y x' y' : Z) (v : option loc) :
  (x', y') ≠ (x, y) →
  boardAt (set_board (setCell x y v (board g)) g) x' y' = boardAt g x' y'.
Proof.
  intros Hne. unfold boardAt, setCell. simpl.
  destruct ((x' <? 0) || (y' <? 0)) eqn:Hneg'; [done|].
  destruct ((x <? 0) || (y <? 0)) eqn:Hneg; [done|].
  apply orb_false_iff in Hneg as [Hx Hy]. apply orb_false_iff in Hneg' as [Hx' Hy'].
  apply Z.ltb_ge in Hx, Hy, Hx', Hy'.
  destruct (board g !! Z.to_nat y) as [row|] eqn:Hrow; [|done].
  destruct (decide (Z.to_nat y' = Z.to_nat y)) as [Hey|Hny].
  - rewrite Hey, Hrow.
    rewrite list_lookup_insert_eq by (by eapply lookup_lt_Some). simpl.
    apply list_lookup_insert_ne. intros Hex. apply Hne. f_equal; lia.
  - by rewrite list_lookup_insert_ne.
Qed.

(** A write leaves every cell as it was or gives it the value written. *)
Lemma boardAt_setCell (g : Game) (x y x' y' : Z) (v : option loc) :
  boardAt (set_board (setCell x y v (board g)) g) x' y' = boardAt g x' y' ∨
  ((x', y') = (x, y) ∧ boardAt (set_board (setCell x y v (board g)) g) x' y' = Some v).
Proof.
  destruct (decide ((x', y') = (x, y))) as [Heq|Hne].
  - inversion Heq; subst.
    destruct (boardAt g x y) as [c|] eqn:Hc.
    + right. split; [done|]. apply boardAt_setCell_eq. rewrite Hc. by eexists.
    + left. by rewrite (setCell_absent g x y v Hc).
  - left. by apply boardAt_setCell_ne.
Qed.

Lemma boardShape_setCell (g : Game) (x y : Z) (v : option loc) :
  boardShape g → boardShape (set_board (setCell x y v (board g)) g).
Proof.
  unfold boardShape, setCell. simpl. intros [Hlen Hrows].
  destruct ((x <? 0) || (y <? 0)); [done|].
  destruct (board g !! Z.to_nat y) as [row|] eqn:Hrow; [|done].
  split; [by rewrite length_insert|].
  apply Forall_insert; [done|]. rewrite length_insert.
  by apply (Forall_lookup_1 _ _ _ _ Hrows Hrow).
Qed.

Lemma boardShape_cell (g : Game) (x y : Z) :
  boardShape g → inBounds x y = true → is_Some (boardAt g x y).
Proof.
  unfold boardShape, inBounds, boardAt. intros [Hlen Hrows] Hin.
  apply negb_true_iff in Hin.
  repeat (apply orb_false_iff in Hin as [Hin ?]).
  assert (0 ≤ x ≤ 9 ∧ 0 ≤ y ≤ 9) as [Hx Hy] by lia.
  rewrite (proj2 (orb_false_iff _ _)) by (split; lia).
  destruct (lookup_lt_is_Some_2 (board g) (Z.to_nat y)) as [row Hrow]; [lia|].
  rewrite Hrow. simpl.
  apply lookup_lt_is_Some_2.
  rewrite (Forall_lookup_1 _ _ _ _ Hrows Hrow). lia.
Qed.

(** ** Tokens on the board and in the rosters *)

Lemma tokensOk_same (g g' : Game) :
  players g' = players g → board g' = board g → objs g' = objs g →
  tokensOk g → tokensOk g'.
Proof.
  intros Hp Hb Ho [Hroster Hcell]. split.
  - intros p pl l. rewrite Hp, Ho. apply Hroster.
  - intros x y l. rewrite (boardAt_board g g') by done. rewrite Hp, Ho. apply Hcell.
Qed.

Lemma list_elem_of_delete_ne {A} (l : list A) (i : nat) (x y : A) :
  l !! i = Some x → y ∈ l → y ≠ x → y ∈ delete i l.
Proof.
  intros Hi Hy Hne. apply delete_Permutation in Hi.
  rewrite Hi in Hy. apply elem_of_cons in Hy as [?|?]; done.
Qed.

Lemma tokensOk_removeMonster (monsterId ownerId : string) (g : Game) :
  tokensOk g → tokensOk (removeMonster monsterId ownerId g).
Proof.
  intros [Hroster Hcell]. unfold removeMonster.
  destruct (players g !! ownerId) as [player|] eqn:Hp; [|done].
  destruct (findMonster g (p_monsters player) monsterId) as [[i l]|] eqn:Hfind; [|done].
  destruct (findMonster_object _ _ _ _ _ Hfind) as (monster & Hm & Hid & Hi).
  rewrite Hm.
  set (cleared := bool_decide (m_id <$> contentAt g (m_x monster) (m_y monster)
                               = Some monsterId)).
  set (g1 := if cleared then _ else g).
  assert (Hobjs : objs g1 = objs g) by (subst g1; by destruct cleared).
  assert (Hplayers : players g1 = players g) by (subst g1; by destruct cleared).
  split.
  - intros p pl l'. simpl. rewrite Hobjs, Hplayers.
    destruct (decide (p = ownerId)) as [->|Hne].
    + rewrite lookup_insert_eq. intros [= <-]. simpl. intros Hin.
      apply list_elem_of_delete_inv in Hin. by apply (Hroster ownerId player).
    + rewrite lookup_insert_ne by done. apply Hroster.
  - intros x y l' Hcell'.
    rewrite (boardAt_board g1) in Hcell' by done.
    assert (Hold : boardAt g x y = Some (Some l') ∧
                   (cleared = true → (x, y) ≠ (m_x monster, m_y monster))).
    { subst g1. destruct cleared eqn:Hc; [|done].
      destruct (boardAt_setCell g (m_x monster) (m_y monster) x y None)
        as [Hsame|[Heq Hnew]]; [|by rewrite Hnew in Hcell'].
      rewrite Hsame in Hcell'. split; [done|]. intros _ Heq.
      inversion Heq; subst.
      rewrite boardAt_setCell_eq in Hsame by (rewrite Hcell'; by eexists).
      by rewrite Hcell' in Hsame. }
    destruct Hold as [Hold Hclear].
    destruct (Hcell x y l' Hold) as (m' & pl' & Hm' & Hx & Hy & Hown & Hin).
    simpl. rewrite Hobjs, Hplayers.
    destruct (decide (m_owner m' = ownerId)) as [Heq|Hne].
    + rewrite Heq, Hp in Hown. injection Hown as <-.
      eexists m', _. rewrite Heq, lookup_insert_eq. split_and!; try done. simpl.
      apply (list_elem_of_delete_ne _ i l); try done.
      intros ->. rewrite Hm in Hm'. injection Hm' as <-.
      assert (Hc : cleared = true).
      { subst cleared. apply bool_decide_eq_true_2.
        unfold contentAt. rewrite Hx, Hy, Hold, Hm. simpl. by rewrite Hid. }
      by destruct (Hclear Hc); rewrite Hx, Hy.
    + exists m', pl'. rewrite lookup_insert_ne by done. done.
Qed.

Lemma tokensOk_handleConflict (x y : Z) (p : string) (e : option loc) (g : Game) :
  tokensOk g → tokensOk (handleConflict x y p e g).
Proof.
  intros Hg. unfold handleConflict.
  repeat case_match; try done; repeat apply tokensOk_removeMonster; done.
Qed.

Lemma tokensOk_relocate (g : Game) (p : string) (player : Player) (l : loc)
      (monster : Monster) (newX newY : Z) :
  tokensOk g → players g !! p = Some player → l ∈ p_monsters player →
  objs g !! l = Some monster → inBounds newX newY = true →
  tokensOk (relocate l monster newX newY g).
Proof.
  intros [Hroster Hcell] Hp Hl Hm Hin.
  destruct (Hroster p player l Hp Hl) as (m0 & Hm0 & Hown0 & _).
  rewrite Hm in Hm0. injection Hm0 as <-.
  pose proof (lookup_lt_Some _ _ _ Hm) as Hlt.
  unfold relocate. split.
  - intros q pl l' Hq Hl'. simpl in *.
    destruct (decide (l' = l)) as [->|Hne].
    + rewrite list_lookup_insert_eq by done. eexists. split; [done|]. simpl.
      destruct (Hroster q pl l Hq Hl') as (m1 & Hm1 & Hown1 & _). by simplify_eq.
    + rewrite list_lookup_insert_ne by done. by apply (Hroster q pl).
  - intros x y l' Hcell'.
    set (g1 := set_board (setCell (m_x monster) (m_y monster) None (board g)) g) in *.
    rewrite (boardAt_board (set_board (setCell newX newY (Some l) (board g1)) g1))
      in Hcell' by done.
    destruct (boardAt_setCell g1 newX newY x y (Some l)) as [Hsame|[Heq Hnew]].
    + rewrite Hsame in Hcell'. subst g1.
      destruct (boardAt_setCell g (m_x monster) (m_y monster) x y None) as [Hsame'|[Heq' Hnew']];
        [|by rewrite Hnew' in Hcell'].
      rewrite Hsame' in Hcell'.
      destruct (Hcell x y l' Hcell') as (m' & pl' & Hm' & Hx & Hy & Hown & Hin').
      assert (Hne : l' ≠ l).
      { intros ->. simplify_eq.
        rewrite boardAt_setCell_eq in Hsame' by (rewrite Hcell'; by eexists).
        by rewrite Hcell' in Hsame'. }
      exists m', pl'. simpl. rewrite list_lookup_insert_ne by done. done.
    + rewrite Hnew in Hcell'. inversion Heq; subst. simplify_eq.
      eexists _, player. simpl. rewrite list_lookup_insert_eq by done.
      split_and!; try done.
Qed.

Lemma tokensOk_placeMonster (p type : string) (x y : Z) (monsterId : string) (g : Game) :
  tokensOk g → tokensOk (placeMonster p type x y monsterId g).1.
Proof.
  intros Hg. unfold placeMonster.
  case_bool_decide; [done|].
  destruct (default false _); [done|].
  destruct (negb (bool_decide (type ∈ validTypes))); [done|].
  destruct (isValidPlacement g p x y) eqn:Hvalid; [|done]. simpl.
  apply isValidPlacement_spec in Hvalid as (player & Hp & Hin & Hempty & _).
  rewrite Hp.
  set (new := mkMonster monsterId type x y p).
  set (g2 := set_players _ (set_objs (objs g ++ [new]) g)).
  set (g3 := set_board (setCell x y (Some (length (objs g))) (board g2)) g2).
  assert (Hg3 : tokensOk g3).
  { destruct Hg as [Hroster Hcell]. split.
    - intros q pl l Hq Hl. simpl in *.
      destruct (decide (q = p)) as [->|Hne].
      + rewrite lookup_insert_eq in Hq. injection Hq as <-. simpl in Hl.
        apply elem_of_app in Hl as [Hl|Hl].
        * destruct (Hroster p player l Hp Hl) as (m & Hm & ?).
          exists m. split; [by apply lookup_app_l_Some | done].
        * apply list_elem_of_singleton in Hl as ->.
          exists new. split; [by rewrite lookup_app_r, Nat.sub_diag | done].
      + rewrite lookup_insert_ne in Hq by done.
        destruct (Hroster q pl l Hq Hl) as (m & Hm & ?).
        exists m. split; [by apply lookup_app_l_Some | done].
    - intros x' y' l Hl.
      assert (Hboard : board g2 = board g) by done.
      destruct (boardAt_setCell g2 x y x' y' (Some (length (objs g))))
        as [Hsame|[Heq Hnew]].
      + subst g3. rewrite Hsame, (boardAt_board g g2) in Hl by done.
        destruct (Hcell x' y' l Hl) as (m & pl & Hm & Hx & Hy & Hown & Hin').
        simpl. destruct (decide (m_owner m = p)) as [Heq|Hne].
        * rewrite Heq, Hp in Hown. injection Hown as <-.
          eexists m, _. rewrite Heq, lookup_insert_eq.
          split_and!; try done; [by apply lookup_app_l_Some|].
          simpl. apply elem_of_app. by left.
        * exists m, pl. rewrite lookup_insert_ne by done.
          split_and!; try done. by apply lookup_app_l_Some.
      + subst g3. rewrite Hnew in Hl. injection Hl as <-. inversion Heq; subst.
        eexists new, _. simpl. rewrite lookup_insert_eq.
        split_and!; try done; [by rewrite lookup_app_r, Nat.sub_diag|].
        simpl. apply elem_of_app. right. by apply list_elem_of_singleton. }
  destruct (turnActions g !! p); simpl; [by apply (tokensOk_same g3) | exact Hg3].
Qed.

Lemma isValidMove_inBounds (g : Game) (p : string) (monster : Monster) (newX newY : Z) :
  isValidMove g p monster newX newY = true → inBounds newX newY = true.
Proof. unfold isValidMove. by destruct (inBounds newX newY). Qed.

Lemma board_settleWinner (g : Game) :
  board (settleWinner g) = board g ∧ players (settleWinner g) = players g ∧
  objs (settleWinner g) = objs g.
Proof.
  unfold settleWinner, endGame. repeat case_match; done.
Qed.

Lemma tokensOk_moveMonster (p monsterId : string) (x y : Z) (g : Game) :
  tokensOk g → tokensOk (moveMonster p monsterId x y g).1.
Proof.
  intros Hg. unfold moveMonster.
  case_bool_decide; [done|].
  destruct (players g !! p) as [player|] eqn:Hp; [|done].
  destruct (findMonster g (p_monsters player) monsterId) as [[i l]|] eqn:Hfind; [|done].
  destruct (findMonster_object _ _ _ _ _ Hfind) as (monster & Hm & Hid & Hi).
  rewrite Hm. apply list_elem_of_lookup_2 in Hi.
  destruct (_ && _ && _); [done|].
  destruct (default false _); [done|].
  destruct (isValidMove g p monster x y) eqn:Hvalid; [|done]. simpl.
  apply isValidMove_inBounds in Hvalid.
  pose proof (tokensOk_relocate g p player l monster x y Hg Hp Hi Hm Hvalid) as Hrel.
  destruct (turnActions g !! p) as [t|]; [|done]. simpl.
  match goal with
  | |- tokensOk (settleWinner ?ga) =>
      destruct (board_settleWinner ga) as (Hb & Hpl & Ho);
      apply (tokensOk_same ga); [exact Hpl | exact Hb | exact Ho |]
  end.
  destruct (mjoin (boardAt g x y)).
  - apply tokensOk_handleConflict. by apply (tokensOk_same (relocate l monster x y g)).
  - by apply (tokensOk_same (relocate l monster x y g)).
Qed.

(** What the forfeit loop of [removePlayer] does to the board: cells are
    kept or emptied, and no token of the roster it walks is left standing
    on the square that token records. *)
Lemma forfeitTokens_board (p : string) (ms : list loc) (g : Game) :
  objs (forfeitTokens p ms g) = objs g ∧
  players (forfeitTokens p ms g) = players g ∧
  (∀ x y, boardAt (forfeitTokens p ms g) x y = boardAt g x y ∨
          boardAt (forfeitTokens p ms g) x y = Some None) ∧
  (∀ l m, l ∈ ms → objs g !! l = Some m →
          m_owner <$> contentAt (forfeitTokens p ms g) (m_x m) (m_y m) ≠ Some p).
Proof.
  unfold forfeitTokens. revert g.
  induction ms as [|l0 ms IH]; intros g; simpl.
  - split_and!; try done; [by left | intros l m Hl; by apply elem_of_nil in Hl].
  - set (g1 := match objs g !! l0 with Some _ => _ | None => g end).
    assert (Hstep : objs g1 = objs g ∧ players g1 = players g ∧
                    (∀ x y, boardAt g1 x y = boardAt g x y ∨ boardAt g1 x y = Some None) ∧
                    (∀ m, objs g !! l0 = Some m →
                          m_owner <$> contentAt g1 (m_x m) (m_y m) ≠ Some p)).
    { subst g1. destruct (objs g !! l0) as [m0|] eqn:Hm0;
        [|split_and!; try done; by left].
      case_bool_decide as Hown.
      - split_and!; try done.
        + intros x y.
          destruct (boardAt_setCell g (m_x m0) (m_y m0) x y None) as [?|[_ ?]]; auto.
        + intros m [= <-]. unfold contentAt.
          rewrite boardAt_setCell_eq; [done|].
          unfold contentAt in Hown. destruct (boardAt g (m_x m0) (m_y m0)); [by eexists|done].
      - split_and!; try done; [by left|]. by intros m [= <-]. }
    destruct Hstep as (Ho1 & Hp1 & Hb1 & Hc1).
    destruct (IH g1) as (Ho & Hp & Hb & Hc).
    split_and!.
    + by rewrite Ho.
    + by rewrite Hp.
    + intros x y. destruct (Hb x y) as [Hsame|?]; [|by right].
      rewrite Hsame. apply Hb1.
    + intros l m Hl Hm. apply elem_of_cons in Hl as [->|Hl].
      * specialize (Hc1 m Hm). unfold contentAt in *.
        destruct (Hb (m_x m) (m_y m)) as [Hsame|Hnull]; [|by rewrite Hnull].
        by rewrite Hsame, Ho.
      * apply (Hc l m); [done | by rewrite Ho1].
Qed.

Lemma frame_forfeitTokens (p : string) (ms : list loc) (g : Game) :
  turnActions (forfeitTokens p ms g) = turnActions g ∧
  availableEdges (forfeitTokens p ms g) = availableEdges g ∧
  playerOrder (forfeitTokens p ms g) = playerOrder g ∧
  currentPlayerIndex (forfeitTokens p ms g) = currentPlayerIndex g ∧
  winner (forfeitTokens p ms g) = winner g.
Proof.
  unfold forfeitTokens. revert g.
  induction ms as [|l ms IH]; intros g; simpl; [done|].
  destruct (IH (match objs g !! l with
                | Some monster =>
                    if bool_decide (m_owner <$> contentAt g (m_x monster) (m_y monster)
                                    = Some p)
                    then set_board (setCell (m_x monster) (m_y monster) None (board g)) g
                    else g
                | None => g
                end)) as (-> & -> & -> & -> & ->).
  repeat case_match; done.
Qed.

Lemma frame_dropFromOrder (p : string) (g : Game) :
  players (dropFromOrder p g) = players g ∧ board (dropFromOrder p g) = board g ∧
  objs (dropFromOrder p g) = objs g ∧ availableEdges (dropFromOrder p g) = availableEdges g ∧
  turnActions (dropFromOrder p g) = turnActions g.
Proof. unfold dropFromOrder. repeat case_match; done. Qed.

Lemma frame_repairIndex (g : Game) :
  players (repairIndex g) = players g ∧ board (repairIndex g) = board g ∧
  objs (repairIndex g) = objs g ∧ availableEdges (repairIndex g) = availableEdges g ∧
  playerOrder (repairIndex g) = playerOrder g ∧ turnActions (repairIndex g) = turnActions g.
Proof. unfold repairIndex. repeat case_match; done. Qed.

Lemma frame_settleAfterLeave (g : Game) :
  players (settleAfterLeave g) = players g ∧ board (settleAfterLeave g) = board g ∧
  objs (settleAfterLeave g) = objs g ∧
  availableEdges (settleAfterLeave g) = availableEdges g ∧
  playerOrder (settleAfterLeave g) = playerOrder g ∧
  currentPlayerIndex (settleAfterLeave g) = currentPlayerIndex g ∧
  turnActions (settleAfterLeave g) = turnActions g.
Proof. unfold settleAfterLeave, endGame. repeat case_match; done. Qed.

(** The fields of the session once [removePlayer] has found the player. *)
Lemma removePlayer_fields (p : string) (g : Game) (player : Player) :
  players g !! p = Some player →
  let g2 := forfeitTokens p (p_monsters player) (returnEdge (p_edge player) g) in
  players (removePlayer p g) = delete p (players g) ∧
  board (removePlayer p g) = board g2 ∧
  objs (removePlayer p g) = objs g ∧
  turnActions (removePlayer p g) = delete p (turnActions g) ∧
  availableEdges (removePlayer p g)
    = (arraySort (fun a b r => (edgeIndex a - edgeIndex b, r))
                 (availableEdges g ++ [p_edge player]) []).1.
Proof.
  intros Hp g2. unfold removePlayer. rewrite Hp. fold g2.
  destruct (frame_settleAfterLeave (repairIndex (forgetPlayer p (dropFromOrder p g2))))
    as (-> & -> & -> & -> & _ & _ & ->).
  destruct (frame_repairIndex (forgetPlayer p (dropFromOrder p g2)))
    as (-> & -> & -> & -> & _ & ->).
  unfold forgetPlayer. simpl.
  destruct (frame_dropFromOrder p g2) as (-> & -> & -> & -> & ->).
  destruct (forfeitTokens_board p (p_monsters player) (returnEdge (p_edge player) g))
    as (Ho & Hpl & _ & _).
  fold g2 in Ho, Hpl. rewrite Ho, Hpl.
  destruct (frame_forfeitTokens p (p_monsters player) (returnEdge (p_edge player) g))
    as (Hta & Hae & _).
  fold g2 in Hta, Hae. rewrite Hta, Hae. done.
Qed.

Lemma tokensOk_removePlayer (p : string) (g : Game) :
  tokensOk g → tokensOk (removePlayer p g).
Proof.
  intros [Hroster Hcell].
  destruct (players g !! p) as [player|] eqn:Hp;
    [|unfold removePlayer; by rewrite Hp].
  destruct (removePlayer_fields p g player Hp) as (Hpl & Hb & Ho & _ & _).
  destruct (forfeitTokens_board p (p_monsters player) (returnEdge (p_edge player) g))
    as (Ho2 & _ & Hkeep & Hgone).
  set (g2 := forfeitTokens p (p_monsters player) (returnEdge (p_edge player) g)) in *.
  split.
  - intros q pl l. rewrite Hpl, Ho. intros Hq.
    apply lookup_delete_Some in Hq as [_ Hq]. by apply Hroster.
  - intros x y l. rewrite (boardAt_board g2) by done. rewrite Hpl, Ho. intros Hl.
    assert (Hold : boardAt g x y = Some (Some l)).
    { destruct (Hkeep x y) as [Hsame|Hnull]; [|by rewrite Hnull in Hl].
      by rewrite Hsame in Hl. }
    destruct (Hcell x y l Hold) as (m & pl & Hm & Hx & Hy & Hown & Hin).
    exists m, pl. split_and!; try done.
    apply lookup_delete_Some. split; [|done].
    intros Heq. rewrite <- Heq, Hp in Hown. injection Hown as <-.
    apply (Hgone l m Hin Hm). unfold contentAt.
    rewrite Hx, Hy, Hl, Ho2. simpl. rewrite Hm. simpl. by rewrite Heq.
Qed.

Lemma tokensOk_addPlayer (p : string) (g : Game) :
  tokensOk g → tokensOk (addPlayer p g).1.
Proof.
  intros [Hroster Hcell]. unfold addPlayer.
  destruct (_ || _); [done|].
  destruct (players g !! p) eqn:Hp; [done|].
  destruct (availableEdges g) as [|edge rest]; [done|]. simpl.
  split.
  - intros q pl l Hq. simpl in Hq.
    destruct (decide (q = p)) as [->|Hne].
    + rewrite lookup_insert_eq in Hq. injection Hq as <-. simpl.
      intros Hl. by apply elem_of_nil in Hl.
    + rewrite lookup_insert_ne in Hq by done. by apply Hroster.
  - intros x y l Hl. rewrite (boardAt_board g) in Hl by done.
    destruct (Hcell x y l Hl) as (m & pl & Hm & Hx & Hy & Hown & Hin).
    exists m, pl. simpl. rewrite lookup_insert_ne; [done|].
    intros Heq. by rewrite Heq, Hown in Hp.
Qed.

Lemma frame_skipEliminated (fuel : nat) (g g' : Game) (b : bool) :
  skipEliminated fuel g = Some (g', b) →
  board g' = board g ∧ objs g' = objs g ∧ availableEdges g' = availableEdges g.
Proof.
  revert g. induction fuel as [|fuel IH]; intros g; simpl; [discriminate|].
  unfold endGame.
  repeat case_match; intros Hskip; simplify_eq; try done; by apply IH in Hskip.
Qed.

Lemma frame_endTurn (p : string) (rnd : list Z) (g g' : Game) (o : Outcome) :
  endTurn p rnd g = Some (g', o) →
  players g' = players g ∧ board g' = board g ∧ objs g' = objs g ∧
  availableEdges g' = availableEdges g ∧ playerOrder g' ≡ₚ playerOrder g.
Proof.
  unfold endTurn. case_bool_decide; [intros; by simplify_eq|].
  set (g2 := if (_ =? 0)%nat then _ else _).
  assert (Hg2 : players g2 = players g ∧ board g2 = board g ∧ objs g2 = objs g ∧
                availableEdges g2 = availableEdges g ∧ playerOrder g2 ≡ₚ playerOrder g).
  { subst g2. destruct (_ =? 0)%nat; simpl; split_and!; try done.
    apply arraySort_perm. }
  destruct Hg2 as (Hpl & Hb & Ho & Hae & Hord).
  destruct (skipEliminated _ g2) as [[g3 b]|] eqn:Hskip; [|discriminate].
  destruct (frame_skipEliminated _ _ _ _ Hskip) as (Hb3 & Ho3 & Hae3).
  apply skipEliminated_keeps in Hskip as (_ & Hord3 & Hpl3 & _ & _).
  destruct b; intros Hret; simplify_eq.
  - rewrite Hpl3, Hb3, Ho3, Hae3, Hord3. done.
  - unfold resetTurnActions.
    repeat case_match; simpl; rewrite Hpl3, Hb3, Ho3, Hae3, Hord3; done.
Qed.

Lemma frame_startGame (rnd : list Z) (g : Game) :
  players (startGame rnd g).1 = players g ∧ board (startGame rnd g).1 = board g ∧
  objs (startGame rnd g).1 = objs g ∧
  availableEdges (startGame rnd g).1 = availableEdges g ∧
  playerOrder (startGame rnd g).1 ≡ₚ playerOrder g.
Proof.
  unfold startGame. destruct (_ || _); simpl; split_and!; try done.
  apply arraySort_perm.
Qed.

(** ** Frames of the operations *)

Lemma frame_removeMonster (monsterId ownerId : string) (g : Game) :
  playerOrder (removeMonster monsterId ownerId g) = playerOrder g ∧
  currentPlayerIndex (removeMonster monsterId ownerId g) = currentPlayerIndex g ∧
  availableEdges (removeMonster monsterId ownerId g) = availableEdges g ∧
  round (removeMonster monsterId ownerId g) = round g ∧
  status (removeMonster monsterId ownerId g) = status g ∧
  winner (removeMonster monsterId ownerId g) = winner g ∧
  (∀ q, seat <$> players (removeMonster monsterId ownerId g) !! q
        = seat <$> players g !! q) ∧
  (∀ q, q ≠ ownerId → players (removeMonster monsterId ownerId g) !! q = players g !! q).
Proof.
  unfold removeMonster.
  destruct (players g !! ownerId) as [player|] eqn:Hp; [|done].
  repeat case_match; try done; simpl; split_and!; try done;
    intros q; try (intros Hne; by rewrite lookup_insert_ne);
    (destruct (decide (q = ownerId)) as [->|Hne];
     [by rewrite lookup_insert_eq, Hp | by rewrite lookup_insert_ne]).
Qed.

Lemma frame_handleConflict (x y : Z) (p : string) (e : option loc) (g : Game) :
  playerOrder (handleConflict x y p e g) = playerOrder g ∧
  currentPlayerIndex (handleConflict x y p e g) = currentPlayerIndex g ∧
  availableEdges (handleConflict x y p e g) = availableEdges g ∧
  round (handleConflict x y p e g) = round g ∧
  status (handleConflict x y p e g) = status g ∧
  winner (handleConflict x y p e g) = winner g ∧
  (∀ q, seat <$> players (handleConflict x y p e g) !! q = seat <$> players g !! q).
Proof.
  unfold handleConflict.
  repeat case_match; try done;
    repeat match goal with
      | |- context [removeMonster ?i ?o ?ga] =>
          destruct (frame_removeMonster i o ga) as (-> & -> & -> & -> & -> & -> & Hs & _);
          try (setoid_rewrite Hs; clear Hs)
      end; done.
Qed.

Lemma frame_settleWinner (g : Game) :
  playerOrder (settleWinner g) = playerOrder g ∧
  currentPlayerIndex (settleWinner g) = currentPlayerIndex g ∧
  availableEdges (settleWinner g) = availableEdges g ∧
  round (settleWinner g) = round g ∧
  players (settleWinner g) = players g ∧
  (status (settleWinner g) = status g ∨ status (settleWinner g) = Finished).
Proof.
  unfold settleWinner, endGame. repeat case_match; split_and!; auto.
Qed.

Lemma frame_placeMonster (p type : string) (x y : Z) (monsterId : string) (g : Game) :
  playerOrder (placeMonster p type x y monsterId g).1 = playerOrder g ∧
  currentPlayerIndex (placeMonster p type x y monsterId g).1 = currentPlayerIndex g ∧
  availableEdges (placeMonster p type x y monsterId g).1 = availableEdges g ∧
  round (placeMonster p type x y monsterId g).1 = round g ∧
  status (placeMonster p type x y monsterId g).1 = status g ∧
  winner (placeMonster p type x y monsterId g).1 = winner g ∧
  (∀ q, seat <$> players (placeMonster p type x y monsterId g).1 !! q
        = seat <$> players g !! q).
Proof.
  unfold placeMonster.
  repeat case_match; simpl in *; split_and!; try done;
    intros q; try done;
    (destruct (decide (q = p)) as [->|Hne];
     [rewrite lookup_insert_eq | by rewrite lookup_insert_ne]);
    match goal with
    | H : players g !! p = Some _ |- _ => by rewrite H
    end.
Qed.

Lemma frame_moveMonster (p monsterId : string) (x y : Z) (g : Game) :
  playerOrder (moveMonster p monsterId x y g).1 = playerOrder g ∧
  currentPlayerIndex (moveMonster p monsterId x y g).1 = currentPlayerIndex g ∧
  availableEdges (moveMonster p monsterId x y g).1 = availableEdges g ∧
  round (moveMonster p monsterId x y g).1 = round g ∧
  (status (moveMonster p monsterId x y g).1 = status g ∨
   status (moveMonster p monsterId x y g).1 = Finished) ∧
  (∀ q, seat <$> players (moveMonster p monsterId x y g).1 !! q
        = seat <$> players g !! q).
Proof.
  unfold moveMonster.
  repeat case_match; simpl; try (split_and!; auto; done);
    match goal with
    | |- context [settleWinner ?ga] =>
        destruct (frame_settleWinner ga) as (-> & -> & -> & -> & -> & Hst)
    end;
    try match goal with
    | |- context [handleConflict ?a ?b ?c ?d ?ga] =>
        destruct (frame_handleConflict a b c d ga) as (-> & -> & -> & -> & Hst' & _ & Hs);
        rewrite Hst' in Hst; setoid_rewrite Hs
    end; simpl in *; split_and!; auto.
Qed.

(** ** Players, order and edges *)

#[local] Instance edgeLe_trans : Transitive edgeLe.
Proof. intros a b c. unfold edgeLe. lia. Qed.

Lemma playersOk_seats (g g' : Game) :
  playerOrder g' ≡ₚ playerOrder g → availableEdges g' = availableEdges g →
  (∀ q, seat <$> players g' !! q = seat <$> players g !! q) →
  playersOk g → playersOk g'.
Proof.
  intros Hord Hae Hseat (Hnd & Hdom & Hlen & Hid & Hedge & Hnda & Hfree & Hsort).
  assert (Hback : ∀ q pl, players g' !! q = Some pl →
                          ∃ pl0, players g !! q = Some pl0 ∧ seat pl0 = seat pl).
  { intros q pl Hq. specialize (Hseat q). rewrite Hq in Hseat. simpl in Hseat.
    destruct (players g !! q) as [pl0|]; [|done]. exists pl0. simpl in Hseat. split; [done | congruence]. }
  assert (Hforth : ∀ q pl, players g !! q = Some pl →
                           ∃ pl0, players g' !! q = Some pl0 ∧ seat pl0 = seat pl).
  { intros q pl Hq. specialize (Hseat q). rewrite Hq in Hseat. simpl in Hseat.
    destruct (players g' !! q) as [pl0|]; [|done]. exists pl0. simpl in Hseat. split; [done | congruence]. }
  unfold playersOk. rewrite Hae. split_and!; try done.
  - by rewrite Hord.
  - intros q. rewrite Hord, Hdom. split; intros [pl Hq].
    + destruct (Hforth q pl Hq) as (pl0 & -> & _). by eexists.
    + destruct (Hback q pl Hq) as (pl0 & -> & _). by eexists.
  - by rewrite Hord.
  - intros q pl Hq. destruct (Hback q pl Hq) as (pl0 & Hq0 & Hs).
    injection Hs as Hi He. rewrite <- Hi. by apply Hid.
  - intros p q pl ql Hp Hq He.
    destruct (Hback p pl Hp) as (pl0 & Hp0 & Hs). injection Hs as _ He1.
    destruct (Hback q ql Hq) as (ql0 & Hq0 & Hs'). injection Hs' as _ He2.
    apply (Hedge p q pl0 ql0); try done. congruence.
  - intros e. rewrite Hfree. split; intros Hno p pl Hp.
    + destruct (Hback p pl Hp) as (pl0 & Hp0 & Hs). injection Hs as _ He.
      rewrite <- He. by apply (Hno p).
    + destruct (Hforth p pl Hp) as (pl0 & Hp0 & Hs). injection Hs as _ He.
      rewrite <- He. by apply (Hno p).
Qed.

Lemma playersOk_addPlayer (p : string) (g : Game) :
  playersOk g → playersOk (addPlayer p g).1.
Proof.
  intros Hg. pose proof Hg as (Hnd & Hdom & Hlen & Hid & Hedge & Hnda & Hfree & Hsort).
  unfold addPlayer.
  case_bool_decide as Hfull; simpl; [done|].
  destruct (negb _); [done|].
  destruct (players g !! p) eqn:Hp; [done|].
  destruct (availableEdges g) as [|edge rest] eqn:Hae; [done|]. simpl.
  apply NoDup_cons in Hnda as [Hfresh Hnda].
  apply StronglySorted_inv in Hsort as [Hsort _].
  assert (Hnew : ∀ q ql, players g !! q = Some ql → p_edge ql ≠ edge).
  { apply Hfree. left. }
  unfold playersOk. simpl. split_and!; try done.
  - apply NoDup_app. split_and!; [done | | apply NoDup_singleton].
    intros q Hq Hq'. apply list_elem_of_singleton in Hq' as ->.
    apply Hdom in Hq as [? Hq]. by rewrite Hp in Hq.
  - intros q. rewrite elem_of_app, list_elem_of_singleton, Hdom.
    destruct (decide (q = p)) as [->|Hne].
    + rewrite lookup_insert_eq. split; [by eexists | by right].
    + rewrite lookup_insert_ne by done. split; [by intros [?|?] | by left].
  - rewrite length_app. simpl. lia.
  - intros q ql. destruct (decide (q = p)) as [->|Hne].
    + rewrite lookup_insert_eq. by intros [= <-].
    + rewrite lookup_insert_ne by done. apply Hid.
  - intros q q' ql ql'.
    destruct (decide (q = p)) as [->|Hne], (decide (q' = p)) as [->|Hne'];
      rewrite ?lookup_insert_eq, ?lookup_insert_ne by done; try done.
    + intros [= <-] Hq' He. simpl in He. by destruct (Hnew q' ql' Hq').
    + intros Hq [= <-] He. simpl in He. by destruct (Hnew q ql Hq).
    + apply Hedge.
  - intros e. split.
    + intros He q ql. destruct (decide (q = p)) as [->|Hne].
      * rewrite lookup_insert_eq. intros [= <-]. simpl. by intros ->.
      * rewrite lookup_insert_ne by done. apply Hfree. by right.
    + intros Hno.
      assert (He : e ∈ edge :: rest).
      { apply Hfree. intros q ql Hq. apply (Hno q).
        rewrite lookup_insert_ne; [done|]. intros ->. by rewrite Hp in Hq. }
      apply elem_of_cons in He as [->|He]; [|done].
      by destruct (Hno p (mkPlayer p edge [] 0)); [apply lookup_insert_eq|].
Qed.

Lemma dropFromOrder_order (p : string) (g : Game) :
  NoDup (playerOrder g) →
  NoDup (playerOrder (dropFromOrder p g)) ∧
  (∀ q, q ∈ playerOrder (dropFromOrder p g) ↔ q ∈ playerOrder g ∧ q ≠ p) ∧
  (length (playerOrder (dropFromOrder p g)) ≤ length (playerOrder g))%nat.
Proof.
  intros Hnd. unfold dropFromOrder.
  destruct (list_find _ (playerOrder g)) as [[i q0]|] eqn:Hfind.
  - apply list_find_Some in Hfind as (Hi & -> & _).
    pose proof (delete_Permutation _ _ _ Hi) as Hperm.
    assert (Hnd' : NoDup (p :: delete i (playerOrder g))) by (by rewrite <- Hperm).
    apply NoDup_cons in Hnd' as [Hnotin Hnd'].
    assert (Hin : ∀ q, q ∈ delete i (playerOrder g) ↔ q ∈ playerOrder g ∧ q ≠ p).
    { intros q. split.
      - intros Hq. split; [by eapply list_elem_of_delete_inv | by intros ->].
      - intros [Hq Hne]. by apply (list_elem_of_delete_ne _ i p). }
    assert (Hlen : (length (delete i (playerOrder g)) ≤ length (playerOrder g))%nat)
      by (rewrite length_delete by (by eexists); lia).
    cbv zeta. repeat case_match; simpl; done.
  - split_and!; try done.
    intros q. split; [|by intros [? _]]. intros Hq. split; [done|]. intros ->.
    eapply list_find_None in Hfind. rewrite Forall_forall in Hfind. by apply (Hfind p).
Qed.

Lemma playerOrder_removePlayer (p : string) (g : Game) (player : Player) :
  players g !! p = Some player →
  playerOrder (removePlayer p g)
  = playerOrder (dropFromOrder p (forfeitTokens p (p_monsters player)
                                    (returnEdge (p_edge player) g))).
Proof.
  intros Hp. unfold removePlayer. rewrite Hp.
  destruct (frame_settleAfterLeave
              (repairIndex (forgetPlayer p (dropFromOrder p
                 (forfeitTokens p (p_monsters player) (returnEdge (p_edge player) g))))))
    as (_ & _ & _ & _ & -> & _).
  destruct (frame_repairIndex
              (forgetPlayer p (dropFromOrder p
                 (forfeitTokens p (p_monsters player) (returnEdge (p_edge player) g)))))
    as (_ & _ & _ & _ & -> & _).
  done.
Qed.

Lemma playersOk_removePlayer (p : string) (g : Game) :
  playersOk g → playersOk (removePlayer p g).
Proof.
  intros (Hnd & Hdom & Hlen & Hid & Hedge & Hnda & Hfree & Hsort).
  destruct (players g !! p) as [player|] eqn:Hp;
    [|unfold removePlayer; by rewrite Hp].
  destruct (removePlayer_fields p g player Hp) as (Hpl & _ & _ & _ & Hae).
  pose proof (playerOrder_removePlayer p g player Hp) as Hord.
  destruct (frame_forfeitTokens p (p_monsters player) (returnEdge (p_edge player) g))
    as (_ & _ & Hord2 & _).
  destruct (dropFromOrder_order p
              (forfeitTokens p (p_monsters player) (returnEdge (p_edge player) g)))
    as (Hnd' & Hin' & Hlen'); [by rewrite Hord2|].
  rewrite Hord2 in Hin', Hlen'. simpl in Hin', Hlen'.
  pose proof (arraySort_perm (fun (a b : Edge) (r : list Z) => (edgeIndex a - edgeIndex b, r))
                (availableEdges g ++ [p_edge player]) []) as Hperm.
  assert (Hheld : p_edge player ∉ availableEdges g).
  { intros Hin. by apply (proj1 (Hfree (p_edge player)) Hin p player). }
  unfold playersOk. rewrite Hord, Hpl, Hae. split_and!.
  - done.
  - intros q. rewrite Hin', Hdom. split.
    + intros [[ql Hq] Hne]. exists ql. by apply lookup_delete_Some.
    + intros [ql Hq]. apply lookup_delete_Some in Hq as [Hne Hq]. split; [by eexists | done].
  - lia.
  - intros q ql Hq. apply lookup_delete_Some in Hq as [_ Hq]. by apply Hid.
  - intros q q' ql ql' Hq Hq'.
    apply lookup_delete_Some in Hq as [_ Hq]. apply lookup_delete_Some in Hq' as [_ Hq'].
    by apply Hedge.
  - rewrite Hperm. apply NoDup_app. split_and!; [done | | apply NoDup_singleton].
    intros e He He'. apply list_elem_of_singleton in He' as ->. done.
  - intros e. rewrite Hperm, elem_of_app, list_elem_of_singleton. split.
    + intros [He| ->] q ql Hq; apply lookup_delete_Some in Hq as [Hne Hq].
      * by apply (proj1 (Hfree e) He q).
      * intros Heq. apply Hne. by apply (Hedge p q player ql).
    + intros Hno. destruct (decide (e = p_edge player)) as [->|Hne]; [by right|].
      left. apply Hfree. intros q ql Hq. destruct (decide (q = p)) as [->|Hqp].
      * rewrite Hp in Hq. injection Hq as <-. by intros <-.
      * apply (Hno q). by apply lookup_delete_Some.
  - apply (arraySort_sorted _ edgeLe); intros a b rnd; unfold edgeLe; simpl; lia.
Qed.

(** ** The turn pointer *)

Lemma skipEliminated_index (fuel : nat) (g g' : Game) (b : bool) :
  skipEliminated fuel g = Some (g', b) →
  (currentPlayerIndex g < length (playerOrder g))%nat →
  (currentPlayerIndex g' < length (playerOrder g'))%nat.
Proof.
  revert g. induction fuel as [|fuel IH]; intros g; simpl; [discriminate|].
  intros Hskip Hidx.
  assert (Hmod : ((currentPlayerIndex g + 1) `mod` length (playerOrder g)
                  < length (playerOrder g))%nat)
    by (apply Nat.mod_upper_bound; lia).
  revert Hskip. unfold endGame.
  repeat case_match; intros Hskip; simplify_eq; try done;
    by apply IH in Hskip.
Qed.

Lemma turnOk_endTurn (p : string) (rnd : list Z) (g g' : Game) (o : Outcome) :
  endTurn p rnd g = Some (g', o) → turnOk g → turnOk g'.
Proof.
  unfold endTurn. case_bool_decide as Hcur; [intros; by simplify_eq|].
  intros Hret Hg.
  assert (Hp : getCurrentPlayer g = Some p)
    by (destruct (decide (getCurrentPlayer g = Some p)); [done | by destruct Hcur]).
  apply getCurrentPlayer_Some in Hp as [Hst _].
  destruct (Hg Hst) as [Hlen Hidx].
  set (g2 := if (_ =? 0)%nat then _ else _) in Hret.
  assert (Hg2 : playerOrder g2 ≡ₚ playerOrder g ∧
                (currentPlayerIndex g2 < length (playerOrder g2))%nat).
  { subst g2. destruct (_ =? 0)%nat; simpl.
    - split; [apply arraySort_perm|]. rewrite arraySort_perm. lia.
    - split; [done|]. apply Nat.mod_upper_bound. lia. }
  destruct Hg2 as [Hperm Hidx2].
  destruct (skipEliminated _ g2) as [[g3 b]|] eqn:Hskip; [|discriminate].
  pose proof (skipEliminated_index _ _ _ _ Hskip Hidx2) as Hidx3.
  apply skipEliminated_keeps in Hskip as (_ & Hord & _ & _ & _).
  assert (Hlen3 : (2 ≤ length (playerOrder g3))%nat) by (rewrite Hord, Hperm; lia).
  destruct b; simplify_eq; intros _; [done|].
  unfold resetTurnActions. repeat case_match; done.
Qed.

Lemma turnOk_removePlayer (p : string) (g : Game) : turnOk g → turnOk (removePlayer p g).
Proof.
  intros Hg. unfold removePlayer.
  destruct (players g !! p) as [player|]; [|done].
  generalize (forgetPlayer p (dropFromOrder p
                (forfeitTokens p (p_monsters player) (returnEdge (p_edge player) g)))).
  intros g4.
  assert (Hrepair : status (repairIndex g4) = Active →
                    (currentPlayerIndex (repairIndex g4)
                     < length (playerOrder (repairIndex g4)))%nat).
  { unfold repairIndex.
    destruct (bool_decide (status g4 = Active)) eqn:Hst;
      destruct (Nat.ltb_spec 0 (length (playerOrder g4))); simpl.
    - intros _. apply Nat.mod_upper_bound. lia.
    - destruct (Nat.eqb_spec (length (playerOrder g4)) 0); [done | lia].
    - apply bool_decide_eq_false in Hst.
      destruct (Nat.eqb_spec (length (playerOrder g4)) 0); done.
    - apply bool_decide_eq_false in Hst.
      destruct (Nat.eqb_spec (length (playerOrder g4)) 0); done. }
  unfold settleAfterLeave, turnOk.
  case_bool_decide as Hst; [|done].
  unfold endGame. rewrite Hst.
  repeat case_match; simpl; try done; intros _;
    (split; [|by apply Hrepair]);
    match goal with
    | H : (_ <? 2)%nat = false |- _ => apply Nat.ltb_ge in H; exact H
    end.
Qed.

(** ** The shape of the board *)

Lemma boardShape_same (g g' : Game) : board g' = board g → boardShape g → boardShape g'.
Proof. unfold boardShape. by intros ->. Qed.

Lemma boardShape_removeMonster (monsterId ownerId : string) (g : Game) :
  boardShape g → boardShape (removeMonster monsterId ownerId g).
Proof.
  intros Hg. unfold removeMonster. repeat case_match; try done;
    match goal with
    | |- boardShape (set_players _ ?ga) => apply (boardShape_same ga); [done|]
    end; try done; by apply boardShape_setCell.
Qed.

Lemma boardShape_handleConflict (x y : Z) (p : string) (e : option loc) (g : Game) :
  boardShape g → boardShape (handleConflict x y p e g).
Proof.
  intros Hg. unfold handleConflict.
  repeat case_match; try done; repeat apply boardShape_removeMonster; done.
Qed.

Lemma boardShape_relocate (l : loc) (monster : Monster) (x y : Z) (g : Game) :
  boardShape g → boardShape (relocate l monster x y g).
Proof.
  intros Hg. unfold relocate.
  eapply boardShape_same; [|apply boardShape_setCell, boardShape_setCell, Hg]. done.
Qed.

Lemma boardShape_placeMonster (p type : string) (x y : Z) (monsterId : string) (g : Game) :
  boardShape g → boardShape (placeMonster p type x y monsterId g).1.
Proof.
  intros Hg. unfold placeMonster.
  repeat case_match; simpl; try done;
    (eapply boardShape_same; [|by apply (boardShape_setCell g x y)]); done.
Qed.

Lemma boardShape_moveMonster (p monsterId : string) (x y : Z) (g : Game) :
  boardShape g → boardShape (moveMonster p monsterId x y g).1.
Proof.
  intros Hg. unfold moveMonster.
  repeat case_match; simpl; try done;
    try (by apply boardShape_relocate);
    match goal with
    | |- boardShape (settleWinner ?ga) =>
        destruct (board_settleWinner ga) as (Hb & _ & _);
        apply (boardShape_same ga); [exact Hb|]
    end;
    try apply boardShape_handleConflict;
    (eapply boardShape_same; [|by apply boardShape_relocate]); done.
Qed.

Lemma boardShape_forfeitTokens (p : string) (ms : list loc) (g : Game) :
  boardShape g → boardShape (forfeitTokens p ms g).
Proof.
  unfold forfeitTokens. revert g.
  induction ms as [|l ms IH]; intros g Hg; simpl; [done|].
  apply IH. repeat case_match; try done. by apply boardShape_setCell.
Qed.

Lemma boardShape_removePlayer (p : string) (g : Game) :
  boardShape g → boardShape (removePlayer p g).
Proof.
  intros Hg.
  destruct (players g !! p) as [player|] eqn:Hp;
    [|unfold removePlayer; by rewrite Hp].
  destruct (removePlayer_fields p g player Hp) as (_ & Hb & _).
  eapply boardShape_same; [exact Hb|].
  apply boardShape_forfeitTokens. by eapply boardShape_same.
Qed.

(** ** Every session the operations produce *)

Lemma sessionOk_step (g g' : Game) : Step g g' → sessionOk g → sessionOk g'.
Proof.
  intros Hstep (Hpl & Hturn & Hshape & Htok). destruct Hstep.
  - split_and!.
    + by apply playersOk_addPlayer.
    + unfold turnOk, addPlayer in *.
      case_bool_decide; simpl; [done|].
      case_bool_decide as Hw; simpl; [|done].
      repeat case_match; simpl; try done; intros Hact; by rewrite Hw in Hact.
    + unfold addPlayer. repeat case_match; done.
    + by apply tokensOk_addPlayer.
  - destruct (frame_startGame rnd g) as (Hp & Hb & Ho & Hae & Hord). split_and!.
    + apply (playersOk_seats g); try done. intros q. by rewrite Hp.
    + unfold turnOk, startGame in *.
      case_bool_decide as Hw; simpl; [|done].
      case_bool_decide as Hlen; simpl; [intros Hact; by rewrite Hw in Hact|].
      intros _. rewrite arraySort_perm. lia.
    + by apply (boardShape_same g).
    + by apply (tokensOk_same g).
  - destruct (frame_placeMonster p type x y monsterId g)
      as (Hord & Hidx & Hae & _ & Hst & _ & Hseat).
    split_and!.
    + apply (playersOk_seats g); try done. by rewrite Hord.
    + unfold turnOk. by rewrite Hord, Hidx, Hst.
    + by apply boardShape_placeMonster.
    + by apply tokensOk_placeMonster.
  - destruct (frame_moveMonster p monsterId x y g) as (Hord & Hidx & Hae & _ & Hst & Hseat).
    split_and!.
    + apply (playersOk_seats g); try done. by rewrite Hord.
    + unfold turnOk. rewrite Hord, Hidx. destruct Hst as [-> | ->]; done.
    + by apply boardShape_moveMonster.
    + by apply tokensOk_moveMonster.
  - destruct (frame_endTurn _ _ _ _ _ H) as (Hp & Hb & Ho & Hae & Hord). split_and!.
    + apply (playersOk_seats g); try done. intros q. by rewrite Hp.
    + by eapply turnOk_endTurn.
    + by apply (boardShape_same g).
    + by apply (tokensOk_same g).
  - split_and!.
    + by apply playersOk_removePlayer.
    + by apply turnOk_removePlayer.
    + by apply boardShape_removePlayer.
    + by apply tokensOk_removePlayer.
Qed.

(** The session the constructor returns. *)
Lemma newGame_fields (gameId creatorId : string) :
  newGame gameId creatorId
  = mkGame gameId (<[creatorId := mkPlayer creatorId EdgeTop [] 0]> ∅) emptyBoard
           [creatorId] 0 1 [EdgeBottom; EdgeLeft; EdgeRight] Waiting None ∅ [].
Proof. unfold newGame, addPlayer. simpl. by rewrite lookup_empty. Qed.

Lemma sessionOk_new (gameId creatorId : string) : sessionOk (newGame gameId creatorId).
Proof.
  rewrite newGame_fields. split_and!.
  - unfold playersOk. simpl. split_and!.
    + apply NoDup_singleton.
    + intros q. rewrite list_elem_of_singleton. split.
      * intros ->. rewrite lookup_insert_eq. by eexists.
      * intros [ql Hq]. apply lookup_insert_Some in Hq as [[? _]|[_ Hq]]; done.
    + lia.
    + intros q ql Hq. apply lookup_insert_Some in Hq as [[<- <-]|[_ Hq]]; done.
    + intros q q' ql ql' Hq Hq' _.
      apply lookup_insert_Some in Hq as [[<- _]|[_ Hq]]; [|done].
      apply lookup_insert_Some in Hq' as [[<- _]|[_ Hq']]; done.
    + repeat (apply NoDup_cons_2;
              [intros He; repeat (apply elem_of_cons in He as [He|He]; [done|]);
               by apply elem_of_nil in He|]).
      apply NoDup_nil_2.
    + intros e. split.
      * intros He q ql Hq. apply lookup_insert_Some in Hq as [[_ <-]|[_ Hq]]; [|done].
        simpl. intros <-.
        repeat (apply elem_of_cons in He as [He|He]; [done|]). by apply elem_of_nil in He.
      * intros Hno. specialize (Hno creatorId _ (lookup_insert_eq _ _ _)). simpl in Hno.
        destruct e; [done | ..];
          repeat first [apply list_elem_of_here | apply list_elem_of_further].
    + repeat (constructor; [|repeat constructor; unfold edgeLe; simpl; lia]).
      constructor.
  - intros Hact. done.
  - split; [done|]. repeat constructor.
  - split.
    + intros q ql l Hq. simpl in Hq.
      apply lookup_insert_Some in Hq as [[_ <-]|[_ Hq]]; [|done].
      simpl. intros Hl. by apply elem_of_nil in Hl.
    + intros x y l. unfold boardAt. simpl.
      destruct (_ || _); [done|].
      intros Hl. apply bind_Some in Hl as (row & Hrow & Hcell).
      apply list_elem_of_lookup_2 in Hrow.
      assert (row = replicate 10 None)
        by (repeat (apply elem_of_cons in Hrow as [?|Hrow]; [done|]);
            by apply elem_of_nil in Hrow).
      subst row. apply list_elem_of_lookup_2 in Hcell.
      repeat (apply elem_of_cons in Hcell as [?|Hcell]; [done|]).
      by apply elem_of_nil in Hcell.
Qed.

Lemma sessionOk_reachable (g : Game) : Reachable g → sessionOk g.
Proof.
  induction 1 as [gameId creatorId | g g' _ IH Hstep].
  - apply sessionOk_new.
  - by apply (sessionOk_step g g').
Qed.

(** ** Rejected calls *)

(** X6: a call that is turned down has no side effect: when
    [placeMonster], [moveMonster], [endTurn] or [addPlayer] returns a
    result without success, and when [startGame] returns [false], the
    session is the one that was given. *)
Theorem rejections_change_nothing :
  (∀ p type x y monsterId g g' r,
     placeMonster p type x y monsterId g = (g', Returned r) → success r = false → g' = g) ∧
  (∀ p monsterId x y g g' r,
     moveMonster p monsterId x y g = (g', Returned r) → success r = false → g' = g) ∧
  (∀ p rnd g g' r,
     endTurn p rnd g = Some (g', Returned r) → success r = false → g' = g) ∧
  (∀ p g g' r, addPlayer p g = (g', r) → success r = false → g' = g) ∧
  (∀ rnd g g', startGame rnd g = (g', false) → g' = g).
Proof.
  split_and!.
  - intros p type x y monsterId g g' r. unfold placeMonster.
    repeat case_match; intros Hret Hfail; by simplify_eq.
  - intros p monsterId x y g g' r. unfold moveMonster.
    repeat case_match; intros Hret Hfail; by simplify_eq.
  - intros p rnd g g' r. unfold endTurn.
    repeat case_match; intros Hret Hfail; by simplify_eq.
  - intros p g g' r. unfold addPlayer.
    repeat case_match; intros Hret Hfail; by simplify_eq.
  - intros rnd g g'. unfold startGame.
    repeat case_match; intros Hret; by simplify_eq.
Qed.

(** ** Placing *)

(** What a successful [placeMonster] has checked and done. *)
Lemma placeMonster_success (p type : string) (x y : Z) (monsterId : string)
      (g g' : Game) (r : Result) :
  placeMonster p type x y monsterId g = (g', Returned r) → success r = true →
  ∃ player ta,
    getCurrentPlayer g = Some p ∧ type ∈ validTypes ∧
    players g !! p = Some player ∧ inBounds x y = true ∧
    boardAt g x y = Some None ∧ edgeClaims (p_edge player) x y = true ∧
    turnActions g !! p = Some ta ∧ placedMonster ta = false ∧
    r = mkResult true (Some (MsgPlaced type x y)) None ∧
    g' = set_turnActions
           (<[p := mkTurnAction true (movedMonsters ta) (placedMonsterId ta)]>
              (turnActions g))
           (set_board (setCell x y (Some (length (objs g))) (board g))
              (set_players
                 (<[p := mkPlayer (p_id player) (p_edge player)
                                  (p_monsters player ++ [length (objs g)])
                                  (p_monstersLost player)]> (players g))
                 (set_objs (objs g ++ [mkMonster monsterId type x y p]) g))).
Proof.
  unfold placeMonster.
  case_bool_decide as Hcur; [intros; by simplify_eq|].
  destruct (default false (placedMonster <$> turnActions g !! p)) eqn:Hplaced;
    [intros; by simplify_eq|].
  case_bool_decide as Htype; simpl; [|intros; by simplify_eq].
  destruct (isValidPlacement g p x y) eqn:Hvalid; simpl; [|intros; by simplify_eq].
  apply isValidPlacement_spec in Hvalid as (player & Hp & Hin & Hempty & Hedge).
  rewrite Hp.
  destruct (turnActions g !! p) as [ta|] eqn:Hta; [|intros; by simplify_eq].
  intros Hret _. simplify_eq. exists player, ta. by split_and!.
Qed.

(** X7: a successful placement puts the new token, with the given type,
    the caller as owner and the coordinates asked for, on the cell asked
    for, which was empty and lies on the caller's edge; every other cell
    holds what it held, every other player's record is as before, and the
    caller's roster has grown by this one token. *)
Theorem placeMonster_places (p type : string) (x y : Z) (monsterId : string)
        (g g' : Game) (r : Result) :
  placeMonster p type x y monsterId g = (g', Returned r) → success r = true →
  isValidPlacement g p x y = true ∧ type ∈ validTypes ∧
  contentAt g x y = None ∧
  contentAt g' x y = Some (mkMonster monsterId type x y p) ∧
  (∀ x' y', (x', y') ≠ (x, y) →
            boardAt g' x' y' = boardAt g x' y' ∧
            ∀ m, contentAt g x' y' = Some m → contentAt g' x' y' = Some m) ∧
  monsterCount g' p = S <$> monsterCount g p ∧
  (∀ q, q ≠ p → players g' !! q = players g !! q).
Proof.
  intros Hret Hok.
  destruct (placeMonster_success _ _ _ _ _ _ _ _ Hret Hok)
    as (player & ta & Hcur & Htype & Hp & Hin & Hempty & Hedge & Hta & Hnot & -> & ->).
  split_and!.
  - apply isValidPlacement_spec. by exists player.
  - done.
  - unfold contentAt. by rewrite Hempty.
  - unfold contentAt.
    rewrite (boardAt_board (set_board (setCell x y (Some (length (objs g))) (board g)) g))
      by done.
    rewrite (boardAt_setCell_eq g) by (rewrite Hempty; by eexists).
    simpl. by rewrite lookup_app_r, Nat.sub_diag.
  - intros x' y' Hne.
    assert (Hcell : boardAt
              (set_turnActions
                 (<[p := mkTurnAction true (movedMonsters ta) (placedMonsterId ta)]>
                    (turnActions g))
                 (set_board (setCell x y (Some (length (objs g))) (board g))
                    (set_players
                       (<[p := mkPlayer (p_id player) (p_edge player)
                                        (p_monsters player ++ [length (objs g)])
                                        (p_monstersLost player)]> (players g))
                       (set_objs (objs g ++ [mkMonster monsterId type x y p]) g))))
              x' y' = boardAt g x' y').
    { rewrite (boardAt_board
                 (set_board (setCell x y (Some (length (objs g))) (board g)) g)) by done.
      by apply (boardAt_setCell_ne g). }
    split; [done|]. intros m. unfold contentAt. rewrite Hcell. simpl.
    destruct (boardAt g x' y') as [[l|]|]; try done. apply lookup_app_l_Some.
  - unfold monsterCount. simpl. rewrite lookup_insert_eq, Hp. simpl.
    rewrite length_app. simpl. f_equal. lia.
  - intros q Hne. simpl. by rewrite lookup_insert_ne.
Qed.

(** ** What holds of every session *)

(** X9: in every session the operations can produce, [playerOrder] lists
    exactly the players of [players], each once and at most four; each
    record carries its key as id; no two players hold the same edge; and
    [availableEdges] lists, once each and in the order top, bottom, left,
    right, exactly the edges no player holds. *)
Theorem reachable_players_and_edges (g : Game) : Reachable g → playersOk g.
Proof. intros Hg. by apply sessionOk_reachable in Hg as (? & _). Qed.

(** X10: in every active session the operations can produce, at least two
    players are in the order and [getCurrentPlayer] returns one of them,
    a player of the session. *)
Theorem reachable_current_player (g : Game) :
  Reachable g → status g = Active →
  (2 ≤ length (playerOrder g))%nat ∧
  ∃ p, getCurrentPlayer g = Some p ∧ p ∈ playerOrder g ∧ is_Some (players g !! p).
Proof.
  intros Hg Hst. apply sessionOk_reachable in Hg as (Hpl & Hturn & _).
  destruct (Hturn Hst) as [Hlen Hidx]. split; [done|].
  destruct (lookup_lt_is_Some_2 _ _ Hidx) as [p Hp].
  exists p. unfold getCurrentPlayer. rewrite Hst.
  assert (Hin : p ∈ playerOrder g) by (by eapply list_elem_of_lookup_2).
  destruct Hpl as (_ & Hdom & _).
  split_and!; [by destruct (playerOrder g) | done | by apply Hdom].
Qed.

(** X11: in every session the operations can produce, the board is 10 by
    10; a token that stands on a cell records the coordinates of that
    cell, its owner is a player of the session and it is in that player's
    roster; every token of a roster belongs to the roster's player and
    lies within bounds. *)
Theorem reachable_board_and_rosters (g : Game) :
  Reachable g → boardShape g ∧ tokensOk g.
Proof. intros Hg. by apply sessionOk_reachable in Hg as (_ & _ & ? & ?). Qed.

(** ** A finished session *)

Lemma getCurrentPlayer_finished (g : Game) : status g = Finished → getCurrentPlayer g = None.
Proof. intros Hst. unfold getCurrentPlayer. by rewrite Hst. Qed.

(** X12: a finished session stays finished.  [placeMonster],
    [moveMonster] and [endTurn] answer "Not your turn.", [addPlayer]
    answers "Game full or already started.", [startGame] returns [false],
    all leaving the session as it is; [removePlayer] may still take a
    player out, and leaves the status finished. *)
Theorem finished_stays_finished (g : Game) :
  status g = Finished →
  (∀ p type x y monsterId,
     placeMonster p type x y monsterId g = (g, Returned (failure "Not your turn."))) ∧
  (∀ p monsterId x y,
     moveMonster p monsterId x y g = (g, Returned (failure "Not your turn."))) ∧
  (∀ p rnd, endTurn p rnd g = Some (g, Returned (failure "Not your turn."))) ∧
  (∀ p, addPlayer p g = (g, failure "Game full or already started.")) ∧
  (∀ rnd, startGame rnd g = (g, false)) ∧
  (∀ p, status (removePlayer p g) = Finished).
Proof.
  intros Hst. pose proof (getCurrentPlayer_finished g Hst) as Hcur.
  split_and!; intros.
  - unfold placeMonster. rewrite Hcur. by rewrite bool_decide_eq_true_2.
  - unfold moveMonster. rewrite Hcur. by rewrite bool_decide_eq_true_2.
  - unfold endTurn. rewrite Hcur. by rewrite bool_decide_eq_true_2.
  - unfold addPlayer. rewrite Hst. simpl. by rewrite orb_true_r.
  - unfold startGame. by rewrite Hst.
  - unfold removePlayer. destruct (players g !! p) as [player|]; [|done].
    set (g4 := forgetPlayer p _).
    assert (Hst4 : status g4 = Finished).
    { subst g4. unfold forgetPlayer. simpl.
      by rewrite status_dropFromOrder, status_forfeitTokens. }
    assert (Hst5 : status (repairIndex g4) = Finished).
    { unfold repairIndex. rewrite Hst4. simpl. by destruct (_ =? 0)%nat. }
    unfold settleAfterLeave. by rewrite Hst5.
Qed.

(** ** Starting *)

(** X13: [startGame] succeeds exactly on a waiting session with at least
    two players.  It then makes the session active at round 1 with the
    index at 0, keeps the players and shuffles their order (a permutation
    of the old one), and gives every player of the order a fresh turn
    record. *)
Theorem startGame_starts (rnd : list Z) (g : Game) :
  ((startGame rnd g).2 = true ↔
   status g = Waiting ∧ (2 ≤ length (playerOrder g))%nat) ∧
  ((startGame rnd g).2 = true →
   status (startGame rnd g).1 = Active ∧
   round (startGame rnd g).1 = 1%nat ∧
   currentPlayerIndex (startGame rnd g).1 = 0%nat ∧
   playerOrder (startGame rnd g).1 ≡ₚ playerOrder g ∧
   players (startGame rnd g).1 = players g ∧
   board (startGame rnd g).1 = board g ∧
   (∀ p, p ∈ playerOrder g →
         turnActions (startGame rnd g).1 !! p = Some freshTurnAction) ∧
   (∀ p, p ∉ playerOrder g →
         turnActions (startGame rnd g).1 !! p = turnActions g !! p)).
Proof.
  unfold startGame.
  destruct (decide (status g = Waiting)) as [Hw|Hw];
    destruct (decide (length (playerOrder g) < 2)%nat) as [Hlen|Hlen];
    rewrite ?(bool_decide_eq_true_2 _ Hw), ?(bool_decide_eq_false_2 _ Hw),
      ?(bool_decide_eq_true_2 _ Hlen), ?(bool_decide_eq_false_2 _ Hlen); simpl;
    try (split; [split; [done | intros [? ?]; done || lia] | done]).
  split; [split; [intros _; split; [done | lia] | done]|].
  intros _.
  pose proof (arraySort_perm (fun (_ _ : string) (r : list Z) => draw r)
                (playerOrder g) rnd) as Hperm.
  split_and!; try done.
  - intros p Hp. rewrite resetAll_lookup. rewrite decide_True; [done|]. by rewrite Hperm.
  - intros p Hp. rewrite resetAll_lookup. rewrite decide_False; [done|]. by rewrite Hperm.
Qed.

(** ** Handing the turn on *)

Lemma checkForWinner_Some (g : Game) (w : string) :
  checkForWinner g = Some w → activePlayers g = [w].
Proof.
  unfold checkForWinner. destruct (activePlayers g) as [|a [|b rest]]; try done.
  case_bool_decide; [|done]. by intros [= ->].
Qed.

(** How the skip loop leaves an active session: by [return] with the
    session finished, as a draw when nobody is left and for the one
    player left otherwise; or with a current player who is not
    eliminated. *)
Lemma skipEliminated_exit (fuel : nat) (g g' : Game) (b : bool) :
  skipEliminated fuel g = Some (g', b) → status g = Active →
  if b then status g' = Finished ∧
            ((winner g' = None ∧ activePlayers g' = []) ∨
             ∃ w, winner g' = Some w ∧ activePlayers g' = [w])
  else status g' = Active ∧ isPlayerEliminated g' (getCurrentPlayer g') = false.
Proof.
  revert g. induction fuel as [|fuel IH]; intros g; simpl; [discriminate|].
  intros Hskip Hst. rewrite Hst in Hskip. rewrite bool_decide_eq_true_2 in Hskip by done.
  rewrite andb_true_r in Hskip.
  destruct (isPlayerEliminated g (getCurrentPlayer g)) eqn:Helim;
    [|by simplify_eq].
  set (g1 := set_currentPlayerIndex _ g) in *.
  assert (Hst1 : status g1 = Active) by done.
  assert (Hend : ∀ w, status (endGame w g1) = Finished ∧ winner (endGame w g1) = w ∧
                      activePlayers (endGame w g1) = activePlayers g1).
  { intros w. unfold endGame. rewrite Hst1. done. }
  destruct ((currentPlayerIndex g + 1) `mod` length (playerOrder g) =? 0)%nat;
    [|by apply (IH g1)].
  destruct (checkForWinner g1) as [w|] eqn:Hw.
  - destruct (truthy w).
    + simplify_eq. destruct (Hend (Some w)) as (-> & -> & ->).
      split; [done|]. right. exists w. split; [done|]. by apply checkForWinner_Some.
    + destruct (Nat.eqb_spec (length (activePlayers g1)) 0) as [Hzero|_];
        [|by apply (IH g1)].
      simplify_eq. destruct (Hend None) as (-> & -> & ->).
      split; [done|]. left. split; [done|]. by destruct (activePlayers g1).
  - destruct (Nat.eqb_spec (length (activePlayers g1)) 0) as [Hzero|_];
      [|by apply (IH g1)].
    simplify_eq. destruct (Hend None) as (-> & -> & ->).
    split; [done|]. left. split; [done|]. by destruct (activePlayers g1).
Qed.

(** The call that ends a turn within a round, the next player in the
    order not being eliminated. *)
Lemma endTurn_next (p q : string) (rnd : list Z) (g : Game) :
  getCurrentPlayer g = Some p →
  ((currentPlayerIndex g + 1) `mod` length (playerOrder g) ≠ 0)%nat →
  playerOrder g !! ((currentPlayerIndex g + 1) `mod` length (playerOrder g))%nat = Some q →
  isPlayerEliminated g (Some q) = false →
  endTurn p rnd g
  = Some (resetTurnActions (Some q)
            (set_currentPlayerIndex
               ((currentPlayerIndex g + 1) `mod` length (playerOrder g))%nat g),
          Returned
            (mkResult true None
               (Some (getState
                        (resetTurnActions (Some q)
                           (set_currentPlayerIndex
                              ((currentPlayerIndex g + 1) `mod` length (playerOrder g))%nat
                              g)))))).
Proof.
  intros Hcur Hwrap Hq Hlive.
  pose proof (getCurrentPlayer_Some _ _ Hcur) as [Hst _].
  unfold endTurn. rewrite bool_decide_eq_false_2 by (intros Hne; by apply Hne).
  set (g1 := set_currentPlayerIndex _ g).
  assert (Hq1 : getCurrentPlayer g1 = Some q).
  { unfold getCurrentPlayer. simpl. rewrite Hst.
    destruct (playerOrder g) eqn:Ho; [by rewrite lookup_nil in Hq | done]. }
  destruct (Nat.eqb_spec (currentPlayerIndex g1) 0) as [Hzero|_]; [done|].
  rewrite Nat.add_1_r. cbn [skipEliminated].
  rewrite Hq1. rewrite (isPlayerEliminated_players g g1) by done.
  rewrite Hlive. cbn [andb]. by rewrite Hq1.
Qed.

(** X14: a successful [endTurn] either leaves the session active, with a
    current player who is not eliminated and whose turn record is fresh,
    or finishes it: as a draw, nobody being left, or with the one player
    left recorded as winner.  Either way it returns the snapshot of the
    session it leaves.  Within a round (the index does not wrap to 0),
    when the next player in the order is not eliminated, the turn passes
    to that player, and round, order and players stay as they are. *)
Theorem endTurn_hands_over (p : string) (rnd : list Z) (g g' : Game) (r : Result) :
  endTurn p rnd g = Some (g', Returned r) → success r = true →
  r = mkResult true None (Some (getState g')) ∧
  ((status g' = Active ∧
    ∃ q, getCurrentPlayer g' = Some q ∧ isPlayerEliminated g' (Some q) = false ∧
         turnActions g' !! q = Some freshTurnAction) ∨
   (status g' = Finished ∧
    ((winner g' = None ∧ activePlayers g' = []) ∨
     ∃ w, winner g' = Some w ∧ activePlayers g' = [w]))) ∧
  (∀ q, ((currentPlayerIndex g + 1) `mod` length (playerOrder g) ≠ 0)%nat →
        playerOrder g !! ((currentPlayerIndex g + 1) `mod` length (playerOrder g))%nat
        = Some q →
        isPlayerEliminated g (Some q) = false →
        getCurrentPlayer g' = Some q ∧ round g' = round g ∧
        playerOrder g' = playerOrder g ∧ players g' = players g).
Proof.
  intros Hret Hok.
  assert (Hp : getCurrentPlayer g = Some p).
  { destruct (decide (getCurrentPlayer g = Some p)) as [|Hne]; [done|].
    unfold endTurn in Hret. rewrite bool_decide_eq_true_2 in Hret by done.
    by simplify_eq. }
  apply and_assoc. split; [|intros q Hwrap Hq Hlive].
  2:{ rewrite (endTurn_next p q rnd g Hp Hwrap Hq Hlive) in Hret.
      set (g1 := set_currentPlayerIndex _ g) in Hret.
      assert (Hg' : resetTurnActions (Some q) g1 = g')
        by (injection Hret; intros _ Hg'; exact Hg').
      subst g'.
      assert (Hq1 : getCurrentPlayer g1 = Some q).
      { pose proof (getCurrentPlayer_Some _ _ Hp) as [Hst _].
        unfold getCurrentPlayer. simpl. rewrite Hst.
        destruct (playerOrder g) eqn:Ho; [by rewrite lookup_nil in Hq | done]. }
      destruct (resetTurnActions_current g1 q Hq1) as (H1 & _ & H2 & H3 & H4 & _).
      by rewrite H1, H2, H3, H4. }
  revert Hret Hok.
  unfold endTurn. case_bool_decide as Hcur; [intros; by simplify_eq|].
  intros Hret Hok.
  apply getCurrentPlayer_Some in Hp as [Hst _].
  set (g2 := if (_ =? 0)%nat then _ else _) in Hret.
  assert (Hst2 : status g2 = Active) by (subst g2; by destruct (_ =? 0)%nat).
  destruct (skipEliminated _ g2) as [[g3 b]|] eqn:Hskip; [|discriminate].
  pose proof (skipEliminated_exit _ _ _ _ Hskip Hst2) as Hexit.
  destruct b; simplify_eq.
  - split; [done|]. by right.
  - split; [done|]. left. destruct Hexit as [Hst3 Helim].
    destruct (getCurrentPlayer g3) as [q|] eqn:Hq; [|done].
    destruct (resetTurnActions_current g3 q Hq) as (Hcur' & Hst' & _ & _ & Hpl' & Hfresh & _).
    split; [by rewrite Hst'|]. exists q. split_and!; try done.
    by rewrite (isPlayerEliminated_players g3).
Qed.

(** ** Joining *)

(** X15: [addPlayer] succeeds exactly on a waiting session with fewer
    than four players that does not have the player yet and has an edge
    left.  The joiner then gets the first edge of [availableEdges], with
    an empty roster and no loss, and goes to the end of [playerOrder]; in
    a session the operations can produce that edge is, in the order top,
    bottom, left, right, the first that no player holds. *)
Theorem addPlayer_joins (p : string) (g : Game) :
  (success (addPlayer p g).2 = true ↔
   (length (playerOrder g) < 4)%nat ∧ status g = Waiting ∧
   players g !! p = None ∧ availableEdges g ≠ []) ∧
  (success (addPlayer p g).2 = true →
   ∃ edge rest,
     availableEdges g = edge :: rest ∧
     availableEdges (addPlayer p g).1 = rest ∧
     players (addPlayer p g).1 = <[p := mkPlayer p edge [] 0]> (players g) ∧
     playerOrder (addPlayer p g).1 = playerOrder g ++ [p] ∧
     board (addPlayer p g).1 = board g ∧
     status (addPlayer p g).1 = Waiting ∧
     (Reachable g →
      ∀ e, (∀ q ql, players g !! q = Some ql → p_edge ql ≠ e) → edgeLe edge e)).
Proof.
  unfold addPlayer.
  destruct (decide (4 ≤ length (playerOrder g))%nat) as [Hfull|Hfull];
    [rewrite bool_decide_eq_true_2 by done; simpl;
     split; [split; [done | lia] | done]|].
  rewrite (bool_decide_eq_false_2 _ Hfull). simpl.
  destruct (decide (status g = Waiting)) as [Hw|Hw];
    [|rewrite bool_decide_eq_false_2 by done; simpl;
      split; [split; [done | by intros (_ & ? & _)] | done]].
  rewrite bool_decide_eq_true_2 by done. simpl.
  destruct (players g !! p) as [pl|] eqn:Hp; simpl;
    [split; [split; [done | by intros (_ & _ & ? & _)] | done]|].
  destruct (availableEdges g) as [|edge rest] eqn:Hae; simpl;
    [split; [split; [done | by intros (_ & _ & _ & ?)] | done]|].
  split; [split; [intros _; split_and!; [lia | done..] | done]|].
  intros _. exists edge, rest. split_and!; try done.
  intros Hg e Hfree. apply sessionOk_reachable in Hg as ((_ & _ & _ & _ & _ & _ & Hav & Hsort) & _).
  rewrite Hae in Hav, Hsort. apply Hav in Hfree.
  apply StronglySorted_inv in Hsort as [_ Hall].
  apply elem_of_cons in Hfree as [->|Hin]; [unfold edgeLe; lia|].
  rewrite Forall_forall in Hall. by apply Hall.
Qed.

(** ** Leaving *)

(** The forfeit loop leaves the tokens of the other players standing. *)
Lemma forfeitTokens_spares (p : string) (ms : list loc) (g : Game) (x y : Z) (m : Monster) :
  contentAt g x y = Some m → m_owner m ≠ p →
  contentAt (forfeitTokens p ms g) x y = Some m.
Proof.
  unfold forfeitTokens. revert g.
  induction ms as [|l ms IH]; intros g Hm Hne; simpl; [done|].
  apply IH; [|done].
  destruct (objs g !! l) as [m0|]; [|done].
  case_bool_decide as Hown; [|done].
  unfold contentAt in *.
  rewrite boardAt_setCell_ne; [done|].
  intros Heq. inversion Heq; subst.
  destruct (boardAt g (m_x m0) (m_y m0)) as [[l'|]|]; try done.
  rewrite Hm in Hown. simpl in Hown. by inversion Hown.
Qed.

(** X16: [removePlayer] of a player of a session the operations can
    produce takes away the player's record and turn record, takes the
    player out of [playerOrder] and nobody else, gives the edge back to
    [availableEdges], and clears the board of the player's tokens: no
    cell holds a token of that owner any more, while every token of
    another player stands where it stood.  On a session without that
    player it does nothing. *)
Theorem removePlayer_erases (p : string) (g : Game) :
  (players g !! p = None → removePlayer p g = g) ∧
  (Reachable g → ∀ player, players g !! p = Some player →
   players (removePlayer p g) = delete p (players g) ∧
   turnActions (removePlayer p g) = delete p (turnActions g) ∧
   objs (removePlayer p g) = objs g ∧
   (∀ q, q ∈ playerOrder (removePlayer p g) ↔ q ∈ playerOrder g ∧ q ≠ p) ∧
   (∀ e, e ∈ availableEdges (removePlayer p g) ↔
         e ∈ availableEdges g ∨ e = p_edge player) ∧
   (∀ x y m, contentAt (removePlayer p g) x y = Some m → m_owner m ≠ p) ∧
   (∀ x y m, contentAt g x y = Some m → m_owner m ≠ p →
             contentAt (removePlayer p g) x y = Some m)).
Proof.
  split; [intros Hp; unfold removePlayer; by rewrite Hp|].
  intros Hg player Hp.
  pose proof (sessionOk_step g (removePlayer p g) (step_removePlayer p g)
                (sessionOk_reachable g Hg)) as (Hpl' & _ & _ & Htok').
  apply sessionOk_reachable in Hg as (Hpl & _ & _ & Htok).
  destruct (removePlayer_fields p g player Hp) as (Hplayers & Hboard & Hobjs & Hta & Hae).
  split_and!; try done.
  - intros q. destruct Hpl' as (_ & Hdom' & _). destruct Hpl as (_ & Hdom & _).
    rewrite Hdom', Hdom, Hplayers. split.
    + intros [ql Hq]. apply lookup_delete_Some in Hq as [Hne Hq]. split; [by eexists | done].
    + intros [[ql Hq] Hne]. exists ql. by apply lookup_delete_Some.
  - intros e. rewrite Hae.
    rewrite (arraySort_perm _ (availableEdges g ++ [p_edge player]) []).
    by rewrite elem_of_app, list_elem_of_singleton.
  - intros x y m Hm Hown. unfold contentAt in Hm.
    destruct (boardAt (removePlayer p g) x y) as [[l|]|] eqn:Hl; try done.
    destruct Htok' as [_ Hcell'].
    destruct (Hcell' x y l Hl) as (m' & pl' & Hm' & _ & _ & Hq & _).
    rewrite Hm in Hm'. injection Hm' as <-.
    rewrite Hown, Hplayers, lookup_delete_eq in Hq. done.
  - intros x y m Hm Hown.
    rewrite (contentAt_same
               (forfeitTokens p (p_monsters player) (returnEdge (p_edge player) g)));
      [|done|].
    + apply forfeitTokens_spares; [|done].
      by rewrite (contentAt_same g (returnEdge (p_edge player) g)).
    + rewrite Hobjs.
      by destruct (forfeitTokens_board p (p_monsters player)
                     (returnEdge (p_edge player) g)) as (-> & _).
Qed.

(** X17: a player leaving an active session so that fewer than two
    players are left in the order ends it: the status is finished and no
    winner is recorded, the player left, if any, included. *)
Theorem removePlayer_ends_short_session (p : string) (g : Game) :
  status g = Active → is_Some (players g !! p) →
  (length (playerOrder (removePlayer p g)) < 2)%nat →
  status (removePlayer p g) = Finished ∧ winner (removePlayer p g) = None.
Proof.
  intros Hst [player Hp]. unfold removePlayer. rewrite Hp.
  assert (Hst4 : status (forgetPlayer p (dropFromOrder p
                   (forfeitTokens p (p_monsters player) (returnEdge (p_edge player) g))))
                 = Active).
  { unfold forgetPlayer. simpl. by rewrite status_dropFromOrder, status_forfeitTokens. }
  revert Hst4.
  generalize (forgetPlayer p (dropFromOrder p
                (forfeitTokens p (p_monsters player) (returnEdge (p_edge player) g)))).
  intros g4 Hst4.
  destruct (frame_settleAfterLeave (repairIndex g4)) as (_ & _ & _ & _ & -> & _).
  destruct (frame_repairIndex g4) as (_ & _ & _ & _ & -> & _).
  intros Hlen. unfold settleAfterLeave, checkForWinner, endGame, repairIndex.
  rewrite Hst4. rewrite (bool_decide_eq_true_2 (Active = Active)) by done. simpl.
  destruct (Nat.ltb_spec 0 (length (playerOrder g4))) as [Hpos|Hzero]; simpl.
  - rewrite Hst4. rewrite (bool_decide_eq_true_2 (Active = Active)) by done.
    rewrite (bool_decide_eq_false_2 (1 < _)%nat) by lia.
    destruct (Nat.ltb_spec (length (playerOrder g4)) 2); [|lia].
    repeat case_match; simplify_eq; done.
  - destruct (Nat.eqb_spec (length (playerOrder g4)) 0); [|lia]. done.
Qed.

(** The order and the index once the leaver has been taken out and the
    index repaired, in an active session. *)
Lemma dropFromOrder_turn (p : string) (g : Game) (i : nat) :
  status g = Active → NoDup (playerOrder g) → playerOrder g !! i = Some p →
  (2 ≤ length (playerOrder g))%nat →
  (currentPlayerIndex g < length (playerOrder g))%nat →
  playerOrder (repairIndex (forgetPlayer p (dropFromOrder p g)))
    !! currentPlayerIndex (repairIndex (forgetPlayer p (dropFromOrder p g)))
  = if decide (i = currentPlayerIndex g)
    then playerOrder g !! ((currentPlayerIndex g + 1) `mod` length (playerOrder g))%nat
    else playerOrder g !! currentPlayerIndex g.
Proof.
  intros Hst Hnd Hi Hlen Hidx.
  pose proof (lookup_lt_Some _ _ _ Hi) as Hilt.
  assert (Hfind : list_find (fun q => q = p) (playerOrder g) = Some (i, p)).
  { apply list_find_Some. split_and!; try done.
    intros j q Hj Hji ->. assert (j = i) by (by eapply NoDup_lookup). lia. }
  unfold dropFromOrder. rewrite Hfind. cbv zeta.
  rewrite Hst. rewrite (bool_decide_eq_true_2 (Active = Active)) by done. simpl.
  rewrite (proj2 (Nat.ltb_lt 1 (length (playerOrder g)))) by lia.
  destruct (Nat.eqb_spec i (currentPlayerIndex g)) as [Heq|Hne]; simpl.
  - rewrite Hst. rewrite (bool_decide_eq_true_2 (Active = Active)) by done. simpl.
    rewrite decide_True by done.
    destruct (Nat.ltb_spec i (currentPlayerIndex g `mod` (length (playerOrder g) - 1)))
      as [Hlt|_].
    { pose proof (Nat.Div0.mod_le (currentPlayerIndex g) (length (playerOrder g) - 1)). lia. }
    unfold repairIndex, forgetPlayer. simpl. rewrite Hst.
    rewrite (bool_decide_eq_true_2 (Active = Active)) by done. simpl.
    rewrite length_delete by (by eexists).
    rewrite (proj2 (Nat.ltb_lt 0 (length (playerOrder g) - 1))) by lia. simpl.
    rewrite Nat.Div0.mod_mod.
    destruct (decide (currentPlayerIndex g = length (playerOrder g) - 1)%nat) as [Hlast|Hmid].
    + rewrite Hlast at 1. rewrite Nat.Div0.mod_same.
      rewrite list_lookup_delete_lt by lia.
      replace (currentPlayerIndex g + 1)%nat with (length (playerOrder g)) by lia.
      by rewrite Nat.Div0.mod_same.
    + rewrite (Nat.mod_small (currentPlayerIndex g)) by lia.
      rewrite list_lookup_delete_ge by lia.
      rewrite (Nat.mod_small (currentPlayerIndex g + 1)) by lia.
      by rewrite Nat.add_1_r.
  - rewrite Hst. rewrite (bool_decide_eq_true_2 (Active = Active)) by done. simpl.
    rewrite decide_False by done.
    destruct (Nat.ltb_spec i (currentPlayerIndex g)) as [Hlt|Hge];
      unfold repairIndex, forgetPlayer; simpl; rewrite Hst;
      rewrite (bool_decide_eq_true_2 (Active = Active)) by done; simpl;
      rewrite length_delete by (by eexists);
      rewrite (proj2 (Nat.ltb_lt 0 (length (playerOrder g) - 1))) by lia; simpl.
    + rewrite Nat.mod_small by lia.
      rewrite list_lookup_delete_ge by lia.
      by replace (S (currentPlayerIndex g - 1)) with (currentPlayerIndex g) by lia.
    + rewrite Nat.mod_small by lia.
      by rewrite list_lookup_delete_lt by lia.
Qed.

(** X18: when a player leaves an active session the operations can
    produce, the index stays on the player whose turn it is if somebody
    else leaves, and moves to the next player in the cyclic order if the
    current player leaves. *)
Theorem removePlayer_keeps_turn (p c : string) (g : Game) :
  Reachable g → getCurrentPlayer g = Some c → is_Some (players g !! p) →
  playerOrder (removePlayer p g) !! currentPlayerIndex (removePlayer p g)
  = if decide (p = c)
    then playerOrder g !! ((currentPlayerIndex g + 1) `mod` length (playerOrder g))%nat
    else Some c.
Proof.
  intros Hg Hc [player Hp].
  apply getCurrentPlayer_Some in Hc as [Hst Hc].
  apply sessionOk_reachable in Hg as ((Hnd & Hdom & _) & Hturn & _).
  destruct (Hturn Hst) as [Hlen Hidx].
  assert (Hin : p ∈ playerOrder g) by (apply Hdom; by eexists).
  apply list_elem_of_lookup in Hin as [i Hi].
  unfold removePlayer. rewrite Hp.
  set (g2 := forfeitTokens p (p_monsters player) (returnEdge (p_edge player) g)).
  destruct (frame_settleAfterLeave (repairIndex (forgetPlayer p (dropFromOrder p g2))))
    as (_ & _ & _ & _ & -> & -> & _).
  destruct (frame_forfeitTokens p (p_monsters player) (returnEdge (p_edge player) g))
    as (_ & _ & Hord2 & Hidx2 & _).
  fold g2 in Hord2, Hidx2. simpl in Hord2, Hidx2.
  assert (Hst2 : status g2 = Active) by (subst g2; by rewrite status_forfeitTokens).
  rewrite (dropFromOrder_turn p g2 i) by (rewrite ?Hord2, ?Hidx2; done).
  rewrite Hord2, Hidx2.
  destruct (decide (i = currentPlayerIndex g)) as [->|Hne].
  - rewrite Hi in Hc. injection Hc as ->. by rewrite decide_True.
  - rewrite decide_False; [done|]. intros ->. apply Hne. by eapply NoDup_lookup.
Qed.

(** ** Moving *)

(** A legal move leaves the square it started from, and a token on the
    destination belongs to the mover. *)
Lemma isValidMove_destination (g : Game) (p : string) (monster : Monster) (x y : Z) :
  isValidMove g p monster x y = true →
  (x, y) ≠ (m_x monster, m_y monster) ∧
  ∀ sq, contentAt g x y = Some sq → m_owner sq = p.
Proof.
  unfold isValidMove.
  destruct (inBounds x y) eqn:Hin; simpl; [|done].
  set (dx := Z.abs (x - m_x monster)). set (dy := Z.abs (y - m_y monster)).
  destruct (negb _ && negb _) eqn:Hmove; [done|].
  destruct ((dx >? 0) && (dy >? 0) && ((dx >? 2) || (dy >? 2))) eqn:Hcap; [done|].
  intros Hloop.
  assert (Hsteps : 1 ≤ Z.max dx dy).
  { destruct (Z.gtb_spec dx 0), (Z.gtb_spec dy 0), (Z.eqb_spec dx 0), (Z.eqb_spec dy 0);
      simpl in Hmove; try done; lia. }
  split.
  - intros [= -> ->]. subst dx dy. rewrite !Z.sub_diag in Hsteps. simpl in Hsteps. lia.
  - intros sq Hsq.
    rewrite pathLoop_true in Hloop.
    specialize (Hloop (Z.max dx dy) ltac:(lia)).
    unfold pathBlockedAt in Hloop. fold dx dy in Hloop.
    assert (Hx : (if (dx >? 0) && (dy >? 0)
                  then m_x monster + Z.sgn (x - m_x monster) * Z.min (Z.max dx dy) dx
                  else m_x monster + Z.sgn (x - m_x monster)
                       * (if (((dx >? 0) && (dy =? 0)) || ((dx =? 0) && (dy >? 0)))
                               && (dx >? 0) || (dx >? 0) && (dy >? 0)
                          then Z.max dx dy else 0)) = x).
    { subst dx dy.
      destruct (Z.gtb_spec (Z.abs (x - m_x monster)) 0),
        (Z.gtb_spec (Z.abs (y - m_y monster)) 0),
        (Z.eqb_spec (Z.abs (x - m_x monster)) 0),
        (Z.eqb_spec (Z.abs (y - m_y monster)) 0); simpl; try lia;
        destruct (Z.sgn_spec (x - m_x monster)) as [[? ->]|[[? ->]|[? ->]]]; lia. }
    assert (Hy : (if (dx >? 0) && (dy >? 0)
                  then m_y monster + Z.sgn (y - m_y monster) * Z.min (Z.max dx dy) dy
                  else m_y monster + Z.sgn (y - m_y monster)
                       * (if (((dx >? 0) && (dy =? 0)) || ((dx =? 0) && (dy >? 0)))
                               && (dy >? 0) || (dx >? 0) && (dy >? 0)
                          then Z.max dx dy else 0)) = y).
    { subst dx dy.
      destruct (Z.gtb_spec (Z.abs (x - m_x monster)) 0),
        (Z.gtb_spec (Z.abs (y - m_y monster)) 0),
        (Z.eqb_spec (Z.abs (x - m_x monster)) 0),
        (Z.eqb_spec (Z.abs (y - m_y monster)) 0); simpl; try lia;
        destruct (Z.sgn_spec (y - m_y monster)) as [[? ->]|[[? ->]|[? ->]]]; lia. }
    rewrite Hx, Hy, Hin, Hsq in Hloop. simpl in Hloop.
    destruct (String.eqb_spec (m_owner sq) p) as [Heq|Hne]; [done|].
    simpl in Hloop. by rewrite andb_false_r in Hloop.
Qed.



(** X21: a successful [moveMonster] has found the token in the caller's
    roster and judged the move valid.  When the destination is empty, the
    token then stands on the destination with its coordinates updated
    and its id, type and owner as before, the square it left is empty,
    every other cell and every player's record are unchanged. *)
Theorem moveMonster_moves (p monsterId : string) (x y : Z) (g g' : Game) (r : Result) :
  moveMonster p monsterId x y g = (g', Returned r) → success r = true →
  ∃ player i l monster,
    players g !! p = Some player ∧
    findMonster g (p_monsters player) monsterId = Some (i, l) ∧
    objs g !! l = Some monster ∧
    isValidMove g p monster x y = true ∧
    r = mkResult true (Some (MsgMoved x y)) None ∧
    (boardAt g x y = Some None →
     contentAt g' x y
       = Some (mkMonster (m_id monster) (m_type monster) x y (m_owner monster)) ∧
     contentAt g' (m_x monster) (m_y monster) = None ∧
     players g' = players g ∧
     (∀ x' y', (x', y') ≠ (x, y) → (x', y') ≠ (m_x monster, m_y monster) →
               boardAt g' x' y' = boardAt g x' y')).
Proof.
  unfold moveMonster.
  case_bool_decide; [intros; by simplify_eq|].
  destruct (players g !! p) as [player|] eqn:Hp; [|intros; by simplify_eq].
  destruct (findMonster g (p_monsters player) monsterId) as [[i l]|] eqn:Hfind;
    [|intros; by simplify_eq].
  destruct (findMonster_object _ _ _ _ _ Hfind) as (monster & Hm & Hid & Hi).
  rewrite Hm.
  destruct (_ && _ && _); [intros; by simplify_eq|].
  destruct (default false _); [intros; by simplify_eq|].
  destruct (isValidMove g p monster x y) eqn:Hvalid; simpl; [|intros; by simplify_eq].
  destruct (turnActions g !! p) as [t|]; [|intros; by simplify_eq]. simpl.
  intros Hret _. injection Hret as <- <-.
  exists player, i, l, monster. split_and!; try done.
  intros Hempty. rewrite Hempty. simpl.
  destruct (isValidMove_destination _ _ _ _ _ Hvalid) as [Hmoved _].
  pose proof (lookup_lt_Some _ _ _ Hm) as Hlt.
  set (g1 := set_board (setCell (m_x monster) (m_y monster) None (board g)) g).
  set (g2 := set_board (setCell x y (Some l) (board g1)) g1).
  match goal with
  | |- context [settleWinner ?ga] =>
      destruct (board_settleWinner ga) as (Hb & Hpl & Ho);
      assert (Hb2 : board (settleWinner ga) = board g2) by (by rewrite Hb);
      assert (Ho2 : objs (settleWinner ga)
                    = <[l := mkMonster (m_id monster) (m_type monster) x y
                                       (m_owner monster)]> (objs g))
        by (by rewrite Ho);
      rewrite Hpl; clear Hb Hpl Ho
  end.
  assert (Hcell : ∀ x' y', boardAt g2 x' y' =
                           if decide ((x', y') = (x, y)) then Some (Some l)
                           else if decide ((x', y') = (m_x monster, m_y monster))
                                then (fun _ => None) <$> boardAt g x' y'
                                else boardAt g x' y').
  { intros x' y'. subst g2. destruct (decide ((x', y') = (x, y))) as [Heq|Hne].
    - inversion Heq; subst. apply boardAt_setCell_eq. subst g1.
      rewrite boardAt_setCell_ne by done. rewrite Hempty. by eexists.
    - rewrite boardAt_setCell_ne by done. subst g1.
      destruct (decide ((x', y') = (m_x monster, m_y monster))) as [Heq|Hne'].
      + inversion Heq; subst.
        destruct (boardAt g (m_x monster) (m_y monster)) as [c|] eqn:Hc.
        * rewrite boardAt_setCell_eq by (rewrite Hc; by eexists). done.
        * by rewrite (setCell_absent g _ _ _ Hc), (boardAt_board g) by done.
      + by rewrite boardAt_setCell_ne. }
  split_and!.
  - unfold contentAt. rewrite (boardAt_board g2) by done. rewrite Hcell, Ho2.
    rewrite decide_True by done. by apply list_lookup_insert_eq.
  - unfold contentAt. rewrite (boardAt_board g2) by done. rewrite Hcell.
    rewrite decide_False by (intros Heq; by apply Hmoved).
    rewrite decide_True by done.
    by destruct (boardAt g (m_x monster) (m_y monster)).
  - done.
  - intros x' y' Hne Hne'. rewrite (boardAt_board g2) by done. rewrite Hcell.
    by rewrite !decide_False.
Qed.

(** ** The snapshot *)

Lemma foldr_views_lookup (f : Player → PlayerView) (l : list (string * Player)) (p : string) :
  (∀ k v, (k, v) ∈ l → p_id v = k) →
  foldr (fun kp acc => <[p_id kp.2 := f kp.2]> acc) (∅ : gmap string PlayerView) l !! p
  = f <$> (list_to_map l : gmap string Player) !! p.
Proof.
  induction l as [|[k v] l IH]; intros Hid; simpl.
  - by rewrite !lookup_empty.
  - rewrite (Hid k v) by left.
    destruct (decide (p = k)) as [->|Hne].
    + by rewrite !lookup_insert_eq.
    + rewrite !lookup_insert_ne by done. apply IH.
      intros k' v' Hin. apply Hid. by right.
Qed.

(** X19: the snapshot [getState] returns shows the session's id, round,
    status, winner, order and current player as they are, each cell of
    the board with the token that stands on it, and, for a session the
    operations can produce, one entry per player of the session, under
    the player's id, with the edge, the number of tokens in the roster,
    the loss count, and the elimination flag set exactly when the loss
    count is at least 10. *)
Theorem getState_shows (g : Game) :
  s_id (getState g) = g_id g ∧ s_round (getState g) = round g ∧
  s_status (getState g) = status g ∧ s_winner (getState g) = winner g ∧
  s_playerOrder (getState g) = playerOrder g ∧
  s_currentPlayerId (getState g) = getCurrentPlayer g ∧
  (∀ i j, (s_board (getState g) !! i) ≫= (.!! j)
          = (fun c : option loc => c ≫= (objs g !!.)) <$> ((board g !! i) ≫= (.!! j))) ∧
  (Reachable g →
   ∀ p, s_players (getState g) !! p
        = (fun pl => mkPlayerView p (p_edge pl) (length (p_monsters pl))
                                  (p_monstersLost pl)
                                  (bool_decide (10 ≤ p_monstersLost pl)%nat))
            <$> players g !! p).
Proof.
  split_and!; try done.
  - intros i j. simpl. rewrite list_lookup_fmap.
    destruct (board g !! i) as [row|]; simpl; [|done]. by rewrite list_lookup_fmap.
  - intros Hg p. apply sessionOk_reachable in Hg as ((_ & _ & _ & Hid & _) & _).
    simpl. rewrite foldr_views_lookup.
    + rewrite list_to_map_to_list. destruct (players g !! p) as [pl|] eqn:Hp; [|done].
      simpl. unfold playerView, isPlayerEliminated.
      rewrite (Hid p pl Hp). by rewrite Hp.
    + intros k v Hin. apply elem_of_map_to_list in Hin. by apply Hid.
Qed.

(** ** Collisions *)

(** What a successful [moveMonster] has checked and done. *)
Lemma moveMonster_success (p monsterId : string) (x y : Z) (g g' : Game) (r : Result) :
  moveMonster p monsterId x y g = (g', Returned r) → success r = true →
  ∃ player i l monster t,
    getCurrentPlayer g = Some p ∧
    players g !! p = Some player ∧
    findMonster g (p_monsters player) monsterId = Some (i, l) ∧
    objs g !! l = Some monster ∧
    isValidMove g p monster x y = true ∧
    turnActions g !! p = Some t ∧
    r = mkResult true (Some (MsgMoved x y)) None ∧
    g' = settleWinner
           (match mjoin (boardAt g x y) with
            | Some _ =>
                handleConflict x y p (mjoin (boardAt g x y))
                  (set_turnActions
                     (<[p := mkTurnAction (placedMonster t)
                                          ({[monsterId]} ∪ movedMonsters t)
                                          (placedMonsterId t)]> (turnActions g))
                     (relocate l monster x y g))
            | None =>
                set_turnActions
                  (<[p := mkTurnAction (placedMonster t)
                                       ({[monsterId]} ∪ movedMonsters t)
                                       (placedMonsterId t)]> (turnActions g))
                  (relocate l monster x y g)
            end).
Proof.
  unfold moveMonster.
  case_bool_decide as Hcur; [intros; by simplify_eq|].
  assert (Hp' : getCurrentPlayer g = Some p)
    by (destruct (decide (getCurrentPlayer g = Some p)); [done | by destruct Hcur]).
  destruct (players g !! p) as [player|] eqn:Hp; [|intros; by simplify_eq].
  destruct (findMonster g (p_monsters player) monsterId) as [[i l]|] eqn:Hfind;
    [|intros; by simplify_eq].
  destruct (findMonster_object _ _ _ _ _ Hfind) as (monster & Hm & Hid & Hi).
  rewrite Hm.
  destruct (_ && _ && _); [intros; by simplify_eq|].
  destruct (default false _); [intros; by simplify_eq|].
  destruct (isValidMove g p monster x y) eqn:Hvalid; simpl; [|intros; by simplify_eq].
  destruct (turnActions g !! p) as [t|] eqn:Ht; [|intros; by simplify_eq]. simpl.
  intros Hret _. injection Hret as <- <-.
  exists player, i, l, monster, t. split_and!; try done.
Qed.











(** ** The turn record within a turn *)

Lemma status_removePlayer (p : string) (g : Game) :
  status (removePlayer p g) = status g ∨ status (removePlayer p g) = Finished.
Proof.
  unfold removePlayer. destruct (players g !! p) as [player|]; [|by left].
  assert (Hst4 : status (forgetPlayer p (dropFromOrder p
                   (forfeitTokens p (p_monsters player) (returnEdge (p_edge player) g))))
                 = status g).
  { unfold forgetPlayer. simpl. by rewrite status_dropFromOrder, status_forfeitTokens. }
  revert Hst4.
  generalize (forgetPlayer p (dropFromOrder p
                (forfeitTokens p (p_monsters player) (returnEdge (p_edge player) g)))).
  intros g4 <-.
  unfold settleAfterLeave, repairIndex, endGame.
  repeat case_match; simpl in *; auto.
Qed.

(** A call that leaves the turn of [p] open only adds to the record of
    [p], and never takes the session back to the lobby. *)
Lemma turnRecord_step (p : string) (g g' : Game) (ta : TurnAction) :
  TurnStep p g g' → status g ≠ Waiting → turnActions g !! p = Some ta →
  status g' ≠ Waiting ∧ ∃ ta', turnActions g' !! p = Some ta' ∧ recordLe ta ta'.
Proof.
  intros Hstep Hst Hta.
  assert (Hrefl : recordLe ta ta) by (by split).
  destruct Hstep as [q g|rnd g|q type x y id g|q id x y g|q rnd g g' r Hend Hfail|q g Hq].
  - assert (Hsame : (addPlayer q g).1 = g).
    { unfold addPlayer. rewrite (bool_decide_eq_false_2 (status g = Waiting)) by done.
      by rewrite orb_true_r. }
    rewrite Hsame. split; [done | by exists ta].
  - assert (Hsame : (startGame rnd g).1 = g).
    { unfold startGame. by rewrite (bool_decide_eq_false_2 (status g = Waiting)) by done. }
    rewrite Hsame. split; [done | by exists ta].
  - split.
    + by destruct (frame_placeMonster q type x y id g) as (_ & _ & _ & _ & -> & _).
    + unfold placeMonster. repeat case_match; simpl; try (by exists ta).
      destruct (decide (q = p)) as [->|Hne].
      * rewrite lookup_insert_eq. eexists. split; [reflexivity|]. simpl in *.
        simplify_eq. by split.
      * rewrite lookup_insert_ne by done. by exists ta.
  - split.
    + destruct (frame_moveMonster q id x y g) as (_ & _ & _ & _ & [-> | ->] & _); done.
    + unfold moveMonster. repeat case_match; simpl; try (by exists ta);
        rewrite turnActions_settleWinner, ?turnActions_handleConflict; simpl;
        (destruct (decide (q = p)) as [->|Hne];
         [rewrite lookup_insert_eq; eexists; (split; [reflexivity|]); simpl in *;
          simplify_eq; split; [done | simpl; set_solver]
         |rewrite lookup_insert_ne by done; by exists ta]).
  - assert (Hsame : g' = g).
    { revert Hend. unfold endTurn. repeat case_match; intros Hend; by simplify_eq. }
    subst g'. split; [done | by exists ta].
  - split.
    + destruct (status_removePlayer q g) as [-> | ->]; done.
    + destruct (players g !! q) as [player|] eqn:Hplayer.
      * destruct (removePlayer_fields q g player Hplayer) as (_ & _ & _ & -> & _).
        exists ta. by rewrite lookup_delete_ne.
      * unfold removePlayer. rewrite Hplayer. by exists ta.
Qed.

Lemma turnRecord_sameTurn (p : string) (g g' : Game) (ta : TurnAction) :
  SameTurn p g g' → status g ≠ Waiting → turnActions g !! p = Some ta →
  status g' ≠ Waiting ∧ ∃ ta', turnActions g' !! p = Some ta' ∧ recordLe ta ta'.
Proof.
  induction 1 as [g|g g' g'' _ IH Hstep]; intros Hst Hta.
  - split; [done|]. exists ta. by split.
  - destruct (IH Hst Hta) as (Hst' & ta' & Hta' & Hplaced & Hmoved).
    destruct (turnRecord_step p g' g'' ta' Hstep Hst' Hta')
      as (Hst'' & ta'' & Hta'' & Hplaced' & Hmoved').
    split; [done|]. exists ta''. split; [done|].
    split; [auto | by trans (movedMonsters ta')].
Qed.

(** X2: within a turn a token moves at most once.  After a successful
    [moveMonster] of a token by [p], and whatever calls follow that
    leave the turn open (placements, moves of this or other tokens, calls
    of other players, other players leaving: anything but a successful
    [endTurn] or [p] leaving), every further [moveMonster] of that token
    by [p] leaves the session as it is and does not succeed. *)
Theorem moved_token_stays (p monsterId : string) (x y x' y' : Z) (g g1 g2 : Game)
        (r : Result) :
  moveMonster p monsterId x y g = (g1, Returned r) → success r = true →
  SameTurn p g1 g2 →
  (moveMonster p monsterId x' y' g2).1 = g2 ∧
  ∀ r', (moveMonster p monsterId x' y' g2).2 = Returned r' → success r' = false.
Proof.
  intros Hmove Hok Hturn.
  destruct (moveMonster_marks_moved _ _ _ _ _ _ _ Hmove Hok) as (ta & Hta & Hin).
  assert (Hst : status g1 ≠ Waiting).
  { destruct (moveMonster_success _ _ _ _ _ _ _ Hmove Hok)
      as (? & ? & ? & ? & ? & Hcur & _).
    apply getCurrentPlayer_Some in Hcur as [Hact _].
    destruct (frame_moveMonster p monsterId x y g) as (_ & _ & _ & _ & Hs & _).
    rewrite Hmove in Hs. simpl in Hs. destruct Hs as [-> | ->]; by rewrite ?Hact. }
  destruct (turnRecord_sameTurn p g1 g2 ta Hturn Hst Hta)
    as (_ & ta' & Hta' & _ & Hsub).
  apply (moveMonster_already_moved p monsterId x' y' g2 ta'); [done | set_solver].
Qed.

(** X8: at most one placement per turn.  After a successful
    [placeMonster] by [p], and whatever calls follow that leave the turn
    open (anything but a successful [endTurn] or [p] leaving), every
    further [placeMonster] by [p] is turned down, with "You have already
    placed a monster this turn." as long as it is the turn of [p], and
    leaves the session as it is. *)
Theorem one_placement_per_turn (p type : string) (x y : Z) (monsterId : string)
        (g g1 g2 : Game) (r : Result) :
  placeMonster p type x y monsterId g = (g1, Returned r) → success r = true →
  SameTurn p g1 g2 →
  ∀ type' x' y' monsterId',
    placeMonster p type' x' y' monsterId' g2
    = (g2, Returned (failure (if decide (getCurrentPlayer g2 = Some p)
                              then "You have already placed a monster this turn."
                              else "Not your turn."))).
Proof.
  intros Hret Hok Hturn type' x' y' monsterId'.
  destruct (placeMonster_success _ _ _ _ _ _ _ _ Hret Hok)
    as (player & ta & Hcur & _ & _ & _ & _ & _ & _ & _ & _ & Hg1).
  assert (Hst : status g1 ≠ Waiting).
  { apply getCurrentPlayer_Some in Hcur as [Hact _]. subst g1. simpl. by rewrite Hact. }
  assert (Hta1 : turnActions g1 !! p
                 = Some (mkTurnAction true (movedMonsters ta) (placedMonsterId ta)))
    by (subst g1; simpl; apply lookup_insert_eq).
  destruct (turnRecord_sameTurn p g1 g2 _ Hturn Hst Hta1)
    as (_ & ta' & Hta' & Hplaced & _).
  unfold placeMonster. case_bool_decide as Hcur2.
  - by rewrite decide_False.
  - rewrite decide_True
      by (destruct (decide (getCurrentPlayer g2 = Some p)); [done | by destruct Hcur2]).
    rewrite Hta'. simpl. by rewrite Hplaced.
Qed.

(** ** The scenarios are sessions the operations produce *)

Lemma reachable_lobby : Reachable Scenario.lobby.
Proof.
  apply (reach_step (newGame "g" "p1")); [apply reach_new | apply step_addPlayer].
Qed.

Lemma reachable_lobby3 : Reachable Scenario.lobby3.
Proof. apply (reach_step Scenario.lobby); [apply reachable_lobby | apply step_addPlayer]. Qed.

Lemma reachable_started : Reachable Scenario.started.
Proof. apply (reach_step Scenario.lobby); [apply reachable_lobby | apply step_startGame]. Qed.

Lemma reachable_started3 : Reachable (startGame [] Scenario.lobby3).1.
Proof. apply (reach_step Scenario.lobby3); [apply reachable_lobby3 | apply step_startGame]. Qed.

Lemma reachable_placed1 : Reachable Scenario.placed1.
Proof.
  apply (reach_step Scenario.started); [apply reachable_started | apply step_placeMonster].
Qed.

Lemma reachable_faceOff : Reachable (Scenario.faceOff "vampire" "werewolf").
Proof.
  set (a := (placeMonster "p1" "vampire" 5 0 "m1" Scenario.started).1).
  set (b := match endTurn "p1" [] a with Some (b, _) => b | None => a end).
  set (c := (placeMonster "p2" "werewolf" 5 9 "m2" b).1).
  assert (Ha : Reachable a).
  { apply (reach_step Scenario.started); [apply reachable_started | apply step_placeMonster]. }
  assert (Hb : Reachable b).
  { apply (reach_step a); [done|].
    apply (step_endTurn "p1" [] a b (Returned (mkResult true None (Some (getState b))))).
    vm_compute. reflexivity. }
  assert (Hc : Reachable c).
  { apply (reach_step b); [done | apply step_placeMonster]. }
  apply (reach_step c); [done|].
  apply (step_endTurn "p2" [] c _
           (Returned (mkResult true None
                        (Some (getState (Scenario.faceOff "vampire" "werewolf")))))).
  vm_compute. reflexivity.
Qed.



(** ** Instances *)

Lemma placeMonster_places_witness :
  contentAt Scenario.started 3 0 = None ∧
  contentAt Scenario.placed1 3 0 = Some (mkMonster "m1" "vampire" 3 0 "p1") ∧
  monsterCount Scenario.placed1 "p1" = S <$> monsterCount Scenario.started "p1".
Proof.
  destruct (placeMonster_places "p1" "vampire" 3 0 "m1" Scenario.started Scenario.placed1
              (mkResult true (Some (MsgPlaced "vampire" 3 0)) None))
    as (_ & _ & Hfree & Hnew & _ & Hcount & _).
  - vm_compute. reflexivity.
  - reflexivity.
  - done.
Defined.

Lemma reachable_players_and_edges_witness :
  playersOk (Scenario.faceOff "vampire" "werewolf").
Proof. apply reachable_players_and_edges, reachable_faceOff. Defined.

Lemma reachable_current_player_witness :
  (2 ≤ length (playerOrder Scenario.started))%nat ∧
  ∃ p, getCurrentPlayer Scenario.started = Some p ∧ p ∈ playerOrder Scenario.started ∧
       is_Some (players Scenario.started !! p).
Proof.
  apply reachable_current_player; [apply reachable_started | reflexivity].
Defined.

Lemma reachable_board_and_rosters_witness :
  boardShape (Scenario.faceOff "vampire" "werewolf") ∧
  tokensOk (Scenario.faceOff "vampire" "werewolf").
Proof. apply reachable_board_and_rosters, reachable_faceOff. Defined.

Lemma finished_stays_finished_witness :
  status (removePlayer "p2" Scenario.started) = Finished ∧
  addPlayer "p3" (removePlayer "p2" Scenario.started)
  = (removePlayer "p2" Scenario.started, failure "Game full or already started.") ∧
  startGame [] (removePlayer "p2" Scenario.started)
  = (removePlayer "p2" Scenario.started, false).
Proof.
  assert (Hfin : status (removePlayer "p2" Scenario.started) = Finished)
    by (vm_compute; reflexivity).
  destruct (finished_stays_finished (removePlayer "p2" Scenario.started) Hfin)
    as (_ & _ & _ & Hadd & Hstart & _).
  split_and!; [done | apply Hadd | apply Hstart].
Defined.

Lemma endTurn_hands_over_witness :
  (status Scenario.round2 = Active ∧
   ∃ q, getCurrentPlayer Scenario.round2 = Some q ∧
        isPlayerEliminated Scenario.round2 (Some q) = false ∧
        turnActions Scenario.round2 !! q = Some freshTurnAction) ∨
  (status Scenario.round2 = Finished ∧
   ((winner Scenario.round2 = None ∧ activePlayers Scenario.round2 = []) ∨
    ∃ w, winner Scenario.round2 = Some w ∧ activePlayers Scenario.round2 = [w])).
Proof.
  assert (Hend : endTurn "p2" [] Scenario.p2placed
                 = Some (Scenario.round2,
                         Returned (mkResult true None (Some (getState Scenario.round2)))))
    by (vm_compute; reflexivity).
  destruct (endTurn_hands_over "p2" [] Scenario.p2placed Scenario.round2 _ Hend eq_refl)
    as (_ & Hstate & _).
  exact Hstate.
Defined.

Lemma removePlayer_ends_short_session_witness :
  status (removePlayer "p2" Scenario.started) = Finished ∧
  winner (removePlayer "p2" Scenario.started) = None.
Proof.
  apply removePlayer_ends_short_session.
  - reflexivity.
  - exists (mkPlayer "p2" EdgeBottom [] 0). vm_compute. reflexivity.
  - vm_compute. lia.
Defined.

Lemma removePlayer_keeps_turn_witness :
  getCurrentPlayer (startGame [] Scenario.lobby3).1 = Some "p1" ∧
  playerOrder (removePlayer "p1" (startGame [] Scenario.lobby3).1)
    !! currentPlayerIndex (removePlayer "p1" (startGame [] Scenario.lobby3).1)
  = Some "p2" ∧
  playerOrder (removePlayer "p3" (startGame [] Scenario.lobby3).1)
    !! currentPlayerIndex (removePlayer "p3" (startGame [] Scenario.lobby3).1)
  = Some "p1".
Proof.
  assert (Hcur : getCurrentPlayer (startGame [] Scenario.lobby3).1 = Some "p1")
    by (vm_compute; reflexivity).
  split_and!; [done| |].
  - rewrite (removePlayer_keeps_turn "p1" "p1" _ reachable_started3 Hcur).
    + vm_compute. reflexivity.
    + exists (mkPlayer "p1" EdgeTop [] 0). vm_compute. reflexivity.
  - rewrite (removePlayer_keeps_turn "p3" "p1" _ reachable_started3 Hcur).
    + vm_compute. reflexivity.
    + exists (mkPlayer "p3" EdgeLeft [] 0). vm_compute. reflexivity.
Defined.


Lemma moveMonster_moves_witness :
  ∃ monster,
    isValidMove (Scenario.faceOff "vampire" "werewolf") "p1" monster 5 1 = true ∧
    contentAt (moveMonster "p1" "m1" 5 1 (Scenario.faceOff "vampire" "werewolf")).1 5 1
    = Some (mkMonster (m_id monster) (m_type monster) 5 1 (m_owner monster)) ∧
    contentAt (moveMonster "p1" "m1" 5 1 (Scenario.faceOff "vampire" "werewolf")).1
              (m_x monster) (m_y monster) = None.
Proof.
  assert (Hmove : moveMonster "p1" "m1" 5 1 (Scenario.faceOff "vampire" "werewolf")
                  = ((moveMonster "p1" "m1" 5 1 (Scenario.faceOff "vampire" "werewolf")).1,
                     Returned (mkResult true (Some (MsgMoved 5 1)) None)))
    by (vm_compute; reflexivity).
  assert (Hempty : boardAt (Scenario.faceOff "vampire" "werewolf") 5 1 = Some None)
    by (vm_compute; reflexivity).
  destruct (moveMonster_moves "p1" "m1" 5 1 _ _ _ Hmove eq_refl)
    as (player & i & l & monster & _ & _ & _ & Hvalid & _ & Hdone).
  destruct (Hdone Hempty) as (Hnew & Hold & _).
  exists monster. exact (conj Hvalid (conj Hnew Hold)).
Defined.

Lemma moved_token_stays_witness :
  (moveMonster "p1" "m1" 5 2
     (placeMonster "p1" "ghost" 6 0 "m3"
        (moveMonster "p1" "m1" 5 1 (Scenario.faceOff "vampire" "werewolf")).1).1).1
  = (placeMonster "p1" "ghost" 6 0 "m3"
       (moveMonster "p1" "m1" 5 1 (Scenario.faceOff "vampire" "werewolf")).1).1.
Proof.
  assert (Hmove : moveMonster "p1" "m1" 5 1 (Scenario.faceOff "vampire" "werewolf")
                  = ((moveMonster "p1" "m1" 5 1 (Scenario.faceOff "vampire" "werewolf")).1,
                     Returned (mkResult true (Some (MsgMoved 5 1)) None)))
    by (vm_compute; reflexivity).
  apply (moved_token_stays "p1" "m1" 5 1 5 2 _ _ _ _ Hmove eq_refl).
  apply (same_turn_step "p1" _ _ _ (same_turn_refl "p1" _)).
  apply turn_placeMonster.
Defined.

Lemma one_placement_per_turn_witness :
  placeMonster "p1" "ghost" 4 0 "m2" (moveMonster "p1" "m1" 3 5 Scenario.placed1).1
  = ((moveMonster "p1" "m1" 3 5 Scenario.placed1).1,
     Returned (failure "You have already placed a monster this turn.")).
Proof.
  assert (Hplace : placeMonster "p1" "vampire" 3 0 "m1" Scenario.started
                   = (Scenario.placed1,
                      Returned (mkResult true (Some (MsgPlaced "vampire" 3 0)) None)))
    by (vm_compute; reflexivity).
  assert (Hturn : SameTurn "p1" Scenario.placed1
                    (moveMonster "p1" "m1" 3 5 Scenario.placed1).1)
    by (apply (same_turn_step "p1" _ _ _ (same_turn_refl "p1" _)), turn_moveMonster).
  rewrite (one_placement_per_turn "p1" "vampire" 3 0 "m1" _ _ _ _ Hplace eq_refl Hturn
             "ghost" 4 0 "m2").
  rewrite decide_True by (vm_compute; reflexivity). reflexivity.
Defined.


